(** * Cross-layer equalization and high-bias absorption

    A shallow embedding of [tinynn/graph/quantization/cross_layer_equalization.py]
    and the properties of its specification.

    Conventions of the embedding.
    - Tensor entries are extended real numbers [fp]: a real, an infinity or
      NaN.  The special values follow IEEE 754 (division by zero, 0 * inf,
      comparisons with NaN, ...); the functions of the source are embedded
      with exact operations on the finite values: rounding and overflow are
      not part of them, neither are the casts between float and double.
      Rounding to binary64 is defined apart, for the scales that [equalize]
      and [equalize_cdc] compute, where a statement depends on it.  Every
      zero divisor of this program is the result of [abs], [sqrt] or [pow],
      hence a positive zero: [x / 0] is [+inf] for positive [x].
    - A tensor is its shape together with its indexing function.
    - Python exceptions are the [Err] results of [result].
    - Module objects are mutated in place by the source; the embedding passes
      a [Model], the map from attribute names to module objects, explicitly.
    - Logging is left out. *)

From Stdlib Require Import List String Bool Arith Lia Reals Lra.
Import ListNotations.
Set Warnings "-register-all".

(** ** Numbers *)

Inductive fp := Fin (r : R) | PInf | NInf | NaN.

Definition is_zero (r : R) : bool := if Req_dec_T r 0 then true else false.
Definition is_neg (r : R) : bool := if Rlt_dec r 0 then true else false.
Definition inf_signed (negative : bool) : fp := if negative then NInf else PInf.

Definition fabs (x : fp) : fp :=
  match x with
  | Fin r => Fin (Rabs r)
  | PInf | NInf => PInf
  | NaN => NaN
  end.

Definition fneg (x : fp) : fp :=
  match x with
  | Fin r => Fin (- r)
  | PInf => NInf
  | NInf => PInf
  | NaN => NaN
  end.

Definition fmul (x y : fp) : fp :=
  match x, y with
  | NaN, _ | _, NaN => NaN
  | Fin a, Fin b => Fin (a * b)
  | Fin a, PInf | PInf, Fin a => if is_zero a then NaN else inf_signed (is_neg a)
  | Fin a, NInf | NInf, Fin a => if is_zero a then NaN else inf_signed (negb (is_neg a))
  | PInf, PInf | NInf, NInf => PInf
  | PInf, NInf | NInf, PInf => NInf
  end.

Definition fdiv (x y : fp) : fp :=
  match x, y with
  | NaN, _ | _, NaN => NaN
  | Fin a, Fin b =>
      if is_zero b
      then (if is_zero a then NaN else inf_signed (is_neg a))
      else Fin (a / b)
  | Fin _, PInf | Fin _, NInf => Fin 0
  | PInf, Fin b => inf_signed (is_neg b)
  | NInf, Fin b => inf_signed (negb (is_neg b))
  | _, _ => NaN
  end.

Definition fadd (x y : fp) : fp :=
  match x, y with
  | NaN, _ | _, NaN => NaN
  | Fin a, Fin b => Fin (a + b)
  | PInf, NInf | NInf, PInf => NaN
  | PInf, _ | _, PInf => PInf
  | NInf, _ | _, NInf => NInf
  end.

Definition fsub (x y : fp) : fp := fadd x (fneg y).

Definition fsqrt (x : fp) : fp :=
  match x with
  | Fin a => if is_neg a then NaN else Fin (sqrt a)
  | PInf => PInf
  | NInf | NaN => NaN
  end.

(** [pow(x, y)] for an exponent [y] that is positive and not an integer, as
    in the only call of the source, [pow(_, 1.0 / 3)]. *)
Definition fpow (x : fp) (y : R) : fp :=
  match x with
  | Fin a => if is_neg a then NaN else if is_zero a then Fin 0 else Fin (Rpower a y)
  | PInf | NInf => PInf
  | NaN => NaN
  end.

(** [x > y]; a comparison with NaN is false. *)
Definition fgt (x y : fp) : bool :=
  match x, y with
  | NaN, _ | _, NaN => false
  | Fin a, Fin b => if Rlt_dec b a then true else false
  | PInf, PInf => false
  | PInf, _ => true
  | _, PInf => false
  | NInf, _ => false
  | Fin _, NInf => true
  end.

Definition flt (x y : fp) : bool := fgt y x.

(** The maximum of [amax], which propagates NaN. *)
Definition fmax (x y : fp) : fp :=
  match x, y with
  | NaN, _ | _, NaN => NaN
  | _, _ => if fgt y x then y else x
  end.

Definition amax_list (l : list fp) : fp :=
  match l with
  | [] => NaN
  | x :: r => fold_left fmax r x
  end.

Definition fsum (l : list fp) : fp := fold_left fadd l (Fin 0).

(** ** Exceptions *)

Inductive error :=
  | AssertionError
  | AttributeError
  | TypeError
  | UnboundLocalError
  | TorchError.

Inductive result (A : Type) := Ok (a : A) | Err (e : error).
Arguments Ok {A} a.
Arguments Err {A} e.

Definition bind {A B} (r : result A) (k : A -> result B) : result B :=
  match r with
  | Ok a => k a
  | Err e => Err e
  end.

Notation "x <- r ;; k" := (bind r (fun x => k))
  (at level 61, r at next level, right associativity).
Notation "' p <- r ;; k" := (bind r (fun p => k))
  (at level 61, p pattern, r at next level, right associativity).

(** ** Tensors *)

Record Tensor1 := mkTensor1 { size1 : nat; at1 : nat -> fp }.
Record Tensor2 := mkTensor2 { rows2 : nat; cols2 : nat; at2 : nat -> nat -> fp }.
Record Tensor4 := mkTensor4 {
  dim0 : nat; dim1 : nat; dim2 : nat; dim3 : nat;
  at4 : nat -> nat -> nat -> nat -> fp
}.

(** [t.permute(1, 0, 2, 3)] *)
Definition permute_1023 (t : Tensor4) : Tensor4 :=
  mkTensor4 (dim1 t) (dim0 t) (dim2 t) (dim3 t) (fun a b c d => at4 t b a c d).

Definition index3 (d1 d2 d3 : nat) : list (nat * nat * nat) :=
  flat_map (fun i => flat_map (fun h => map (fun w => (i, h, w)) (seq 0 d3)) (seq 0 d2))
           (seq 0 d1).

(** [t.abs().amax([1, 2, 3])] *)
Definition abs_amax_123 (t : Tensor4) : Tensor1 :=
  mkTensor1 (dim0 t)
    (fun c => amax_list (map (fun '(i, h, w) => fabs (at4 t c i h w))
                             (index3 (dim1 t) (dim2 t) (dim3 t)))).

(** [amax] raises on a reduction over no element. *)
Definition reducible_123 (t : Tensor4) : bool :=
  (0 <? dim1 t) && (0 <? dim2 t) && (0 <? dim3 t).

Definition map_1 (f : fp -> fp) (a : Tensor1) : Tensor1 :=
  mkTensor1 (size1 a) (fun i => f (at1 a i)).

Definition map2_1 (f : fp -> fp -> fp) (a b : Tensor1) : Tensor1 :=
  mkTensor1 (size1 a) (fun i => f (at1 a i) (at1 b i)).

(** [f(t, s.reshape([-1, 1, 1, 1]))] *)
Definition scale_dim0 (f : fp -> fp -> fp) (t : Tensor4) (s : Tensor1) : Tensor4 :=
  mkTensor4 (dim0 t) (dim1 t) (dim2 t) (dim3 t)
    (fun a b c d => f (at4 t a b c d) (at1 s a)).

Definition ones (n : nat) : Tensor1 := mkTensor1 n (fun _ => Fin 1).

(** [torch.where(a > threshold, x, y)] *)
Definition where_gt (a : Tensor1) (threshold : R) (x y : Tensor1) : Tensor1 :=
  mkTensor1 (size1 y)
    (fun i => if fgt (at1 a i) (Fin threshold) then at1 x i else at1 y i).

(** An elementwise operation on two vectors, with torch's broadcasting. *)
Definition broadcast1 (f : fp -> fp -> fp) (a b : Tensor1) : result Tensor1 :=
  if size1 a =? size1 b then Ok (map2_1 f a b)
  else if size1 a =? 1 then Ok (mkTensor1 (size1 b) (fun i => f (at1 a 0) (at1 b i)))
  else if size1 b =? 1 then Ok (mkTensor1 (size1 a) (fun i => f (at1 a i) (at1 b 0)))
  else Err TorchError.

(** [t.sum(dim=[2, 3])] *)
Definition sum_23 (t : Tensor4) : Tensor2 :=
  mkTensor2 (dim0 t) (dim1 t)
    (fun o i => fsum (flat_map (fun h => map (fun w => at4 t o i h w) (seq 0 (dim3 t)))
                               (seq 0 (dim2 t)))).

(** [m.reshape(-1)] of a matrix with one column *)
Definition reshape_column (m : Tensor2) : Tensor1 :=
  mkTensor1 (rows2 m) (fun o => at2 m o 0).

(** [torch.matmul(m, v)] *)
Definition matmul (m : Tensor2) (v : Tensor1) : result Tensor1 :=
  if cols2 m =? size1 v
  then Ok (mkTensor1 (rows2 m)
             (fun o => fsum (map (fun i => fmul (at2 m o i) (at1 v i)) (seq 0 (cols2 m)))))
  else Err TorchError.

Definition real1 (n : nat) (v : nat -> R) : Tensor1 := mkTensor1 n (fun i => Fin (v i)).

Definition real4 (d0 d1 d2 d3 : nat) (W : nat -> nat -> nat -> nat -> R) : Tensor4 :=
  mkTensor4 d0 d1 d2 d3 (fun a b c d => Fin (W a b c d)).

(** ** Modules and the traced graph *)

Inductive module_class :=
  | Conv2d | Conv1d | ReLU | LeakyReLU | PReLU | Identity | ConvBnTrain | OtherModule.

Definition module_class_eqb (a b : module_class) : bool :=
  match a, b with
  | Conv2d, Conv2d | Conv1d, Conv1d | ReLU, ReLU | LeakyReLU, LeakyReLU
  | PReLU, PReLU | Identity, Identity | ConvBnTrain, ConvBnTrain
  | OtherModule, OtherModule => true
  | _, _ => false
  end.

(** A module object as the graph and the groups refer to it: its identity
    [mod_key] (the name under which a [Model] holds its parameters), its class
    and the attributes no function of the source assigns.  [hasattr_bias] is
    [hasattr(module, 'bias')]. *)
Record Module := mkModule {
  mod_key : string;
  mod_class : module_class;
  groups : nat;
  in_channels : nat;
  out_channels : nat;
  hasattr_bias : bool
}.

Definition isinstance (m : Module) (types : list module_class) : bool :=
  existsb (module_class_eqb (mod_class m)) types.

Definition cls_support_type : list module_class := [Conv2d; Conv1d].
Definition cls_scalable_type : list module_class := [ReLU; LeakyReLU; PReLU; Identity].

Definition is_dw_conv (layer : Module) : bool :=
  if isinstance layer cls_support_type
     && (groups layer =? in_channels layer)
     && (groups layer =? out_channels layer)
  then true else false.

Definition is_normal_conv (layer : Module) : bool :=
  isinstance layer cls_support_type && (groups layer =? 1).

Definition Group := list (string * Module).

Definition is_group_supported (current_group : Group) : bool :=
  let current_group_ := map snd current_group in
  match current_group_ with
  | [m0; m1] => isinstance m0 cls_support_type && is_normal_conv m1
  | [m0; m1; m2] => is_normal_conv m0 && is_dw_conv m1 && is_normal_conv m2
  | _ => false
  end.

(** Equality of the tuples [(unique_name, module)]: names by value, modules
    by identity. *)
Definition layer_eqb (a b : string * Module) : bool :=
  String.eqb (fst a) (fst b) && String.eqb (mod_key (snd a)) (mod_key (snd b)).

Fixpoint group_eqb (g h : Group) : bool :=
  match g, h with
  | [], [] => true
  | a :: g', b :: h' => layer_eqb a b && group_eqb g' h'
  | _, _ => false
  end.

(** [current_group in layer_groups] *)
Definition group_in (g : Group) (layer_groups : list Group) : bool :=
  existsb (group_eqb g) layer_groups.

(** [[current_group[-1]]]; the source evaluates it on supported groups only,
    which are not empty. *)
Definition last_layer (g : Group) : Group :=
  match rev g with
  | x :: _ => [x]
  | [] => []
  end.

(** A node with the nodes it feeds.  The graph is acyclic, so it unfolds to a
    finite tree; a node reached along several paths occurs once per path, and
    [unique_name] is the identity the visited list records. *)
Inductive TraceNode := mkTraceNode {
  unique_name : string;
  module : Module;
  next_nodes : list TraceNode
}.

Record TraceGraph := mkTraceGraph { forward_nodes : list TraceNode }.

(** [node in visited_nodes] *)
Definition name_in (n : string) (visited_nodes : list string) : bool :=
  existsb (String.eqb n) visited_nodes.

(** The accumulator [current_group] is passed by value: the source appends to
    the caller's list, but every caller rebinds its variable to a fresh list
    before it reads it again, and a list is never changed once it is in
    [layer_groups]. *)
Fixpoint graph_traverse (node : TraceNode) (layer_groups : list Group)
    (current_group : Group) (visited_nodes : list string) {struct node}
  : list Group * list string :=
  if name_in (unique_name node) visited_nodes then (layer_groups, visited_nodes)
  else
    let '(layer_groups, current_group) :=
      if is_group_supported current_group && negb (group_in current_group layer_groups)
      then (layer_groups ++ [current_group], last_layer current_group)
      else (layer_groups, current_group) in
    let visited_nodes := visited_nodes ++ [unique_name node] in
    let current_group :=
      if isinstance (module node) cls_support_type
      then current_group ++ [(unique_name node, module node)]
      else current_group in
    let '(layer_groups, current_group) :=
      if (1 <? List.length (next_nodes node))
         || negb (isinstance (module node) (cls_scalable_type ++ cls_support_type))
      then ((if is_group_supported current_group
                && negb (group_in current_group layer_groups)
             then layer_groups ++ [current_group] else layer_groups), [])
      else (layer_groups, current_group) in
    (fix for_next (ns : list TraceNode) (layer_groups : list Group)
         (current_group : Group) (visited_nodes : list string) {struct ns} :=
       match ns with
       | [] => (layer_groups, visited_nodes)
       | n :: ns' =>
           let '(layer_groups, visited_nodes) :=
             graph_traverse n layer_groups current_group visited_nodes in
           for_next ns' layer_groups [] visited_nodes
       end) (next_nodes node) layer_groups current_group visited_nodes.

Definition get_cls_set (cur_graph : TraceGraph) : list Group :=
  fst (fold_left
         (fun '(layer_groups, visited_nodes) node =>
            graph_traverse node layer_groups [] visited_nodes)
         (forward_nodes cur_graph) ([], [])).

(** ** Equalization *)

(** torch raises when the two ranges cannot be broadcast against each other or
    a scaled tensor cannot be copied back into its source; for the tensors of
    Conv modules that is whenever the channel counts below disagree. *)
Definition equalize (weight1 : Tensor4) (bias1 : option Tensor1) (weight2 : Tensor4)
  : result (Tensor4 * Tensor1 * Tensor4 * Tensor1) :=
  let w2_p := permute_1023 weight2 in
  if negb (reducible_123 weight1 && reducible_123 w2_p && (dim0 weight1 =? dim0 w2_p))
  then Err TorchError
  else
    let r1 := abs_amax_123 weight1 in
    let r2 := abs_amax_123 w2_p in
    let s := map2_1 fdiv r1 (map_1 fsqrt (map2_1 fmul r1 r2)) in
    let weight1' := scale_dim0 fdiv weight1 s in
    let weight2' := permute_1023 (scale_dim0 fmul w2_p s) in
    match bias1 with
    | None => Err AttributeError
    | Some bias1 =>
        if negb (size1 bias1 =? size1 s) then Err TorchError
        else Ok (weight1', map2_1 fdiv bias1 s, weight2', s)
    end.

Definition pow_third (t : Tensor1) : Tensor1 := map_1 (fun x => fpow x (1 / 3)) t.

(** [r1 / pow(r1 * r2 * r3, 1.0 / 3)] *)
Definition cdc_s1 (r1 r2 r3 : Tensor1) : Tensor1 :=
  map2_1 fdiv r1 (pow_third (map2_1 fmul (map2_1 fmul r1 r2) r3)).

(** [pow(r1 * r3 * r2, 1.0 / 3) / r3] *)
Definition cdc_s2 (r1 r2 r3 : Tensor1) : Tensor1 :=
  map2_1 fdiv (pow_third (map2_1 fmul (map2_1 fmul r1 r3) r2)) r3.

Definition equalize_cdc (weight1 : Tensor4) (bias1 : option Tensor1) (weight2 : Tensor4)
    (bias2 : option Tensor1) (weight3 : Tensor4) (threshold : R)
  : result (Tensor4 * Tensor1 * Tensor4 * Tensor1 * Tensor4 * (Tensor1 * Tensor1)) :=
  let w3_p := permute_1023 weight3 in
  if negb (reducible_123 weight1 && reducible_123 weight2 && reducible_123 w3_p
           && (dim0 weight1 =? dim0 weight2) && (dim0 weight2 =? dim0 w3_p))
  then Err TorchError
  else
    let r1 := abs_amax_123 weight1 in
    let r2 := abs_amax_123 weight2 in
    let r3 := abs_amax_123 w3_p in
    let s1 := cdc_s1 r1 r2 r3 in
    let s2 := cdc_s2 r1 r2 r3 in
    let s1 := where_gt (map2_1 fdiv s1 s2) threshold (ones (size1 s1)) s1 in
    let s2 := where_gt (map2_1 fdiv s1 s2) threshold (ones (size1 s2)) s2 in
    let weight1' := scale_dim0 fmul weight1 (map_1 (fdiv (Fin 1)) s1) in
    let weight2' := scale_dim0 fdiv (scale_dim0 fmul weight2 s1) s2 in
    let weight3' := permute_1023 (scale_dim0 fmul w3_p s2) in
    match bias1, bias2 with
    | None, _ | _, None => Err AttributeError
    | Some bias1, Some bias2 =>
        if negb ((size1 bias1 =? size1 s1) && (size1 bias2 =? size1 s2))
        then Err TorchError
        else Ok (weight1', map2_1 fmul bias1 (map_1 (fdiv (Fin 1)) s1),
                 weight2', map2_1 fmul bias2 (map_1 (fdiv (Fin 1)) s2),
                 weight3', (s1, s2))
    end.

(** ** Models *)

Record BatchNorm := mkBatchNorm { bn_weight : Tensor1; bn_bias : Tensor1 }.

Record Conv := mkConv {
  weight : Tensor4;
  bias : option Tensor1;
  fused_bn_ : option BatchNorm
}.

(** The module objects a model holds.  [OtherObj] is any other module, a
    Conv1d among them: its tensors are not modelled. *)
Inductive LayerObj :=
  | Conv2dObj (conv : Conv)
  | ConvBnTrainObj (conv : Conv) (bn : BatchNorm)
  | OtherObj.

Definition Model := string -> option LayerObj.

Definition getattr (model : Model) (name : string) : result LayerObj :=
  match model name with
  | Some obj => Ok obj
  | None => Err AttributeError
  end.

Definition setattr (model : Model) (name : string) (obj : LayerObj) : Model :=
  fun k => if String.eqb k name then Some obj else model k.

Definition bn_scale (conv : Conv) (scale : Tensor1) : Conv :=
  match fused_bn_ conv with
  | Some bn =>
      mkConv (weight conv) (bias conv)
        (Some (mkBatchNorm (map2_1 fmul (bn_weight bn) scale)
                           (map2_1 fmul (bn_bias bn) scale)))
  | None => conv
  end.

(** The parameters of a module of a group.  On a Conv1d the first tensor
    operation of [equalize] or [equalize_cdc] raises, its weight having rank 3. *)
Definition conv_of (model : Model) (m : Module) : result Conv :=
  match model (mod_key m) with
  | Some (Conv2dObj conv) => Ok conv
  | Some _ => Err TorchError
  | None => Err AttributeError
  end.

Definition reciprocal (s : Tensor1) : Tensor1 := map_1 (fdiv (Fin 1)) s.

Definition _weight_equal_helper (cls : Group) (threshold : R) (model : Model)
  : result Model :=
  let layer_pair := map snd cls in
  match layer_pair with
  | [conv_0; conv_1; conv_2] =>
      if negb (is_normal_conv conv_0 && is_dw_conv conv_1 && is_normal_conv conv_2)
      then Err AssertionError
      else
        c0 <- conv_of model conv_0 ;;
        c1 <- conv_of model conv_1 ;;
        c2 <- conv_of model conv_2 ;;
        '(weight1, bias1, weight2, bias2, weight3, (s1, s2)) <-
          equalize_cdc (weight c0) (bias c0) (weight c1) (bias c1) (weight c2) threshold ;;
        let model := setattr model (mod_key conv_0)
          (Conv2dObj (bn_scale (mkConv weight1 (Some bias1) (fused_bn_ c0)) (reciprocal s1))) in
        let model := setattr model (mod_key conv_1)
          (Conv2dObj (bn_scale (mkConv weight2 (Some bias2) (fused_bn_ c1)) (reciprocal s2))) in
        let model := setattr model (mod_key conv_2)
          (Conv2dObj (mkConv weight3 (bias c2) (fused_bn_ c2))) in
        Ok model
  | [conv_0; conv_1] =>
      c0 <- conv_of model conv_0 ;;
      c1 <- conv_of model conv_1 ;;
      '(weight1, bias1, weight2, s) <- equalize (weight c0) (bias c0) (weight c1) ;;
      let model := setattr model (mod_key conv_0)
        (Conv2dObj (bn_scale (mkConv weight1 (Some bias1) (fused_bn_ c0)) (reciprocal s))) in
      let model := setattr model (mod_key conv_1)
        (Conv2dObj (mkConv weight2 (bias c1) (fused_bn_ c1))) in
      Ok model
  | _ => Ok model
  end.

(** ** Bias absorption *)

Definition class_of (obj : LayerObj) : module_class :=
  match obj with
  | Conv2dObj _ => Conv2d
  | ConvBnTrainObj _ _ => ConvBnTrain
  | OtherObj => OtherModule
  end.

Definition isinstance_obj (obj : LayerObj) (cls : module_class) : bool :=
  module_class_eqb (class_of obj) cls.

(** [hasattr(obj, 'fused_bn_')]: the attribute is attached to Conv2d modules only. *)
Definition fused_bn_of (obj : LayerObj) : option BatchNorm :=
  match obj with
  | Conv2dObj conv => fused_bn_ conv
  | _ => None
  end.

(** What lines 237-247 leave in the locals [pre_bn] and [cur_conv]. *)
Inductive bn_binding :=
  | Bound (pre_bn : BatchNorm) (cur_conv : Conv)
  | Returned
  | Unbound.

Definition bind_pre_bn (pre_layer cur_layer : LayerObj) : bn_binding :=
  if isinstance_obj pre_layer ConvBnTrain && isinstance_obj cur_layer ConvBnTrain then
    match pre_layer, cur_layer with
    | ConvBnTrainObj _ bn, ConvBnTrainObj conv _ => Bound bn conv
    | _, _ => Unbound
    end
  else if isinstance_obj pre_layer Conv2d && isinstance_obj pre_layer Conv2d then
    match fused_bn_of pre_layer, fused_bn_of cur_layer, cur_layer with
    | Some bn, Some _, Conv2dObj conv => Bound bn conv
    | _, _, _ => Returned
    end
  else Unbound.

(** [obj.bias.data] *)
Definition bias_data (obj : LayerObj) : result Tensor1 :=
  match obj with
  | Conv2dObj conv =>
      match bias conv with
      | Some b => Ok b
      | None => Err AttributeError
      end
  | _ => Err AttributeError
  end.

(** [getattr(model, name).bias.data = b] *)
Definition set_bias_data (model : Model) (name : string) (b : Tensor1) : result Model :=
  match model name with
  | Some (Conv2dObj conv) =>
      match bias conv with
      | Some _ => Ok (setattr model name (Conv2dObj (mkConv (weight conv) (Some b) (fused_bn_ conv))))
      | None => Err AttributeError
      end
  | _ => Err AttributeError
  end.

(** [c = pre_bn.bias - 3 * abs(pre_bn.weight)], negative entries set to zero *)
Definition absorbable (pre_bn : BatchNorm) : result Tensor1 :=
  c <- broadcast1 fsub (bn_bias pre_bn)
         (map_1 (fun w => fmul (Fin 3) (fabs w)) (bn_weight pre_bn)) ;;
  Ok (map_1 (fun x => if flt x (Fin 0) then Fin 0 else x) c).

Definition bias_correction (cur_conv : Conv) (c : Tensor1) : result Tensor1 :=
  let cur_weight := weight cur_conv in
  let reduced_weight := sum_23 cur_weight in
  if cols2 reduced_weight =? 1
  then broadcast1 fmul (reshape_column reduced_weight) c
  else matmul reduced_weight c.

Definition bias_absorb_helper_ (layer1 layer2 : string * Module)
    (model origin_model : Model) : result Model :=
  if negb (hasattr_bias (snd layer1)) || negb (hasattr_bias (snd layer2))
  then Ok origin_model
  else
    pre_layer <- getattr model (fst layer1) ;;
    cur_layer <- getattr model (fst layer2) ;;
    match bind_pre_bn pre_layer cur_layer with
    | Returned => Ok origin_model
    | Unbound => Err UnboundLocalError
    | Bound pre_bn cur_conv =>
        c <- absorbable pre_bn ;;
        bias_correct <- bias_correction cur_conv c ;;
        cur_bias <- match bias cur_conv with
                    | Some b => broadcast1 fadd b bias_correct
                    | None => Err TypeError
                    end ;;
        origin_pre_conv <- getattr origin_model (fst layer1) ;;
        origin_cur_conv <- getattr origin_model (fst layer2) ;;
        pre_bias <- bias_data origin_pre_conv ;;
        new_pre_bias <- broadcast1 fsub pre_bias c ;;
        origin_model <- set_bias_data origin_model (fst layer1) new_pre_bias ;;
        set_bias_data origin_model (fst layer2) cur_bias
    end.

Definition bias_absorb_group (model : Model) (layer_group : Group) (origin_model : Model)
  : result Model :=
  match layer_group with
  | [l0; l1; l2] =>
      origin_model <- bias_absorb_helper_ l0 l1 model origin_model ;;
      bias_absorb_helper_ l1 l2 model origin_model
  | [l0; l1] => bias_absorb_helper_ l0 l1 model origin_model
  | _ => Ok origin_model
  end.

Fixpoint bias_absorb_ (model : Model) (layers_groups : list Group) (origin_model : Model)
  : result Model :=
  match layers_groups with
  | [] => Ok origin_model
  | layer_group :: rest =>
      origin_model <- bias_absorb_group model layer_group origin_model ;;
      bias_absorb_ model rest origin_model
  end.

(** [origin_model] is a deep copy of [cle_model]. *)
Definition high_bias_absorb (cle_model : Model) (layer_groups : list Group) : result Model :=
  bias_absorb_ cle_model layer_groups cle_model.

Definition clear_fused_bn (conv : Conv) : Conv := mkConv (weight conv) (bias conv) None.

Definition clear_model_fused_bn (model : Model) : Model :=
  fun k =>
    match model k with
    | Some (Conv2dObj conv) => Some (Conv2dObj (clear_fused_bn conv))
    | Some (ConvBnTrainObj conv bn) => Some (ConvBnTrainObj (clear_fused_bn conv) bn)
    | other => other
    end.

(** ** The driver *)

Section Driver.
(** The collaborators of the driver: the rewriter, the batch-norm fuser and
    the tracer, the latter at the fixed [dummy_input]. *)
Variable model_rewrite : Model -> Model.
Variable model_fuse_bn : Model -> Model.
Variable trace : Model -> TraceGraph.

Fixpoint equalize_groups (layer_groups : list Group) (threshold : R) (model : Model)
  : result Model :=
  match layer_groups with
  | [] => Ok model
  | cls :: rest =>
      model <- _weight_equal_helper cls threshold model ;;
      equalize_groups rest threshold model
  end.

Definition _cross_layer_equalize (model : Model) (threshold : R)
  : result (list Group * Model) :=
  let cur_graph := trace model in
  let layer_groups := get_cls_set cur_graph in
  model <- equalize_groups layer_groups threshold model ;;
  Ok (layer_groups, model).

(** The loop [for i in range(cle_iters)]; [layers_groups] is [None] while
    the local variable is unbound. *)
Fixpoint cle_loop (cle_iters : nat) (threshold : R)
    (layers_groups : option (list Group)) (model : Model)
  : result (option (list Group) * Model) :=
  match cle_iters with
  | O => Ok (layers_groups, model)
  | S n =>
      '(layers_groups, model) <- _cross_layer_equalize model threshold ;;
      cle_loop n threshold (Some layers_groups) model
  end.

Definition cross_layer_equalize (model : Model) (threshold : R) (cle_iters : nat)
    (hba_flag : bool) : result Model :=
  let model := model_rewrite model in
  let model := model_fuse_bn model in
  '(layers_groups, model) <- cle_loop cle_iters threshold None model ;;
  model <- (if hba_flag
            then match layers_groups with
                 | Some layers_groups => high_bias_absorb model layers_groups
                 | None => Err UnboundLocalError
                 end
            else Ok model) ;;
  Ok (clear_model_fused_bn model).
End Driver.

(** ** The function two layers compute

    The convolution and the activations are torch's, not the repository's:
    these definitions follow their documented semantics at one output
    element.  [taps i h w] is the input value the kernel entry [(i, h, w)]
    reads for that element, zero where it falls into the padding, so that
    stride, padding, dilation and groups are left to the caller. *)

Inductive activation :=
  | Act_ReLU
  | Act_LeakyReLU (negative_slope : R)
  | Act_PReLU (slope : nat -> R)
  | Act_Identity.

Definition relu (x : fp) : fp :=
  match x with
  | Fin r => Fin (Rmax 0 r)
  | PInf => PInf
  | NInf => Fin 0
  | NaN => NaN
  end.

Definition leaky (slope : R) (x : fp) : fp :=
  match x with
  | Fin r => if Rle_dec 0 r then Fin r else Fin (slope * r)
  | PInf => PInf
  | NInf => fmul (Fin slope) NInf
  | NaN => NaN
  end.

Definition apply_activation (a : activation) (channel : nat) (x : fp) : fp :=
  match a with
  | Act_ReLU => relu x
  | Act_LeakyReLU slope => leaky slope x
  | Act_PReLU slope => leaky (slope channel) x
  | Act_Identity => x
  end.

Definition conv2d_at (weight : Tensor4) (bias : Tensor1)
    (taps : nat -> nat -> nat -> fp) (o : nat) : fp :=
  fadd (fsum (map (fun '(i, h, w) => fmul (at4 weight o i h w) (taps i h w))
                  (index3 (dim1 weight) (dim2 weight) (dim3 weight))))
       (at1 bias o).

(** [conv2(activation(conv1(x)))] at output channel [o] of one output
    position.  [site h w] is the position of conv1's output that the kernel
    entry [(_, h, w)] of conv2 reads, [None] in the padding; [x q c] are the
    taps of conv1 for its output channel [c] at position [q]. *)
Definition two_layer (a : activation) (weight1 : Tensor4) (bias1 : Tensor1)
    (weight2 : Tensor4) (bias2 : Tensor1)
    (x : nat -> nat -> nat -> nat -> nat -> fp)
    (site : nat -> nat -> option nat) (o : nat) : fp :=
  conv2d_at weight2 bias2
    (fun c h w =>
       match site h w with
       | None => Fin 0
       | Some q => apply_activation a c (conv2d_at weight1 bias1 (x q c) c)
       end) o.

(** ** Vocabulary of the statements *)

Definition names (g : Group) : list string := map fst g.

(** Two groups share at most the layer that ends the first and starts the
    second. *)
Definition shares_only_boundary (g h : Group) : Prop :=
  forall n, In n (names g) -> In n (names h) ->
            names (last_layer g) = [n] /\ names (firstn 1 h) = [n].

Definition adj_pairs {A} (l : list A) : list (A * A) := combine l (tl l).

(** Some group holds [a] immediately followed by [b]. *)
Definition pair_covered (layer_groups : list Group) (a b : string) : Prop :=
  exists g, In g layer_groups /\ In (a, b) (adj_pairs (names g)).

Abbreviation Layer := (string * Module)%type.

(** A sequence of nodes each of which feeds the next one, the last one
    feeding the nodes [k]; the result is the list holding the first node. *)
Fixpoint chain_then (l : list Layer) (k : list TraceNode) : list TraceNode :=
  match l with
  | [] => k
  | x :: r => [mkTraceNode (fst x) (snd x) (chain_then r k)]
  end.

(** The graph of a purely sequential model. *)
Definition chain (l : list Layer) : list TraceNode := chain_then l [].

Fixpoint chain_nodes (l : list Layer) : list TraceNode :=
  match l with
  | [] => []
  | x :: r => chain (x :: r) ++ chain_nodes r
  end.

Definition sequential_graph (l : list Layer) : TraceGraph :=
  mkTraceGraph (chain_nodes l).

(** A graph whose first forward node starts the sequence [nodes]; the last
    node of the sequence feeds [rest], and [others] are the forward nodes
    after the first. *)
Definition graph_with_run (nodes : list Layer) (rest others : list TraceNode) : TraceGraph :=
  mkTraceGraph (chain_then nodes rest ++ others).

(** A run of convolutions after its first one: a normal convolution, or a
    depthwise one followed by a normal one, each with the activations that
    follow it. *)
Inductive run_step :=
  | StepConv (c : Layer) (acts : list Layer)
  | StepDwConv (d : Layer) (acts1 : list Layer) (c : Layer) (acts2 : list Layer).

Definition step_nodes (st : run_step) : list Layer :=
  match st with
  | StepConv c acts => c :: acts
  | StepDwConv d acts1 c acts2 => d :: acts1 ++ c :: acts2
  end.

Definition step_convs (st : run_step) : list Layer :=
  match st with
  | StepConv c _ => [c]
  | StepDwConv d _ c _ => [d; c]
  end.

Definition run_nodes (c0 : Layer) (acts0 : list Layer) (steps : list run_step) : list Layer :=
  c0 :: acts0 ++ flat_map step_nodes steps.

Definition run_convs (c0 : Layer) (steps : list run_step) : list Layer :=
  c0 :: flat_map step_convs steps.

Definition scalable_acts (acts : list Layer) : Prop :=
  Forall (fun a => isinstance (snd a) cls_scalable_type = true) acts.

(** The run is made of the shapes [is_group_supported] accepts; [h] is the
    convolution before the steps. *)
Fixpoint supported_run (h : Layer) (steps : list run_step) : Prop :=
  match steps with
  | [] => True
  | StepConv c acts :: r =>
      is_normal_conv (snd c) = true /\ scalable_acts acts /\ supported_run c r
  | StepDwConv d acts1 c acts2 :: r =>
      is_normal_conv (snd h) = true
      /\ is_dw_conv (snd d) = true /\ is_normal_conv (snd d) = false
      /\ is_normal_conv (snd c) = true
      /\ scalable_acts acts1 /\ scalable_acts acts2 /\ supported_run c r
  end.

Fixpoint expected_groups (h : Layer) (steps : list run_step) : list Group :=
  match steps with
  | [] => []
  | StepConv c _ :: r => [h; c] :: expected_groups c r
  | StepDwConv d _ c _ :: r => [h; d; c] :: expected_groups c r
  end.

Definition out_channel_unchanged (t t' : Tensor4) (c : nat) : Prop :=
  forall i h k, at4 t' c i h k = at4 t c i h k.

Definition in_channel_unchanged (t t' : Tensor4) (c : nat) : Prop :=
  forall o h k, at4 t' o c h k = at4 t o c h k.



(** Output channel [c] of [W], resp. input channel [c], has a non-zero entry. *)
Definition has_nonzero_out (I KH KW : nat) (W : nat -> nat -> nat -> nat -> R) (c : nat) : Prop :=
  exists i h k, (i < I)%nat /\ (h < KH)%nat /\ (k < KW)%nat /\ W c i h k <> 0%R.

Definition has_nonzero_in (O KH KW : nat) (W : nat -> nat -> nat -> nat -> R) (c : nat) : Prop :=
  exists o h k, (o < O)%nat /\ (h < KH)%nat /\ (k < KW)%nat /\ W o c h k <> 0%R.

(** ** Definitions used by the proofs *)

(** The loop over [node.next_nodes] of [graph_traverse]. *)
Fixpoint for_next_nodes (ns : list TraceNode) (layer_groups : list Group)
    (current_group : Group) (visited_nodes : list string)
  : list Group * list string :=
  match ns with
  | [] => (layer_groups, visited_nodes)
  | n :: ns' =>
      let '(layer_groups, visited_nodes) :=
        graph_traverse n layer_groups current_group visited_nodes in
      for_next_nodes ns' layer_groups [] visited_nodes
  end.

(** The three steps of [graph_traverse] on a node that was not visited. *)
Definition on_entry (layer_groups : list Group) (current_group : Group)
  : list Group * Group :=
  if is_group_supported current_group && negb (group_in current_group layer_groups)
  then (layer_groups ++ [current_group], last_layer current_group)
  else (layer_groups, current_group).

Definition on_append (node : TraceNode) (current_group : Group) : Group :=
  if isinstance (module node) cls_support_type
  then current_group ++ [(unique_name node, module node)]
  else current_group.

Definition on_break (node : TraceNode) (layer_groups : list Group)
    (current_group : Group) : list Group * Group :=
  if (1 <? List.length (next_nodes node))
     || negb (isinstance (module node) (cls_scalable_type ++ cls_support_type))
  then ((if is_group_supported current_group
            && negb (group_in current_group layer_groups)
         then layer_groups ++ [current_group] else layer_groups), [])
  else (layer_groups, current_group).

Definition traverse_inv (lg : list Group) (cg : Group) (vis : list string) : Prop :=
  ForallOrdPairs shares_only_boundary lg
  /\ Forall (fun g => shares_only_boundary g cg) lg
  /\ Forall (fun g => incl (names g) vis) lg
  /\ incl (names cg) vis.

Definition traverse_post (lg : list Group) (vis : list string) : Prop :=
  ForallOrdPairs shares_only_boundary lg
  /\ Forall (fun g => incl (names g) vis) lg.

(** The groups a traversal adds hold only layers of the accumulator it
    starts from and layers it is the first to visit. *)
Definition adds_fresh (lg : list Group) (cg : Group) (vis : list string)
    (r : list Group * list string) : Prop :=
  incl vis (snd r)
  /\ exists added,
       fst r = lg ++ added
       /\ forall g n, In g added -> In n (names g) -> In n (names cg) \/ ~ In n vis.

Definition entry (s : list Group * Group) : list Group * Group :=
  on_entry (fst s) (snd s).

(** One node of a sequential graph, on the pair of the recorded groups and
    the accumulator. *)
Definition chain_step (s : list Group * Group) (x : Layer) : list Group * Group :=
  let '(lg1, cg1) := entry s in
  let cg2 := if isinstance (snd x) cls_support_type then cg1 ++ [x] else cg1 in
  if negb (isinstance (snd x) (cls_scalable_type ++ cls_support_type))
  then ((if is_group_supported cg2 && negb (group_in cg2 lg1)
         then lg1 ++ [cg2] else lg1), [])
  else (lg1, cg2).

Definition Rmaxl (l : list R) : R :=
  match l with
  | [] => 0%R
  | x :: r => fold_left Rmax r x
  end.

Definition Rsum (l : list R) : R := fold_left Rplus l 0%R.

(** What absorption moves out of channel [ch] of the producer. *)
Definition absorbed (BNW BNB : nat -> R) (ch : nat) : R :=
  Rmax 0 (BNB ch - 3 * Rabs (BNW ch)).

(** The kernel of one (output, input) channel pair summed over its positions. *)
Definition kernel_sum (KH KW : nat) (W : nat -> nat -> R) : R :=
  Rsum (flat_map (fun h => map (fun w => W h w) (seq 0 KW)) (seq 0 KH)).

(** The correction of the consumer's bias: [reduced_weight[o] * c[o]] for a
    depthwise consumer, the product of the reduced weight matrix with [c] for
    a normal one. *)
Definition correction (O I KH KW C : nat) (W : nat -> nat -> nat -> nat -> R)
    (c : nat -> R) (o : nat) : R :=
  if (I =? 1) && (O =? C)
  then (kernel_sum KH KW (W o 0%nat) * c o)%R
  else Rsum (map (fun i => (kernel_sum KH KW (W o i) * c i)%R) (seq 0 I)).

(** The range of one channel of a real tensor. *)
Definition range_123 (d1 d2 d3 : nat) (W : nat -> nat -> nat -> R) : R :=
  Rmaxl (map (fun '(i, h, w) => Rabs (W i h w)) (index3 d1 d2 d3)).

(** The two [torch.where] of [equalize_cdc] on one channel. *)
Definition clamp_s1 (threshold : R) (s1 s2 : fp) : fp :=
  if fgt (fdiv s1 s2) (Fin threshold) then Fin 1 else s1.

Definition clamp_s2 (threshold : R) (s1 s2 : fp) : fp :=
  if fgt (fdiv (clamp_s1 threshold s1 s2) s2) (Fin threshold) then Fin 1 else s2.

Definition leaky_real (slope r : R) : R := if Rle_dec 0 r then r else (slope * r)%R.

Definition activation_real (a : activation) (channel : nat) (r : R) : R :=
  match a with
  | Act_ReLU => Rmax 0 r
  | Act_LeakyReLU slope => leaky_real slope r
  | Act_PReLU slope => leaky_real (slope channel) r
  | Act_Identity => r
  end.

Section TraceNode_induction.
Variable P : TraceNode -> Prop.
Hypothesis Hnode : forall n m ns, Forall P ns -> P (mkTraceNode n m ns).

Fixpoint TraceNode_nested_ind (t : TraceNode) : P t :=
  match t with
  | mkTraceNode n m ns =>
      Hnode n m ns
        ((fix all (l : list TraceNode) : Forall P l :=
            match l with
            | [] => Forall_nil P
            | x :: r => Forall_cons x (TraceNode_nested_ind x) (all r)
            end) ns)
  end.
End TraceNode_induction.

(** ** Example data *)

Definition conv2d_module (key : string) (g i o : nat) : Module :=
  mkModule key Conv2d g i o true.
Definition relu_module (key : string) : Module := mkModule key ReLU 0 0 0 false.
Definition output_module (key : string) : Module := mkModule key OtherModule 0 0 0 false.

Definition ex_conv1 : Layer := ("conv1"%string, conv2d_module "conv1" 1 3 8).
Definition ex_relu1 : Layer := ("relu1"%string, relu_module "relu1").
Definition ex_conv2 : Layer := ("conv2"%string, conv2d_module "conv2" 1 8 8).
Definition ex_conv3 : Layer := ("conv3"%string, conv2d_module "conv3" 1 8 8).
Definition ex_dw : Layer := ("dw"%string, conv2d_module "dw" 8 8 8).
Definition ex_out : Layer := ("out"%string, output_module "out").

(** conv1 -> relu1 -> conv2 -> conv3 -> out, all convolutions normal *)
Definition three_conv_graph : TraceGraph :=
  sequential_graph [ex_conv1; ex_relu1; ex_conv2; ex_conv3; ex_out].

(** conv1 -> dw -> out: a normal convolution followed by a depthwise one *)
Definition conv_dw_graph : TraceGraph := sequential_graph [ex_conv1; ex_dw; ex_out].

(** Two 1x1 convolutions with one channel; the weight of the first is zero. *)
Definition degenerate_w1 : Tensor4 := real4 1 1 1 1 (fun _ _ _ _ => 0%R).
Definition degenerate_b1 : Tensor1 := real1 1 (fun _ => 1%R).
Definition degenerate_w2 : Tensor4 := real4 1 1 1 1 (fun _ _ _ _ => 1%R).
Definition degenerate_b2 : Tensor1 := real1 1 (fun _ => 0%R).

(** A conv - depthwise conv - conv group with one channel whose first weight
    is an outlier. *)
Definition outlier_w1 : Tensor4 := real4 1 1 1 1 (fun _ _ _ _ => 8000000000%R).
Definition outlier_b1 : Tensor1 := real1 1 (fun _ => 1%R).
Definition outlier_w2 : Tensor4 := real4 1 1 1 1 (fun _ _ _ _ => 1%R).
Definition outlier_b2 : Tensor1 := real1 1 (fun _ => 1%R).
Definition outlier_w3 : Tensor4 := real4 1 1 1 1 (fun _ _ _ _ => 1%R).

(** A model of three 1x1 convolutions with one channel each; the first two
    carry the batch-norm fused into them. *)
Definition ex_bn : BatchNorm := mkBatchNorm (real1 1 (fun _ => 1%R)) (real1 1 (fun _ => 5%R)).
Definition ex_pre : Conv :=
  mkConv (real4 1 1 1 1 (fun _ _ _ _ => 2%R)) (Some (real1 1 (fun _ => 1%R))) (Some ex_bn).
Definition ex_cur : Conv :=
  mkConv (real4 1 1 1 1 (fun _ _ _ _ => 3%R)) (Some (real1 1 (fun _ => 1%R))) (Some ex_bn).
Definition ex_last : Conv :=
  mkConv (real4 1 1 1 1 (fun _ _ _ _ => 1%R)) (Some (real1 1 (fun _ => 0%R))) None.

Definition ex_model : Model :=
  setattr (setattr (setattr (fun _ => None) "conv1" (Conv2dObj ex_pre))
                   "conv2" (Conv2dObj ex_cur))
          "conv3" (Conv2dObj ex_last).

(** A layer that exposes no bias, and a one-dimensional convolution. *)
Definition ex_pool : Layer := ("pool"%string, mkModule "pool" OtherModule 0 0 0 false).
Definition ex_conv1d : Layer := ("conv1d"%string, mkModule "conv1d" Conv1d 1 3 8 true).

Definition ex_model_1d : Model := setattr ex_model "conv1d" OtherObj.

(** A balanced group: every range is 2. *)
Definition balanced_w : nat -> nat -> nat -> nat -> R := fun _ _ _ _ => 2%R.
Definition balanced_b : nat -> R := fun _ => 1%R.
(** ** The debug entry point of the absorption *)

(** The batch-norm attached to a module as [fused_bn_], on the convolution
    inside a ConvBnTrain as well: [clear_model_fused_bn] walks all modules. *)
Definition attached_bn (obj : LayerObj) : option BatchNorm :=
  match obj with
  | Conv2dObj conv | ConvBnTrainObj conv _ => fused_bn_ conv
  | OtherObj => None
  end.

Definition weight_of (obj : LayerObj) : option Tensor4 :=
  match obj with
  | Conv2dObj conv | ConvBnTrainObj conv _ => Some (weight conv)
  | OtherObj => None
  end.

Section Debug_API.
(** The collaborators: [model_restore_bn] of [tinynn.util.bn_restore] and
    torch's [named_modules]; [CaliFunc] stands for a calibration function
    together with its arguments. *)
Variable CaliFunc : Type.
Variable model_restore_bn : Model -> CaliFunc -> list string -> Model.
Variable named_modules : Model -> list (string * LayerObj).

(** [origin_model] is a deep copy of [cle_model]. *)
Definition __high_bias_absorb (cle_model : Model) (layer_groups : list Group)
    (use_origin_bn : bool) (cali_func : option CaliFunc)
    (layers_fused_bn : option (list string)) : result Model :=
  let origin_model := cle_model in
  origin_model <-
    (if use_origin_bn then bias_absorb_ cle_model layer_groups origin_model
     else
       match cali_func with
       | None => Ok origin_model
       | Some cali_func =>
           let layers_fused_bn :=
             match layers_fused_bn with
             | None =>
                 map fst (filter (fun '(name, m) => isinstance_obj m Conv2d)
                                 (named_modules cle_model))
             | Some l => l
             end in
           let cle_bn_model := model_restore_bn cle_model cali_func layers_fused_bn in
           bias_absorb_ cle_bn_model layer_groups origin_model
       end) ;;
  Ok (clear_model_fused_bn origin_model).
End Debug_API.

(** ** The function three layers compute *)

(** [conv3(activation2(conv2(activation1(conv1(x)))))] at output channel [o]
    of one output position, for a depthwise conv2, whose output channel [c]
    reads channel [c] of its input only.  [site3 h w] is the position of
    conv2's output that the kernel entry [(_, h, w)] of conv3 reads, and
    [site2 p h w] the position of conv1's output that the kernel entry
    [(h, w)] of conv2 reads for its output position [p], [None] in the
    padding; [x q c] are the taps of conv1 for its output channel [c] at
    position [q]. *)
Definition three_layer (a1 a2 : activation)
    (weight1 : Tensor4) (bias1 : Tensor1) (weight2 : Tensor4) (bias2 : Tensor1)
    (weight3 : Tensor4) (bias3 : Tensor1)
    (x : nat -> nat -> nat -> nat -> nat -> fp)
    (site2 : nat -> nat -> nat -> option nat) (site3 : nat -> nat -> option nat)
    (o : nat) : fp :=
  conv2d_at weight3 bias3
    (fun c h w =>
       match site3 h w with
       | None => Fin 0
       | Some p =>
           apply_activation a2 c
             (conv2d_at weight2 bias2
                (fun _ h' w' =>
                   match site2 p h' w' with
                   | None => Fin 0
                   | Some q => apply_activation a1 c (conv2d_at weight1 bias1 (x q c) c)
                   end) c)
       end) o.

(** [conv2(activation(conv1(x)))] at output channel [o] of one output
    position, for a depthwise conv2: [site h w] is the position of conv1's
    output that its kernel entry [(h, w)] reads. *)
Definition two_layer_depthwise (a : activation) (weight1 : Tensor4) (bias1 : Tensor1)
    (weight2 : Tensor4) (bias2 : Tensor1)
    (x : nat -> nat -> nat -> nat -> nat -> fp)
    (site : nat -> nat -> option nat) (o : nat) : fp :=
  conv2d_at weight2 bias2
    (fun _ h w =>
       match site h w with
       | None => Fin 0
       | Some q => apply_activation a o (conv2d_at weight1 bias1 (x q o) o)
       end) o.

(** ** Vocabulary of the further statements *)

(** The nodes of the unfolded graph below a node, the node first. *)
Fixpoint subnodes (node : TraceNode) : list TraceNode :=
  node :: (fix all (ns : list TraceNode) : list TraceNode :=
             match ns with
             | [] => []
             | n :: r => subnodes n ++ all r
             end) (next_nodes node).

Definition graph_nodes (G : TraceGraph) : list TraceNode :=
  flat_map subnodes (forward_nodes G).

(** The tuple [graph_traverse] appends for a node. *)
Definition layer_of (node : TraceNode) : Layer := (unique_name node, module node).

(** [reach G x n]: the node [n] is fed by the node of the layer [x] through
    scale-preserving activations only, and every node on the way, the node of
    [x] included, feeds exactly one node. *)
Inductive reach (G : TraceGraph) (x : Layer) : TraceNode -> Prop :=
  | reach_conv node n :
      In node (graph_nodes G) -> layer_of node = x -> next_nodes node = [n] ->
      reach G x n
  | reach_act m n :
      reach G x m -> isinstance (module m) cls_scalable_type = true ->
      next_nodes m = [n] ->
      reach G x n.

Definition linked (G : TraceGraph) (x y : Layer) : Prop :=
  exists n, reach G x n /\ layer_of n = y.

(** The third root of the product of three ranges. *)
Definition geometric_mean3 (r1 r2 r3 : R) : R := Rpower (r1 * r2 * r3) (1 / 3).

(** Channel [c] has a non-zero entry in each of the three weights. *)
Definition nonzero_channels3 (I KH KW I2 KH2 KW2 O KH3 KW3 : nat)
    (W1 W2 W3 : nat -> nat -> nat -> nat -> R) (c : nat) : Prop :=
  has_nonzero_out I KH KW W1 c /\ has_nonzero_out I2 KH2 KW2 W2 c
  /\ has_nonzero_in O KH3 KW3 W3 c.

(** Two module objects that differ at most in the bias of a Conv2d. *)
Definition same_but_bias (a b : option LayerObj) : Prop :=
  match a, b with
  | Some (Conv2dObj c), Some (Conv2dObj c') =>
      weight c' = weight c /\ fused_bn_ c' = fused_bn_ c
  | _, _ => b = a
  end.

(** ** Definitions used by the further proofs *)

(** The whole subgraph of a node lies in the graph. *)
Definition within (G : TraceGraph) (node : TraceNode) : Prop :=
  incl (subnodes node) (graph_nodes G).

Definition recorded_once (lg : list Group) : Prop :=
  ForallOrdPairs (fun g h => group_eqb h g = false) lg.

Definition of_graph (G : TraceGraph) (x : Layer) : Prop :=
  exists node, In node (graph_nodes G) /\ layer_of node = x.

Definition pairs_linked (G : TraceGraph) (g : Group) : Prop :=
  forall x y, In (x, y) (adj_pairs g) -> linked G x y.

(** The accumulator with which a node is entered. *)
Definition pending_linked (G : TraceGraph) (cg : Group) (node : TraceNode) : Prop :=
  pairs_linked G cg /\ forall x, last_layer cg = [x] -> reach G x node.

Definition group_keys (g : Group) : list string := map (fun l => mod_key (snd l)) g.

Definition class_at (model : Model) (k : string) : option module_class :=
  option_map class_of (model k).

(** [model'] differs from [model] at the keys [keys] only, and holds modules
    of the same classes. *)
Definition changed_only_at (keys : list string) (model model' : Model) : Prop :=
  forall k, (~ In k keys -> model' k = model k) /\ class_at model' k = class_at model k.

(** [model'] differs from [model] in biases of Conv2d modules named in
    [keys] only. *)
Definition biases_changed_at (keys : list string) (model model' : Model) : Prop :=
  forall k, same_but_bias (model k) (model' k) /\ (~ In k keys -> model' k = model k).

(** A Conv2d that carries no fused batch-norm. *)
Definition plain_conv (model : Model) (l : Layer) : Prop :=
  exists conv, model (fst l) = Some (Conv2dObj conv) /\ fused_bn_ conv = None.

(** Runs the first call of a chain of binds, naming its result [c]; an error
    of the call closes the goal by the lemma [L] on the errors of the call. *)
Tactic Notation "run_call" ident(c) ident(E) constr(L) :=
  lazymatch goal with
  | |- bind ?r _ = _ -> _ => destruct r as [c|] eqn:E; cbn [bind]
  | |- bind ?r _ <> _ => destruct r as [c|] eqn:E; cbn [bind]
  end;
  [|let H := fresh in
    intros H; inversion H; subst; first [exact (L _ E)|exact (L _ E eq_refl)]].

(** ** Further example data *)

(** conv1 -> relu1 -> conv2: the graph ends with a convolution. *)
Definition open_graph : TraceGraph := sequential_graph [ex_conv1; ex_relu1; ex_conv2].

(** Ranges 8 and 2 on the two sides of a channel. *)
Definition wide_w : nat -> nat -> nat -> nat -> R := fun _ _ _ _ => 8%R.

(** The model after its fused batch-norms are removed. *)
Definition ex_plain_model : Model := clear_model_fused_bn ex_model.

(** A first convolution without a bias. *)
Definition ex_no_bias : Conv := mkConv (real4 1 1 1 1 (fun _ _ _ _ => 2%R)) None None.

Definition ex_model_no_bias : Model := setattr ex_model "conv1" (Conv2dObj ex_no_bias).

(** A batch-norm whose bias does not exceed three times its weight. *)
Definition ex_bn_small : BatchNorm :=
  mkBatchNorm (real1 1 (fun _ => 1%R)) (real1 1 (fun _ => 2%R)).

Definition ex_pre_small : Conv :=
  mkConv (real4 1 1 1 1 (fun _ _ _ _ => 2%R)) (Some (real1 1 (fun _ => 1%R)))
         (Some ex_bn_small).

Definition ex_model_small : Model := setattr ex_model "conv1" (Conv2dObj ex_pre_small).

(** ** Vocabulary of the statements on calls, co-scaling and rounding *)

(** The node of the first convolution of a run whose last node feeds [rest]. *)
Definition run_head (c0 : Layer) (acts0 : list Layer) (steps : list run_step)
    (rest : list TraceNode) : TraceNode :=
  mkTraceNode (fst c0) (snd c0) (chain_then (acts0 ++ flat_map step_nodes steps) rest).

(** [calls G node layer_groups current_group visited_nodes]: discovery on [G]
    calls [graph_traverse] with these arguments, on a forward node (line 95)
    or on a node fed by a node it has entered (line 87). *)
Inductive calls (G : TraceGraph)
  : TraceNode -> list Group -> Group -> list string -> Prop :=
  | calls_forward pre node post lg vis :
      forward_nodes G = pre ++ node :: post ->
      fold_left (fun '(layer_groups, visited_nodes) n =>
                   graph_traverse n layer_groups [] visited_nodes) pre ([], [])
      = (lg, vis) ->
      calls G node lg [] vis
  | calls_next parent lg cg vis pre node post lg1 cg1 lg2 cg3 lg3 vis3 :
      calls G parent lg cg vis ->
      name_in (unique_name parent) vis = false ->
      next_nodes parent = pre ++ node :: post ->
      on_entry lg cg = (lg1, cg1) ->
      on_break parent lg1 (on_append parent cg1) = (lg2, cg3) ->
      for_next_nodes pre lg2 cg3 (vis ++ [unique_name parent]) = (lg3, vis3) ->
      calls G node lg3 (match pre with [] => cg3 | _ => [] end) vis3.

(** The last group of a run gets recorded: the run ends with an activation,
    or its last node feeds several nodes, or it feeds one node that has not
    been visited. *)
Definition run_closed (nodes : list Layer) (rest : list TraceNode) (vis : list string)
  : Prop :=
  (exists l a, nodes = l ++ [a] /\ isinstance (snd a) cls_support_type = false)
  \/ (1 < List.length rest)%nat
  \/ (exists t, rest = [t] /\ ~ In (unique_name t) (vis ++ map fst nodes)).

(** The batch-norm [bn'] is [bn] with its weight and its bias multiplied by
    [1 / s] on every channel. *)
Definition bn_scaled_by (s : Tensor1) (bn bn' : BatchNorm) : Prop :=
  forall ch,
    at1 (bn_weight bn') ch = fmul (at1 (bn_weight bn) ch) (fdiv (Fin 1) (at1 s ch))
    /\ at1 (bn_bias bn') ch = fmul (at1 (bn_bias bn) ch) (fdiv (Fin 1) (at1 s ch)).

(** The fused batch-norm of a layer before and after [bn_scale(conv, 1 / s)]:
    scaled when the layer carries one, still absent when it carries none. *)
Definition bn_co_scaled (s : Tensor1) (before after : option BatchNorm) : Prop :=
  match before, after with
  | Some bn, Some bn' => bn_scaled_by s bn bn'
  | None, None => True
  | _, _ => False
  end.

Local Open Scope R_scope.

(** ** Binary64 arithmetic

    The ranges and the scales of [equalize] and [equalize_cdc] are doubles
    ([.double()], lines 103-104 and 117-119).  The definitions above compute
    them with exact reals; these compute them as binary64 does, every
    operation rounded to the nearest double. *)






Section Rounded_scales.
(** [rnd] rounds the result of an operation and [pow_third x] is
    [pow(x, 1.0 / 3)]. *)
Variable rnd : fp -> fp.
Variable pow_third : fp -> fp.

(** Lines 102-105 of [equalize]: the scale it returns. *)
Definition equalize_scale_with (weight1 weight2 : Tensor4) : Tensor1 :=
  let w2_p := permute_1023 weight2 in
  let r1 := abs_amax_123 weight1 in
  let r2 := abs_amax_123 w2_p in
  map2_1 (fun x y => rnd (fdiv x y)) r1
    (map_1 (fun x => rnd (fsqrt x)) (map2_1 (fun x y => rnd (fmul x y)) r1 r2)).

(** Lines 116-125 of [equalize_cdc]: the scales it returns. *)
Definition cdc_scales_with (weight1 weight2 weight3 : Tensor4) (threshold : R)
  : Tensor1 * Tensor1 :=
  let w3_p := permute_1023 weight3 in
  let r1 := abs_amax_123 weight1 in
  let r2 := abs_amax_123 weight2 in
  let r3 := abs_amax_123 w3_p in
  let mul := map2_1 (fun x y => rnd (fmul x y)) in
  let div := map2_1 (fun x y => rnd (fdiv x y)) in
  let pow := map_1 pow_third in
  let s1 := div r1 (pow (mul (mul r1 r2) r3)) in
  let s2 := div (pow (mul (mul r1 r3) r2)) r3 in
  let s1 := where_gt (div s1 s2) threshold (ones (size1 s1)) s1 in
  let s2 := where_gt (div s1 s2) threshold (ones (size1 s2)) s2 in
  (s1, s2).
End Rounded_scales.






Local Close Scope R_scope.

(** ** Example data of these statements *)

Definition ex_out2 : Layer := ("out2"%string, output_module "out2").

(** pool -> conv1 -> relu1 -> conv2 -> out: the run does not start the graph. *)
Definition run_after_pool_graph : TraceGraph :=
  sequential_graph [ex_pool; ex_conv1; ex_relu1; ex_conv2; ex_out].

(** conv1 -> conv2 -> (out, out2): the last convolution feeds two nodes. *)
Definition fan_out_graph : TraceGraph :=
  graph_with_run [ex_conv1; ex_conv2] (chain [ex_out] ++ chain [ex_out2]) [].

(** conv1 -> conv2 -> relu1: the graph ends with the activation. *)
Definition run_then_relu_graph : TraceGraph :=
  sequential_graph [ex_conv1; ex_conv2; ex_relu1].

(** dw -> dw2 -> conv2 -> conv3 -> out: two normal convolutions after two
    depthwise ones. *)
Definition ex_dw2 : Layer := ("dw2"%string, conv2d_module "dw2" 8 8 8).

Definition pending_graph : TraceGraph :=
  sequential_graph [ex_dw; ex_dw2; ex_conv2; ex_conv3; ex_out].

(** A conv - depthwise conv - conv group with one channel each, of which only
    the depthwise convolution carries a fused batch-norm. *)
Definition ex_cdc_first : Layer := ("first"%string, conv2d_module "first" 1 1 1).
Definition ex_cdc_depth : Layer := ("depth"%string, conv2d_module "depth" 1 1 1).
Definition ex_cdc_last : Layer := ("last"%string, conv2d_module "last" 1 1 1).
Definition ex_cdc_model : Model :=
  setattr (setattr (setattr (fun _ => None) "first" (Conv2dObj ex_last))
                   "depth" (Conv2dObj ex_cur))
          "last" (Conv2dObj ex_last).




(** * Properties *)

(** ** Layer-group discovery *)

Lemma graph_traverse_eq node lg cg vis :
  graph_traverse node lg cg vis =
  if name_in (unique_name node) vis then (lg, vis)
  else
    let '(lg1, cg1) := on_entry lg cg in
    let '(lg2, cg3) := on_break node lg1 (on_append node cg1) in
    for_next_nodes (next_nodes node) lg2 cg3 (vis ++ [unique_name node]).
Proof.
  destruct node as [n m ns]; cbn [graph_traverse unique_name module next_nodes].
  destruct (name_in n vis); [reflexivity|].
  unfold on_entry, on_break, on_append; cbn [unique_name module next_nodes].
  destruct (is_group_supported cg && negb (group_in cg lg));
    match goal with |- context [if ?b then (_, []) else _] => destruct b end;
    reflexivity.
Qed.

Lemma ForallOrdPairs_snoc {A} (R : A -> A -> Prop) l x :
  ForallOrdPairs R l -> Forall (fun y => R y x) l -> ForallOrdPairs R (l ++ [x]).
Proof.
  induction 1 as [|a l Ha Hl IH]; intros HF; cbn.
  - constructor; constructor.
  - inversion HF; subst. constructor; [|auto].
    apply Forall_app; split; [assumption|]. constructor; auto.
Qed.

Lemma name_in_spec n vis : name_in n vis = true <-> In n vis.
Proof.
  unfold name_in. rewrite existsb_exists. split.
  - intros [x [Hx He]]. apply String.eqb_eq in He. now subst.
  - intros H. exists n. split; [assumption|apply String.eqb_refl].
Qed.

Lemma last_layer_in (g : Group) n :
  In n (names (last_layer g)) -> names (last_layer g) = [n].
Proof.
  unfold last_layer. destruct (rev g); cbn; [tauto|]. intros [H|[]]. now subst.
Qed.

Lemma traverse_post_inv lg vis : traverse_post lg vis -> traverse_inv lg [] vis.
Proof.
  intros [H1 H2]. repeat split; auto.
  - apply Forall_forall. intros g _ n _ [].
  - intros n [].
Qed.

Lemma traverse_inv_post lg cg vis : traverse_inv lg cg vis -> traverse_post lg vis.
Proof. intros (H1 & _ & H3 & _). split; assumption. Qed.

Lemma traverse_inv_record lg cg vis :
  traverse_inv lg cg vis -> traverse_post (lg ++ [cg]) vis.
Proof.
  intros (H1 & H2 & H3 & H4). split.
  - now apply ForallOrdPairs_snoc.
  - apply Forall_app. split; [assumption|]. now constructor.
Qed.

Lemma on_entry_inv lg cg vis lg1 cg1 :
  traverse_inv lg cg vis -> on_entry lg cg = (lg1, cg1) -> traverse_inv lg1 cg1 vis.
Proof.
  intros Hinv. unfold on_entry.
  destruct (is_group_supported cg && negb (group_in cg lg));
    intros E; inversion E; subst; clear E; [|assumption].
  destruct (traverse_inv_record _ _ _ Hinv) as [P1 P2].
  destruct Hinv as (H1 & H2 & H3 & H4).
  repeat split; auto.
  - apply Forall_app. split.
    + apply Forall_forall. intros g Hg n Hn Hl.
      rewrite Forall_forall in H2.
      assert (Hc : In n (names cg)).
      { unfold last_layer in Hl. destruct (rev cg) as [|x r] eqn:Er; [destruct Hl|].
        destruct Hl as [Hl|[]]. subst n.
        apply in_map. apply in_rev. rewrite Er. now left. }
      destruct (H2 g Hg n Hn Hc) as [Ha _]. split; [assumption|].
      apply last_layer_in in Hl.
      destruct (last_layer cg) as [|y [|? ?]]; cbn in *; congruence.
    + constructor; [|constructor]. intros n _ Hl.
      apply last_layer_in in Hl. split; [assumption|].
      destruct (last_layer cg) as [|y [|? ?]]; cbn in *; congruence.
  - intros n Hn. apply H4. unfold last_layer in Hn.
    destruct (rev cg) as [|x r] eqn:Er; [destruct Hn|].
    destruct Hn as [Hn|[]]. subst n. apply in_map. apply in_rev. rewrite Er. now left.
Qed.

Lemma on_append_inv node lg cg vis :
  traverse_inv lg cg vis -> ~ In (unique_name node) vis ->
  traverse_inv lg (on_append node cg) (vis ++ [unique_name node]).
Proof.
  intros (H1 & H2 & H3 & H4) Hfresh.
  assert (H3' : Forall (fun g => incl (names g) (vis ++ [unique_name node])) lg).
  { eapply Forall_impl; [|exact H3]. intros g Hg. now apply incl_appl. }
  unfold on_append. destruct (isinstance (module node) cls_support_type).
  - repeat split; auto.
    + rewrite Forall_forall in *. intros g Hg n Hn Hc.
      unfold names in Hc. rewrite map_app in Hc. apply in_app_or in Hc.
      destruct Hc as [Hc|[Hc|[]]].
      * destruct (H2 g Hg n Hn Hc) as [Ha Hb]. split; [assumption|].
        destruct cg; [destruct Hc|]. exact Hb.
      * cbn in Hc. subst n. exfalso. apply Hfresh. now apply (H3 g Hg).
    + unfold names. rewrite map_app. apply incl_app.
      * now apply incl_appl.
      * apply incl_appr. apply incl_refl.
  - repeat split; auto. now apply incl_appl.
Qed.

Lemma on_break_inv node lg cg vis lg2 cg3 :
  traverse_inv lg cg vis -> on_break node lg cg = (lg2, cg3) ->
  traverse_inv lg2 cg3 vis.
Proof.
  intros Hinv. unfold on_break.
  destruct (_ || _); intros E; inversion E; subst; clear E; [|assumption].
  apply traverse_post_inv.
  destruct (_ && _).
  - now apply traverse_inv_record.
  - now apply traverse_inv_post with cg.
Qed.

Lemma graph_traverse_inv node :
  forall lg cg vis, traverse_inv lg cg vis ->
  traverse_post (fst (graph_traverse node lg cg vis)) (snd (graph_traverse node lg cg vis))
  /\ incl vis (snd (graph_traverse node lg cg vis)).
Proof.
  induction node as [n m ns IH] using TraceNode_nested_ind.
  intros lg cg vis Hinv. rewrite graph_traverse_eq. cbn [unique_name next_nodes].
  destruct (name_in n vis) eqn:Hv.
  - cbn. split; [now apply traverse_inv_post with cg|apply incl_refl].
  - assert (Hfresh : ~ In n vis).
    { intros Hin. apply name_in_spec in Hin. congruence. }
    destruct (on_entry lg cg) as [lg1 cg1] eqn:E1.
    pose proof (on_entry_inv _ _ _ _ _ Hinv E1) as Hinv1.
    pose proof (on_append_inv (mkTraceNode n m ns) _ _ _ Hinv1 Hfresh) as Hinv2.
    destruct (on_break _ lg1 _) as [lg2 cg3] eqn:E2.
    pose proof (on_break_inv _ _ _ _ _ _ Hinv2 E2) as Hinv3.
    cbn [unique_name] in Hinv3.
    assert (Hsub : incl vis (vis ++ [n])) by (apply incl_appl, incl_refl).
    revert Hinv3 Hsub. generalize (vis ++ [n]) as vis1. generalize lg2 cg3.
    clear -IH. induction IH as [|x xs Hx Hxs IHxs]; intros lg2 cg3 vis1 Hinv3 Hsub.
    + cbn. split; [now apply traverse_inv_post with cg3|assumption].
    + cbn [for_next_nodes].
      destruct (Hx lg2 cg3 vis1 Hinv3) as [Hp Hi].
      destruct (graph_traverse x lg2 cg3 vis1) as [lg' vis']. cbn in Hp, Hi.
      apply IHxs.
      * now apply traverse_post_inv.
      * eapply incl_tran; eassumption.
Qed.

Lemma get_cls_set_post fwd lg vis :
  traverse_post lg vis ->
  ForallOrdPairs shares_only_boundary
    (fst (fold_left (fun '(layer_groups, visited_nodes) node =>
                       graph_traverse node layer_groups [] visited_nodes)
                    fwd (lg, vis))).
Proof.
  revert lg vis. induction fwd as [|x r IH]; intros lg vis Hp; cbn.
  - apply Hp.
  - destruct (graph_traverse_inv x lg [] vis (traverse_post_inv _ _ Hp)) as [Hq _].
    destruct (graph_traverse x lg [] vis). now apply IH.
Qed.

Lemma entry_idem s : entry (entry s) = entry s.
Proof.
  unfold entry, on_entry. destruct s as [lg cg]. cbn [fst snd].
  destruct (is_group_supported cg && negb (group_in cg lg)) eqn:E; cbn [fst snd].
  - unfold last_layer. destruct (rev cg) as [|x r]; reflexivity.
  - now rewrite E.
Qed.

Lemma chain_step_entry s x : chain_step (entry s) x = chain_step s x.
Proof. unfold chain_step. now rewrite entry_idem. Qed.

Lemma scalable_not_support m :
  isinstance m cls_scalable_type = true ->
  isinstance m cls_support_type = false
  /\ isinstance m (cls_scalable_type ++ cls_support_type) = true.
Proof. unfold isinstance. destruct (mod_class m); cbn; intuition congruence. Qed.

Lemma support_in_union m :
  isinstance m cls_support_type = true ->
  isinstance m (cls_scalable_type ++ cls_support_type) = true.
Proof. unfold isinstance. destruct (mod_class m); cbn; intuition congruence. Qed.

Lemma not_union_not_support m :
  isinstance m (cls_scalable_type ++ cls_support_type) = false ->
  isinstance m cls_support_type = false.
Proof. unfold isinstance. destruct (mod_class m); cbn; intuition congruence. Qed.

Lemma normal_is_support m : is_normal_conv m = true -> isinstance m cls_support_type = true.
Proof. unfold is_normal_conv. intros H. now apply andb_true_iff in H. Qed.

Lemma name_in_fresh n vis : ~ In n vis -> name_in n vis = false.
Proof.
  intros H. destruct (name_in n vis) eqn:E; [|reflexivity].
  apply name_in_spec in E. contradiction.
Qed.

Lemma for_next_nodes_single n lg cg vis :
  for_next_nodes [n] lg cg vis = graph_traverse n lg cg vis.
Proof. cbn. now destruct (graph_traverse n lg cg vis). Qed.

Lemma last_layer_incl (g : Group) : incl (names (last_layer g)) (names g).
Proof.
  intros n Hn. unfold last_layer in Hn.
  destruct (rev g) as [|x r] eqn:Er; [destruct Hn|].
  destruct Hn as [Hn|[]]. subst n. apply in_map. apply in_rev. rewrite Er. now left.
Qed.

Lemma adds_fresh_step lg cg vis lg1 cg1 vis1 added1 r :
  lg1 = lg ++ added1 ->
  (forall g n, In g added1 -> In n (names g) -> In n (names cg) \/ ~ In n vis) ->
  (forall n, In n (names cg1) -> In n (names cg) \/ ~ In n vis) ->
  incl vis vis1 ->
  adds_fresh lg1 cg1 vis1 r ->
  adds_fresh lg cg vis r.
Proof.
  intros E H1 Hcg Hvis [Hincl [added [Er Hadd]]]. split.
  - eapply incl_tran; eassumption.
  - exists (added1 ++ added). split.
    + rewrite Er, E. now rewrite app_assoc.
    + intros g n Hg Hn. apply in_app_or in Hg. destruct Hg as [Hg|Hg].
      * now apply (H1 g).
      * destruct (Hadd g n Hg Hn) as [Hc|Hv].
        -- now apply Hcg.
        -- right. intros Hin. apply Hv. now apply Hvis.
Qed.

Lemma for_next_nodes_adds ns :
  Forall (fun node => forall lg cg vis, adds_fresh lg cg vis (graph_traverse node lg cg vis)) ns ->
  forall lg cg vis, adds_fresh lg cg vis (for_next_nodes ns lg cg vis).
Proof.
  induction 1 as [|x xs Hx Hxs IH]; intros lg cg vis.
  - cbn. split; [apply incl_refl|]. exists []. split; [now rewrite app_nil_r|].
    intros g n [].
  - cbn [for_next_nodes]. specialize (Hx lg cg vis).
    destruct (graph_traverse x lg cg vis) as [lg' vis'].
    destruct Hx as [Hincl [added [E Hadd]]]. cbn [fst snd] in *.
    apply (adds_fresh_step lg cg vis lg' [] vis' added); try assumption.
    + intros n [].
    + apply IH.
Qed.

Lemma on_entry_adds lg cg lg1 cg1 :
  on_entry lg cg = (lg1, cg1) ->
  exists add, lg1 = lg ++ add
              /\ (forall g, In g add -> incl (names g) (names cg))
              /\ incl (names cg1) (names cg).
Proof.
  unfold on_entry. destruct (_ && _); intros E; inversion E; subst.
  - exists [cg]. split; [reflexivity|]. split; [|apply last_layer_incl].
    intros g [Hg|[]]. subst g. apply incl_refl.
  - exists []. split; [now rewrite app_nil_r|]. split; [intros g []|apply incl_refl].
Qed.

Lemma on_break_adds node lg cg lg2 cg3 :
  on_break node lg cg = (lg2, cg3) ->
  exists add, lg2 = lg ++ add
              /\ (forall g, In g add -> incl (names g) (names cg))
              /\ incl (names cg3) (names cg).
Proof.
  unfold on_break. destruct (_ || _); intros E; inversion E; subst.
  - destruct (_ && _).
    + exists [cg]. split; [reflexivity|]. split; [|intros n []].
      intros g [Hg|[]]. subst g. apply incl_refl.
    + exists []. split; [now rewrite app_nil_r|]. split; [intros g []|intros n []].
  - exists []. split; [now rewrite app_nil_r|]. split; [intros g []|apply incl_refl].
Qed.

Lemma on_append_names node cg :
  incl (names (on_append node cg)) (names cg ++ [unique_name node]).
Proof.
  unfold on_append. destruct (isinstance _ _).
  - unfold names. rewrite map_app. apply incl_refl.
  - apply incl_appl, incl_refl.
Qed.

Lemma graph_traverse_adds node :
  forall lg cg vis, adds_fresh lg cg vis (graph_traverse node lg cg vis).
Proof.
  induction node as [n m ns IH] using TraceNode_nested_ind.
  intros lg cg vis. rewrite graph_traverse_eq. cbn [unique_name next_nodes].
  destruct (name_in n vis) eqn:Hv.
  - split; [apply incl_refl|]. exists []. split; [now rewrite app_nil_r|]. intros g k [].
  - assert (Hfresh : ~ In n vis).
    { intros Hin. apply name_in_spec in Hin. congruence. }
    destruct (on_entry lg cg) as [lg1 cg1] eqn:E1.
    destruct (on_entry_adds _ _ _ _ E1) as (add1 & El1 & Hadd1 & Hcg1).
    destruct (on_break _ lg1 _) as [lg2 cg3] eqn:E2.
    destruct (on_break_adds _ _ _ _ _ E2) as (add2 & El2 & Hadd2 & Hcg3).
    pose proof (on_append_names (mkTraceNode n m ns) cg1) as Happ.
    cbn [unique_name] in Happ.
    assert (Hcg2 : forall k, In k (names (on_append (mkTraceNode n m ns) cg1)) ->
                             In k (names cg) \/ ~ In k vis).
    { intros k Hk. apply Happ in Hk. apply in_app_or in Hk.
      destruct Hk as [Hk|[Hk|[]]]; [left; now apply Hcg1|]. subst k. now right. }
    apply (adds_fresh_step lg cg vis lg2 cg3 (vis ++ [n]) (add1 ++ add2)).
    + rewrite El2, El1. now rewrite app_assoc.
    + intros g k Hg Hk. apply in_app_or in Hg. destruct Hg as [Hg|Hg].
      * left. now apply (Hadd1 g Hg).
      * apply Hcg2. now apply (Hadd2 g Hg).
    + intros k Hk. apply Hcg2. now apply Hcg3.
    + apply incl_appl, incl_refl.
    + now apply for_next_nodes_adds.
Qed.

Lemma fold_traverse_adds fwd : forall lg vis,
  adds_fresh lg [] vis
    (fold_left (fun '(layer_groups, visited_nodes) node =>
                  graph_traverse node layer_groups [] visited_nodes) fwd (lg, vis)).
Proof.
  induction fwd as [|x r IH]; intros lg vis.
  - cbn. split; [apply incl_refl|]. exists []. split; [now rewrite app_nil_r|].
    intros g n [].
  - cbn [fold_left]. pose proof (graph_traverse_adds x lg [] vis) as Hx.
    destruct (graph_traverse x lg [] vis) as [lg' vis'].
    destruct Hx as [Hincl [added [E Hadd]]]. cbn [fst snd] in *.
    apply (adds_fresh_step lg [] vis lg' [] vis' added); try assumption.
    + intros n [].
    + apply IH.
Qed.

Lemma chain_step_act s a :
  isinstance (snd a) cls_scalable_type = true -> chain_step s a = entry s.
Proof.
  intros H. destruct (scalable_not_support _ H) as [H1 H2].
  unfold chain_step. destruct (entry s). now rewrite H1, H2.
Qed.

Lemma chain_step_conv s c :
  isinstance (snd c) cls_support_type = true ->
  chain_step s c = (fst (entry s), snd (entry s) ++ [c]).
Proof.
  intros H. unfold chain_step. destruct (entry s).
  now rewrite H, (support_in_union _ H).
Qed.

Lemma fold_acts acts : forall s,
  scalable_acts acts -> entry (fold_left chain_step acts s) = entry s.
Proof.
  induction acts as [|a r IH]; intros s H; [reflexivity|].
  inversion H; subst. cbn [fold_left]. rewrite IH by assumption.
  rewrite chain_step_act by assumption. apply entry_idem.
Qed.

Lemma group_eqb_names g : forall h, group_eqb g h = true -> names g = names h.
Proof.
  induction g as [|a g IH]; intros [|b h]; cbn; try congruence.
  intros H. apply andb_true_iff in H. destruct H as [Hab Hgh].
  unfold layer_eqb in Hab. apply andb_true_iff in Hab. destruct Hab as [Hn _].
  apply String.eqb_eq in Hn. f_equal; auto.
Qed.

Lemma group_in_fresh (g : Group) lg n :
  In n (names g) -> (forall h, In h lg -> ~ In n (names h)) -> group_in g lg = false.
Proof.
  intros Hn Hfresh. unfold group_in.
  destruct (existsb (group_eqb g) lg) eqn:E; [|reflexivity].
  apply existsb_exists in E. destruct E as [h [Hh He]].
  apply group_eqb_names in He. exfalso. apply (Hfresh h Hh). now rewrite <- He.
Qed.

Lemma NoDup_app_disjoint {A} (l1 l2 : list A) n :
  NoDup (l1 ++ l2) -> In n l1 -> In n l2 -> False.
Proof.
  induction l1 as [|y ys IH]; cbn; intros Hnd H1 H2; [destruct H1|].
  inversion Hnd; subst. destruct H1 as [H1|H1].
  - subst. apply H3. apply in_or_app. now right.
  - now apply IH.
Qed.

Lemma last_cons_any {A} (l : list A) : forall a d : A, last (a :: l) d = last l a.
Proof.
  induction l as [|b l IH]; intros a d; [reflexivity|].
  change (last (a :: b :: l) d) with (last (b :: l) d). now rewrite !IH.
Qed.

Lemma last_app_cons {A} (l1 l2 : list A) (a d : A) : last (l1 ++ a :: l2) d = last l2 a.
Proof.
  induction l1 as [|b l1 IH]; cbn [app]; [apply last_cons_any|].
  destruct (l1 ++ a :: l2) eqn:E; [destruct l1; discriminate|].
  change (last (b :: a0 :: l) d) with (last (a0 :: l) d). exact IH.
Qed.

(** Going through the steps of a supported run records its groups and
    leaves its last convolution in the accumulator. *)
Lemma fold_steps_last steps : forall h lg s seen,
  entry s = (lg, [h]) ->
  supported_run h steps ->
  isinstance (snd h) cls_support_type = true ->
  (forall g, In g lg -> incl (names g) seen) ->
  In (fst h) seen ->
  (forall n, In n (map fst (flat_map step_nodes steps)) -> ~ In n seen) ->
  NoDup (map fst (flat_map step_nodes steps)) ->
  entry (fold_left chain_step (flat_map step_nodes steps) s)
  = (lg ++ expected_groups h steps, [last (flat_map step_convs steps) h]).
Proof.
  induction steps as [|st r IH]; intros h lg s seen Hs Hrun Hh Hlg Hhs Hfresh Hnd.
  - cbn. now rewrite app_nil_r.
  - cbn [flat_map] in *. rewrite fold_left_app. rewrite map_app in Hnd, Hfresh.
    destruct st as [c acts | d acts1 c acts2]; cbn [step_nodes step_convs supported_run expected_groups] in *.
    + destruct Hrun as (Hc & Hacts & Hrun).
      pose proof (normal_is_support _ Hc) as Hcs.
      cbn [fold_left]. rewrite chain_step_conv by assumption. rewrite Hs. cbn [fst snd app].
      assert (Hcfresh : ~ In (fst c) seen).
      { apply Hfresh. cbn. now left. }
      assert (He : entry (lg, [h; c]) = (lg ++ [[h; c]], [c])).
      { unfold entry, on_entry. cbn [fst snd].
        replace (is_group_supported [h; c]) with true
          by (unfold is_group_supported; cbn [map]; now rewrite Hh, Hc).
        rewrite (group_in_fresh [h; c] lg (fst c)); [reflexivity|cbn; auto|].
        intros g Hg Hin. apply Hcfresh. now apply (Hlg g Hg). }
      rewrite last_cons_any.
      rewrite (IH c (lg ++ [[h; c]]) (fold_left chain_step acts (lg, [h; c]))
                  (seen ++ map fst (c :: acts))).
      * now rewrite <- app_assoc.
      * rewrite fold_acts by assumption. exact He.
      * assumption.
      * assumption.
      * intros g Hg. apply in_app_or in Hg. destruct Hg as [Hg|[Hg|[]]].
        -- apply incl_appl. now apply Hlg.
        -- subst g. intros n [Hn|[Hn|[]]]; subst n; apply in_or_app;
             [now left|right; now left].
      * apply in_or_app. right. now left.
      * intros n Hn Hin. apply in_app_or in Hin. destruct Hin as [Hin|Hin].
        -- apply (Hfresh n); [apply in_or_app; now right|assumption].
        -- exact (NoDup_app_disjoint _ _ n Hnd Hin Hn).
      * now apply NoDup_app_remove_l in Hnd.
    + destruct Hrun as (Hhn & Hd & Hdn & Hc & Ha1 & Ha2 & Hrun).
      pose proof (normal_is_support _ Hc) as Hcs.
      assert (Hds : isinstance (snd d) cls_support_type = true).
      { unfold is_dw_conv in Hd.
        destruct (isinstance (snd d) cls_support_type); [reflexivity|discriminate]. }
      cbn [fold_left]. rewrite (chain_step_conv _ d Hds). rewrite Hs. cbn [fst snd app].
      rewrite fold_left_app. cbn [fold_left].
      assert (He1 : entry (lg, [h; d]) = (lg, [h; d])).
      { unfold entry, on_entry. cbn [fst snd].
        replace (is_group_supported [h; d]) with false; [reflexivity|].
        unfold is_group_supported; cbn [map]. now rewrite Hdn, andb_false_r. }
      rewrite <- (chain_step_entry (fold_left chain_step acts1 (lg, [h; d])) c).
      rewrite (fold_acts acts1) by assumption. rewrite He1.
      rewrite (chain_step_conv _ c Hcs). rewrite He1. cbn [fst snd app].
      assert (Hcfresh : ~ In (fst c) seen).
      { apply Hfresh. apply in_or_app. left. cbn. right.
        rewrite map_app. apply in_or_app. right. now left. }
      assert (He : entry (lg, [h; d; c]) = (lg ++ [[h; d; c]], [c])).
      { unfold entry, on_entry. cbn [fst snd].
        replace (is_group_supported [h; d; c]) with true
          by (unfold is_group_supported; cbn [map]; now rewrite Hhn, Hd, Hc).
        rewrite (group_in_fresh [h; d; c] lg (fst c)); [reflexivity|cbn; auto|].
        intros g Hg Hin. apply Hcfresh. now apply (Hlg g Hg). }
      change (d :: c :: flat_map step_convs r) with ([d] ++ c :: flat_map step_convs r).
      rewrite last_app_cons.
      rewrite (IH c (lg ++ [[h; d; c]]) (fold_left chain_step acts2 (lg, [h; d; c]))
                  (seen ++ map fst (d :: acts1 ++ c :: acts2))).
      * now rewrite <- app_assoc.
      * rewrite fold_acts by assumption. exact He.
      * assumption.
      * assumption.
      * intros g Hg. apply in_app_or in Hg. destruct Hg as [Hg|[Hg|[]]].
        -- apply incl_appl. now apply Hlg.
        -- subst g. intros n [Hn|[Hn|[Hn|[]]]]; subst n; apply in_or_app.
           ++ now left.
           ++ right. now left.
           ++ right. cbn. right. rewrite map_app. apply in_or_app. right. now left.
      * apply in_or_app. right. cbn. right. rewrite map_app. apply in_or_app.
        right. now left.
      * intros n Hn Hin. apply in_app_or in Hin. destruct Hin as [Hin|Hin].
        -- apply (Hfresh n); [apply in_or_app; now right|assumption].
        -- exact (NoDup_app_disjoint _ _ n Hnd Hin Hn).
      * now apply NoDup_app_remove_l in Hnd.
Qed.

Lemma fold_steps steps : forall h lg s seen,
  entry s = (lg, [h]) ->
  supported_run h steps ->
  isinstance (snd h) cls_support_type = true ->
  (forall g, In g lg -> incl (names g) seen) ->
  In (fst h) seen ->
  (forall n, In n (map fst (flat_map step_nodes steps)) -> ~ In n seen) ->
  NoDup (map fst (flat_map step_nodes steps)) ->
  exists c, entry (fold_left chain_step (flat_map step_nodes steps) s)
            = (lg ++ expected_groups h steps, [c]).
Proof.
  intros h lg s seen Hs Hrun Hh Hlg Hhs Hfresh Hnd.
  exists (last (flat_map step_convs steps) h).
  now apply (fold_steps_last steps h lg s seen).
Qed.

Lemma expected_groups_pairs steps : forall h,
  List.concat (map (@adj_pairs Layer) (expected_groups h steps))
  = adj_pairs (run_convs h steps).
Proof.
  induction steps as [|st r IH]; intros h; [reflexivity|].
  destruct st as [c acts | d a1 c a2]; cbn [expected_groups map List.concat].
  - rewrite IH. reflexivity.
  - rewrite IH. reflexivity.
Qed.

Lemma ForallOrdPairs_nth {A} (R : A -> A -> Prop) l :
  ForallOrdPairs R l ->
  forall i j x y, (i < j)%nat -> nth_error l i = Some x -> nth_error l j = Some y -> R x y.
Proof.
  induction 1 as [|a l Ha Hl IH]; intros i j x y Hij Hi Hj.
  - destruct i; discriminate.
  - destruct j as [|j]; [lia|]. cbn in Hj. destruct i as [|i]; cbn in Hi.
    + inversion Hi; subst. rewrite Forall_forall in Ha. apply Ha.
      now apply nth_error_In with j.
    + apply (IH i j); [lia|assumption|assumption].
Qed.

Lemma supported_group_size (g : Group) :
  is_group_supported g = true -> List.length g = 2%nat \/ List.length g = 3%nat.
Proof.
  unfold is_group_supported. destruct g as [|a [|b [|c [|d r]]]]; cbn; try discriminate; auto.
Qed.

Lemma on_entry_supported lg cg :
  Forall (fun g => is_group_supported g = true) lg ->
  Forall (fun g => is_group_supported g = true) (fst (on_entry lg cg)).
Proof.
  intros H. unfold on_entry.
  destruct (is_group_supported cg) eqn:E; cbn [andb]; [|exact H].
  destruct (negb (group_in cg lg)); cbn [fst]; [|exact H].
  apply Forall_app. split; [exact H|]. now constructor.
Qed.

Lemma on_break_supported node lg cg :
  Forall (fun g => is_group_supported g = true) lg ->
  Forall (fun g => is_group_supported g = true) (fst (on_break node lg cg)).
Proof.
  intros H. unfold on_break. destruct (_ || _); cbn [fst]; [|exact H].
  destruct (is_group_supported cg) eqn:E; cbn [andb]; [|exact H].
  destruct (negb (group_in cg lg)); [|exact H].
  apply Forall_app. split; [exact H|]. now constructor.
Qed.

Lemma graph_traverse_supported node :
  forall lg cg vis,
    Forall (fun g => is_group_supported g = true) lg ->
    Forall (fun g => is_group_supported g = true) (fst (graph_traverse node lg cg vis)).
Proof.
  induction node as [n m ns IH] using TraceNode_nested_ind.
  intros lg cg vis H. rewrite graph_traverse_eq. cbn [unique_name next_nodes].
  destruct (name_in n vis); [exact H|].
  pose proof (on_entry_supported lg cg H) as H1.
  destruct (on_entry lg cg) as [lg1 cg1]. cbn [fst] in H1.
  pose proof (on_break_supported (mkTraceNode n m ns) lg1
                (on_append (mkTraceNode n m ns) cg1) H1) as H2.
  destruct (on_break _ lg1 _) as [lg2 cg3]. cbn [fst] in H2.
  revert H2. generalize (vis ++ [n]) as vis1. generalize lg2 cg3.
  clear - IH. induction IH as [|x xs Hx Hxs IHxs]; intros lg2 cg3 vis1 H2.
  - exact H2.
  - cbn [for_next_nodes]. specialize (Hx lg2 cg3 vis1 H2).
    destruct (graph_traverse x lg2 cg3 vis1) as [lg' vis']. now apply IHxs.
Qed.

Lemma get_cls_set_supported (G : TraceGraph) :
  Forall (fun g => is_group_supported g = true) (get_cls_set G).
Proof.
  unfold get_cls_set.
  assert (H : forall fwd lg vis,
             Forall (fun g => is_group_supported g = true) lg ->
             Forall (fun g => is_group_supported g = true)
               (fst (fold_left (fun '(layer_groups, visited_nodes) node =>
                                  graph_traverse node layer_groups [] visited_nodes)
                               fwd (lg, vis)))).
  { induction fwd as [|x r IH]; intros lg vis H; [exact H|]. cbn [fold_left].
    pose proof (graph_traverse_supported x lg [] vis H) as Hx.
    destruct (graph_traverse x lg [] vis). now apply IH. }
  apply H. constructor.
Qed.

Lemma get_cls_set_sizes (G : TraceGraph) :
  Forall (fun g : Group => List.length g = 2%nat \/ List.length g = 3%nat) (get_cls_set G).
Proof.
  eapply Forall_impl; [|apply get_cls_set_supported].
  intros g. apply supported_group_size.
Qed.

Lemma filter_scalable_acts acts :
  scalable_acts acts -> filter (fun x : Layer => isinstance (snd x) cls_support_type) acts = [].
Proof.
  induction 1 as [|a r Ha Hr IH]; [reflexivity|]. cbn [filter].
  destruct (scalable_not_support _ Ha) as [E _]. now rewrite E.
Qed.

Lemma run_convs_filter steps : forall h,
  supported_run h steps ->
  flat_map step_convs steps
  = filter (fun x : Layer => isinstance (snd x) cls_support_type) (flat_map step_nodes steps).
Proof.
  induction steps as [|st r IH]; intros h Hrun; [reflexivity|].
  cbn [flat_map]. rewrite filter_app.
  destruct st as [c acts | d a1 c a2]; cbn [supported_run step_convs step_nodes] in *.
  - destruct Hrun as (Hc & Hacts & Hrun). cbn [filter].
    rewrite (normal_is_support _ Hc). rewrite (filter_scalable_acts _ Hacts).
    cbn [app]. f_equal. now apply IH with c.
  - destruct Hrun as (_ & Hd & _ & Hc & Ha1 & Ha2 & Hrun).
    assert (Hds : isinstance (snd d) cls_support_type = true).
    { unfold is_dw_conv in Hd.
      destruct (isinstance (snd d) cls_support_type); [reflexivity|discriminate]. }
    cbn [filter]. rewrite Hds. rewrite filter_app. cbn [filter].
    rewrite (normal_is_support _ Hc).
    rewrite (filter_scalable_acts _ Ha1), (filter_scalable_acts _ Ha2).
    cbn [app]. do 2 f_equal. now apply IH with c.
Qed.

Lemma NoDup_combine {A B} (l : list A) : forall (l' : list B),
  NoDup l -> NoDup (combine l l').
Proof.
  induction l as [|a l IH]; intros l' H; [constructor|].
  destruct l' as [|b l']; [constructor|]. inversion H; subst. cbn. constructor.
  - intros Hin. apply in_combine_l in Hin. contradiction.
  - now apply IH.
Qed.

(** C4 (as stated): two 2-element groups do share a layer.  On
    conv1 -> relu1 -> conv2 -> conv3 -> out discovery returns [conv1, conv2]
    and [conv2, conv3]. *)
Lemma two_element_groups_overlap :
  exists g h,
    get_cls_set three_conv_graph = [g; h]
    /\ List.length g = 2%nat /\ List.length h = 2%nat
    /\ In "conv2"%string (names g) /\ In "conv2"%string (names h).
Proof.
  exists [ex_conv1; ex_conv2], [ex_conv2; ex_conv3].
  split; [reflexivity|]. cbn. intuition.
Qed.

(** C4 (amended): on every acyclic graph, two groups that discovery returns
    share at most one layer, and then it is the last layer of the earlier
    group and the first layer of the later one; this holds for groups of two
    as for groups of three elements. *)
Theorem groups_share_only_carried_layer
    (G : TraceGraph) (i j : nat) (g h : Group) (n : string) :
  (i < j)%nat ->
  nth_error (get_cls_set G) i = Some g ->
  nth_error (get_cls_set G) j = Some h ->
  In n (names g) -> In n (names h) ->
  names (last_layer g) = [n] /\ names (firstn 1 h) = [n].
Proof.
  intros Hij Hi Hj Hg Hh.
  assert (Hfop : ForallOrdPairs shares_only_boundary (get_cls_set G)).
  { unfold get_cls_set. apply get_cls_set_post. split; constructor. }
  exact (ForallOrdPairs_nth _ _ Hfop i j g h Hij Hi Hj n Hg Hh).
Qed.

Lemma groups_share_only_carried_layer_witness :
  names (last_layer [ex_conv1; ex_conv2]) = ["conv2"%string]
  /\ names (firstn 1 [ex_conv2; ex_conv3]) = ["conv2"%string].
Proof.
  apply (groups_share_only_carried_layer three_conv_graph 0 1
           [ex_conv1; ex_conv2] [ex_conv2; ex_conv3] "conv2"%string).
  - lia.
  - reflexivity.
  - reflexivity.
  - cbn. auto.
  - cbn. auto.
Defined.

(** C3 (as stated): supported convolutions that follow each other and are
    covered by no group.  A normal convolution followed by a depthwise one
    and then by another layer: the accumulator [conv1, dw] has no supported
    shape.  Two normal convolutions separated by a ReLU, the second of which
    ends the graph: no further node is entered, so the accumulator is never
    recorded.  Two normal convolutions entered with the accumulator
    [dw, dw2], which has no supported shape and is not reset. *)
Lemma supported_pairs_not_covered :
  (isinstance (snd ex_conv1) cls_support_type = true
   /\ isinstance (snd ex_dw) cls_support_type = true
   /\ ~ pair_covered (get_cls_set conv_dw_graph) "conv1"%string "dw"%string)
  /\ (is_normal_conv (snd ex_conv1) = true
      /\ is_normal_conv (snd ex_conv2) = true
      /\ ~ pair_covered (get_cls_set open_graph) "conv1"%string "conv2"%string)
  /\ (is_normal_conv (snd ex_conv2) = true
      /\ is_normal_conv (snd ex_conv3) = true
      /\ ~ pair_covered (get_cls_set pending_graph) "conv2"%string "conv3"%string).
Proof.
  repeat split.
  - intros [g [Hg _]].
    change (get_cls_set conv_dw_graph) with (@nil Group) in Hg. destruct Hg.
  - intros [g [Hg _]].
    change (get_cls_set open_graph) with (@nil Group) in Hg. destruct Hg.
  - intros [g [Hg _]].
    change (get_cls_set pending_graph) with (@nil Group) in Hg. destruct Hg.
Qed.

(** *** Runs inside a graph *)

Lemma for_next_nodes_app pre : forall n post lg cg vis,
  for_next_nodes (pre ++ n :: post) lg cg vis
  = let '(lg3, vis3) := for_next_nodes pre lg cg vis in
    let '(lg4, vis4) := graph_traverse n lg3 (match pre with [] => cg | _ => [] end) vis3 in
    for_next_nodes post lg4 [] vis4.
Proof.
  induction pre as [|a pre IH]; intros n post lg cg vis; [reflexivity|].
  cbn [app for_next_nodes]. destruct (graph_traverse a lg cg vis) as [lg' vis'].
  rewrite IH. destruct (for_next_nodes pre lg' [] vis') as [lg3 vis3].
  now destruct pre.
Qed.

Lemma for_next_nodes_inv ns : forall lg cg vis,
  traverse_inv lg cg vis ->
  traverse_post (fst (for_next_nodes ns lg cg vis)) (snd (for_next_nodes ns lg cg vis)).
Proof.
  induction ns as [|x r IH]; intros lg cg vis Hinv.
  - cbn. now apply traverse_inv_post with cg.
  - cbn [for_next_nodes]. destruct (graph_traverse_inv x lg cg vis Hinv) as [Hp _].
    destruct (graph_traverse x lg cg vis) as [lg' vis']. cbn [fst snd] in Hp.
    apply IH. now apply traverse_post_inv.
Qed.

Lemma fold_traverse_post fwd : forall lg vis,
  traverse_post lg vis ->
  traverse_post
    (fst (fold_left (fun '(layer_groups, visited_nodes) n =>
                       graph_traverse n layer_groups [] visited_nodes) fwd (lg, vis)))
    (snd (fold_left (fun '(layer_groups, visited_nodes) n =>
                       graph_traverse n layer_groups [] visited_nodes) fwd (lg, vis))).
Proof.
  induction fwd as [|x r IH]; intros lg vis Hp; [exact Hp|]. cbn [fold_left].
  destruct (graph_traverse_inv x lg [] vis (traverse_post_inv _ _ Hp)) as [Hq _].
  destruct (graph_traverse x lg [] vis). now apply IH.
Qed.

Lemma calls_inv G node lg cg vis : calls G node lg cg vis -> traverse_inv lg cg vis.
Proof.
  induction 1 as [pre node post lg vis Hf Hs
                 |parent lg cg vis pre node post lg1 cg1 lg2 cg3 lg3 vis3 Hc IH Hv Hn E1 E2 E3].
  - apply traverse_post_inv.
    pose proof (fold_traverse_post pre [] [] (conj (FOP_nil _) (Forall_nil _))) as H.
    now rewrite Hs in H.
  - assert (Hfresh : ~ In (unique_name parent) vis).
    { intros Hin. apply name_in_spec in Hin. congruence. }
    pose proof (on_entry_inv _ _ _ _ _ IH E1) as H1.
    pose proof (on_append_inv parent _ _ _ H1 Hfresh) as H2.
    pose proof (on_break_inv _ _ _ _ _ _ H2 E2) as H3.
    destruct pre as [|a pre].
    + cbn in E3. inversion E3; subst. exact H3.
    + apply traverse_post_inv.
      pose proof (for_next_nodes_inv (a :: pre) _ _ _ H3) as H4. now rewrite E3 in H4.
Qed.

(** What discovery returns extends what a call of [graph_traverse] returns,
    by groups of layers visited after the call. *)
Lemma calls_result G node lg cg vis :
  calls G node lg cg vis ->
  exists later,
    get_cls_set G = fst (graph_traverse node lg cg vis) ++ later
    /\ forall g n, In g later -> In n (names g) ->
                   ~ In n (snd (graph_traverse node lg cg vis)).
Proof.
  induction 1 as [pre node post lg vis Hf Hs
                 |parent lg cg vis pre node post lg1 cg1 lg2 cg3 lg3 vis3 Hc IH Hv Hn E1 E2 E3].
  - unfold get_cls_set. rewrite Hf, fold_left_app, Hs. cbn [fold_left].
    destruct (graph_traverse node lg [] vis) as [lg' vis'] eqn:E.
    destruct (fold_traverse_adds post lg' vis') as [_ [added [Ea Hadd]]].
    exists added. split; [exact Ea|]. cbn [fst snd].
    intros g n Hg Hin. destruct (Hadd g n Hg Hin) as [[]|Hfr]. exact Hfr.
  - destruct IH as (later & Eg & Hlater).
    rewrite graph_traverse_eq, Hv, E1, E2, Hn, for_next_nodes_app, E3 in Eg, Hlater.
    destruct (graph_traverse node lg3 _ vis3) as [lg4 vis4] eqn:E4. cbn [fst snd].
    pose proof (for_next_nodes_adds post
                  (proj2 (Forall_forall _ _) (fun x _ => graph_traverse_adds x))
                  lg4 [] vis4) as Hpost.
    destruct Hpost as [Hincl [added [Ea Hadd]]].
    exists (added ++ later). split.
    + rewrite Eg, Ea. now rewrite app_assoc.
    + intros g n Hg Hin. apply in_app_or in Hg. destruct Hg as [Hg|Hg].
      * destruct (Hadd g n Hg Hin) as [[]|Hfr]. exact Hfr.
      * intros Hv4. apply (Hlater g n Hg Hin). now apply Hincl.
Qed.

Lemma chain_then_app a : forall b k, chain_then (a ++ b) k = chain_then a (chain_then b k).
Proof.
  induction a as [|x r IH]; intros b k; [reflexivity|]. cbn [app chain_then]. now rewrite IH.
Qed.

Lemma chain_then_length r k :
  (List.length k <= 1)%nat -> (1 <? List.length (chain_then r k)) = false.
Proof. intros H. destruct r; cbn [chain_then List.length]; apply Nat.ltb_ge; lia. Qed.

(** A traversal that enters a sequence of unvisited nodes, the last of which
    feeds at most one node, goes through it as [chain_step] does. *)
Lemma chain_then_run body : forall k lg cg vis,
  NoDup (map fst body) ->
  (forall n, In n (map fst body) -> ~ In n vis) ->
  (List.length k <= 1)%nat ->
  for_next_nodes (chain_then body k) lg cg vis
  = for_next_nodes k (fst (fold_left chain_step body (lg, cg)))
      (snd (fold_left chain_step body (lg, cg))) (vis ++ map fst body).
Proof.
  induction body as [|x r IH]; intros k lg cg vis Hnd Hfresh Hk.
  - cbn. now rewrite app_nil_r.
  - cbn [chain_then fold_left map]. rewrite for_next_nodes_single.
    rewrite graph_traverse_eq. cbn [unique_name module next_nodes].
    rewrite name_in_fresh by (apply Hfresh; now left).
    unfold chain_step at 2 4, entry. cbn [fst snd].
    destruct (on_entry lg cg) as [lg1 cg1].
    unfold on_break, on_append. cbn [unique_name module next_nodes].
    rewrite (chain_then_length r k Hk). cbn [orb].
    replace (fst x, snd x) with x by (destruct x; reflexivity).
    inversion Hnd as [|? ? Hnotin Hnd']; subst.
    assert (Hfresh' : forall n, In n (map fst r) -> ~ In n (vis ++ [fst x])).
    { intros n Hn Hin. apply in_app_or in Hin. destruct Hin as [Hin|[Hin|[]]].
      - apply (Hfresh n); [now right|assumption].
      - subst n. contradiction. }
    destruct (negb (isinstance (snd x) (cls_scalable_type ++ cls_support_type)));
      rewrite IH by assumption; rewrite <- app_assoc; reflexivity.
Qed.

Lemma entry_nil lg : entry (lg, []) = (lg, []).
Proof. reflexivity. Qed.

(** The groups recorded by a break are those recorded on entering a next
    node. *)
Lemma chain_step_break_groups s x :
  fst (entry (chain_step s x))
  = (let '(lg1, cg1) := entry s in
     let cg2 := if isinstance (snd x) cls_support_type then cg1 ++ [x] else cg1 in
     if is_group_supported cg2 && negb (group_in cg2 lg1) then lg1 ++ [cg2] else lg1).
Proof.
  unfold chain_step. destruct (entry s) as [lg1 cg1].
  destruct (negb (isinstance (snd x) (cls_scalable_type ++ cls_support_type))).
  - reflexivity.
  - unfold entry, on_entry. cbn [fst snd].
    now destruct (is_group_supported _ && negb (group_in _ lg1)).
Qed.

(** The same, when the last node of the sequence feeds several nodes. *)
Lemma chain_then_fanout body x k lg cg vis :
  NoDup (map fst (body ++ [x])) ->
  (forall n, In n (map fst (body ++ [x])) -> ~ In n vis) ->
  (1 < List.length k)%nat ->
  for_next_nodes (chain_then (body ++ [x]) k) lg cg vis
  = for_next_nodes k (fst (entry (fold_left chain_step (body ++ [x]) (lg, cg)))) []
      (vis ++ map fst (body ++ [x])).
Proof.
  intros Hnd Hfresh Hk. rewrite chain_then_app. rewrite map_app in Hnd, Hfresh.
  rewrite chain_then_run.
  - cbn [chain_then]. rewrite for_next_nodes_single.
    rewrite graph_traverse_eq. cbn [unique_name module next_nodes].
    rewrite name_in_fresh.
    + rewrite fold_left_app. cbn [fold_left]. rewrite chain_step_break_groups.
      set (s := fold_left chain_step body (lg, cg)).
      unfold entry. destruct (on_entry (fst s) (snd s)) as [lg1 cg1].
      unfold on_break, on_append. cbn [unique_name module next_nodes].
      replace (1 <? List.length k) with true by (symmetry; now apply Nat.ltb_lt).
      cbn [orb]. replace (fst x, snd x) with x by (destruct x; reflexivity).
      rewrite map_app, app_assoc. reflexivity.
    + intros Hin. apply in_app_or in Hin. destruct Hin as [Hin|Hin].
      * apply (Hfresh (fst x)); [apply in_or_app; right; now left|exact Hin].
      * apply (NoDup_app_disjoint _ _ (fst x) Hnd Hin). now left.
  - now apply NoDup_app_remove_r in Hnd.
  - intros n Hn. apply Hfresh. apply in_or_app. now left.
  - cbn. lia.
Qed.

Lemma graph_traverse_entry node s vis :
  name_in (unique_name node) vis = false ->
  graph_traverse node (fst (entry s)) (snd (entry s)) vis
  = graph_traverse node (fst s) (snd s) vis.
Proof.
  intros Hv. rewrite !graph_traverse_eq, Hv.
  change (on_entry (fst (entry s)) (snd (entry s))) with (entry (entry s)).
  now rewrite entry_idem.
Qed.

(** A node that is neither a convolution nor a scale-preserving activation
    drops an accumulator that is no supported group. *)
Lemma break_node_adds t lg cg vis :
  is_group_supported cg = false ->
  isinstance (module t) (cls_scalable_type ++ cls_support_type) = false ->
  adds_fresh lg [] vis (graph_traverse t lg cg vis).
Proof.
  intros Hcg Ht. rewrite graph_traverse_eq.
  destruct (name_in (unique_name t) vis).
  - split; [apply incl_refl|]. exists []. split; [now rewrite app_nil_r|]. intros g k [].
  - unfold on_entry. rewrite Hcg. cbn [andb].
    unfold on_break, on_append. rewrite (not_union_not_support _ Ht), Ht, Hcg.
    cbn [negb andb]. rewrite orb_true_r.
    apply (adds_fresh_step lg [] vis lg [] (vis ++ [unique_name t]) []).
    + now rewrite app_nil_r.
    + intros g n [].
    + intros n [].
    + apply incl_appl, incl_refl.
    + apply for_next_nodes_adds. apply Forall_forall. intros x _. apply graph_traverse_adds.
Qed.

Lemma for_next_nodes_break_adds rest lg cg vis :
  (List.length rest <= 1)%nat ->
  (forall t, rest = [t] ->
             isinstance (module t) (cls_scalable_type ++ cls_support_type) = false) ->
  is_group_supported cg = false ->
  adds_fresh lg [] vis (for_next_nodes rest lg cg vis).
Proof.
  intros Hlen Hmax Hcg. destruct rest as [|t [|u r]]; cbn [List.length] in Hlen; [| |lia].
  - cbn. split; [apply incl_refl|]. exists []. split; [now rewrite app_nil_r|]. intros g k [].
  - rewrite for_next_nodes_single. apply break_node_adds; [exact Hcg|]. now apply Hmax.
Qed.

Lemma steps_kinds steps : forall h,
  supported_run h steps ->
  Forall (fun x : Layer => isinstance (snd x) cls_support_type = false ->
                           isinstance (snd x) cls_scalable_type = true)
         (flat_map step_nodes steps).
Proof.
  induction steps as [|st r IH]; intros h Hrun; [constructor|].
  cbn [flat_map]. apply Forall_app.
  destruct st as [c acts | d a1 c a2]; cbn [supported_run step_nodes] in *.
  - destruct Hrun as (Hc & Hacts & Hrun). split; [|now apply IH with c].
    constructor.
    + intros E. rewrite (normal_is_support _ Hc) in E. discriminate.
    + eapply Forall_impl; [|exact Hacts]. auto.
  - destruct Hrun as (_ & Hd & _ & Hc & Ha1 & Ha2 & Hrun). split; [|now apply IH with c].
    constructor.
    + intros E. unfold is_dw_conv in Hd. rewrite E in Hd. discriminate.
    + apply Forall_app. split; [eapply Forall_impl; [|exact Ha1]; auto|].
      constructor.
      * intros E. rewrite (normal_is_support _ Hc) in E. discriminate.
      * eapply Forall_impl; [|exact Ha2]. auto.
Qed.

Lemma run_nodes_kinds c0 acts0 steps :
  isinstance (snd c0) cls_support_type = true ->
  scalable_acts acts0 ->
  supported_run c0 steps ->
  Forall (fun x : Layer => isinstance (snd x) cls_support_type = false ->
                           isinstance (snd x) cls_scalable_type = true)
         (run_nodes c0 acts0 steps).
Proof.
  intros Hc0 Hacts Hrun. unfold run_nodes. constructor.
  - intros E. congruence.
  - apply Forall_app. split; [eapply Forall_impl; [|exact Hacts]; auto|].
    now apply steps_kinds with c0.
Qed.

(** The state in which the traversal leaves a run that it enters with an
    empty accumulator. *)
Lemma run_fold c0 acts0 steps lg vis :
  (forall g, In g lg -> incl (names g) vis) ->
  NoDup (map fst (run_nodes c0 acts0 steps)) ->
  (forall n, In n (map fst (run_nodes c0 acts0 steps)) -> ~ In n vis) ->
  isinstance (snd c0) cls_support_type = true ->
  scalable_acts acts0 ->
  supported_run c0 steps ->
  entry (fold_left chain_step (run_nodes c0 acts0 steps) (lg, []))
  = (lg ++ expected_groups c0 steps, [last (run_convs c0 steps) c0]).
Proof.
  intros Hlg Hnd Hfresh Hc0 Hacts Hrun.
  unfold run_nodes, run_convs in *. rewrite last_cons_any.
  cbn [fold_left]. rewrite chain_step_conv by assumption. rewrite entry_nil.
  cbn [fst snd app]. rewrite fold_left_app.
  cbn [map] in Hnd, Hfresh. inversion Hnd as [|? ? Hc0fresh Hnd1]; subst.
  rewrite map_app in Hnd1, Hc0fresh, Hfresh.
  apply (fold_steps_last steps c0 lg (fold_left chain_step acts0 (lg, [c0]))
           (vis ++ fst c0 :: map fst acts0)).
  - rewrite fold_acts by assumption. reflexivity.
  - assumption.
  - assumption.
  - intros g Hg. apply incl_appl. now apply Hlg.
  - apply in_or_app. right. now left.
  - intros n Hn Hin. apply in_app_or in Hin. destruct Hin as [Hin|[Hin|Hin]].
    + apply (Hfresh n); [right; apply in_or_app; now right|exact Hin].
    + subst n. apply Hc0fresh. apply in_or_app. now right.
    + exact (NoDup_app_disjoint _ _ n Hnd1 Hin Hn).
  - now apply NoDup_app_remove_l in Hnd1.
Qed.

(** A sequence of unvisited convolutions and activations that leaves the
    groups [L] and the accumulator [[c]] to the node entered next. *)
Lemma closed_chain_traverse (nodes : list Layer) rest lg vis (L : list Group) (c : Layer) :
  nodes <> [] ->
  NoDup (map fst nodes) ->
  (forall n, In n (map fst nodes) -> ~ In n vis) ->
  Forall (fun x : Layer => isinstance (snd x) cls_support_type = false ->
                           isinstance (snd x) cls_scalable_type = true) nodes ->
  entry (fold_left chain_step nodes (lg, [])) = (L, [c]) ->
  run_closed nodes rest vis ->
  exists added,
    fst (for_next_nodes (chain_then nodes rest) lg [] vis) = L ++ added
    /\ incl (vis ++ map fst nodes) (snd (for_next_nodes (chain_then nodes rest) lg [] vis))
    /\ (forall g n, In g added -> In n (names g) ->
                    n = fst c \/ ~ In n (vis ++ map fst nodes))
    /\ ((forall t, rest = [t] ->
                   isinstance (module t) (cls_scalable_type ++ cls_support_type) = false) ->
        forall g n, In g added -> In n (names g) -> ~ In n (vis ++ map fst nodes)).
Proof.
  intros Hne Hnd Hfresh Hkinds Erun Hclosed.
  assert (Hall : forall ns, Forall (fun node => forall lg cg vis,
                    adds_fresh lg cg vis (graph_traverse node lg cg vis)) ns).
  { intros ns. apply Forall_forall. intros x _. apply graph_traverse_adds. }
  destruct (1 <? List.length rest) eqn:Elen.
  - (* the last node feeds several nodes *)
    apply Nat.ltb_lt in Elen.
    destruct (exists_last Hne) as (body & x & Ebody). subst nodes.
    rewrite chain_then_fanout by assumption.
    match goal with
    | |- context [entry ?s] => replace (entry s) with (L, [c]) by (symmetry; exact Erun)
    end.
    cbn [fst].
    destruct (for_next_nodes_adds rest (Hall rest) L [] (vis ++ map fst (body ++ [x])))
      as [Hincl [added [Ea Hadd]]].
    exists added. split; [exact Ea|]. split; [exact Hincl|]. split.
    + intros g n Hg Hn. right. destruct (Hadd g n Hg Hn) as [[]|H]. exact H.
    + intros _ g n Hg Hn. destruct (Hadd g n Hg Hn) as [[]|H]. exact H.
  - apply Nat.ltb_ge in Elen.
    rewrite chain_then_run by assumption.
    match goal with
    | |- context [for_next_nodes rest (fst ?s0) _ _] => set (s := s0)
    end.
    assert (Es0 : s = fold_left chain_step nodes (lg, [])) by reflexivity.
    assert (Erun' : entry s = (L, [c])) by exact Erun.
    assert (Er : for_next_nodes rest (fst s) (snd s) (vis ++ map fst nodes)
                 = for_next_nodes rest L [c] (vis ++ map fst nodes)).
    { destruct Hclosed as [(l & a & El & Ha)|[Hfan|(t & Et & Ht)]].
      - (* the sequence ends with an activation *)
        assert (Hsa : isinstance (snd a) cls_scalable_type = true).
        { rewrite Forall_forall in Hkinds. apply Hkinds; [|exact Ha].
          rewrite El. apply in_or_app. right. now left. }
        assert (Es : s = entry s).
        { rewrite Es0, El, fold_left_app. cbn [fold_left].
          rewrite chain_step_act by exact Hsa. now rewrite entry_idem. }
        rewrite Es, Erun'. reflexivity.
      - lia.
      - (* it is followed by a node that has not been visited *)
        subst rest. rewrite !for_next_nodes_single.
        rewrite <- graph_traverse_entry by (now apply name_in_fresh).
        rewrite Erun'. reflexivity. }
    rewrite Er.
    destruct (for_next_nodes_adds rest (Hall rest) L [c] (vis ++ map fst nodes))
      as [Hincl [added [Ea Hadd]]].
    exists added. split; [exact Ea|]. split; [exact Hincl|]. split.
    + intros g n Hg Hn. destruct (Hadd g n Hg Hn) as [[H|[]]|H]; [left|right]; auto.
    + intros Hmax g n Hg Hn.
      destruct (for_next_nodes_break_adds rest L [c] (vis ++ map fst nodes) Elen Hmax eq_refl)
        as [_ [added' [Ea' Hadd']]].
      rewrite Ea in Ea'. apply app_inv_head in Ea'. subst added'.
      destruct (Hadd' g n Hg Hn) as [[]|H]. exact H.
Qed.

Lemma run_traverse c0 acts0 steps rest lg vis :
  (forall g, In g lg -> incl (names g) vis) ->
  NoDup (map fst (run_nodes c0 acts0 steps)) ->
  (forall n, In n (map fst (run_nodes c0 acts0 steps)) -> ~ In n vis) ->
  isinstance (snd c0) cls_support_type = true ->
  scalable_acts acts0 ->
  supported_run c0 steps ->
  run_closed (run_nodes c0 acts0 steps) rest vis ->
  exists later,
    fst (graph_traverse (run_head c0 acts0 steps rest) lg [] vis)
    = lg ++ expected_groups c0 steps ++ later
    /\ incl (vis ++ map fst (run_nodes c0 acts0 steps))
            (snd (graph_traverse (run_head c0 acts0 steps rest) lg [] vis))
    /\ (forall g n, In g later -> In n (names g) ->
                    n = fst (last (run_convs c0 steps) c0)
                    \/ ~ In n (vis ++ map fst (run_nodes c0 acts0 steps)))
    /\ ((forall t, rest = [t] ->
                   isinstance (module t) (cls_scalable_type ++ cls_support_type) = false) ->
        forall g n, In g later -> In n (names g) ->
                    ~ In n (vis ++ map fst (run_nodes c0 acts0 steps))).
Proof.
  intros Hlg Hnd Hfresh Hc0 Hacts Hrun Hclosed.
  assert (Ehead : graph_traverse (run_head c0 acts0 steps rest) lg [] vis
                  = for_next_nodes (chain_then (run_nodes c0 acts0 steps) rest) lg [] vis).
  { unfold run_nodes, run_head. cbn [chain_then fst snd].
    now rewrite for_next_nodes_single. }
  rewrite Ehead.
  destruct (closed_chain_traverse (run_nodes c0 acts0 steps) rest lg vis
              (lg ++ expected_groups c0 steps) (last (run_convs c0 steps) c0))
    as (added & Ea & H); try assumption.
  - unfold run_nodes. discriminate.
  - now apply run_nodes_kinds.
  - apply (run_fold c0 acts0 steps lg vis); assumption.
  - exists added. split; [|exact H]. rewrite Ea. now rewrite app_assoc.
Qed.

Lemma adj_pairs_distinct {A} (l : list A) (a b : A) :
  NoDup l -> In (a, b) (adj_pairs l) -> a <> b.
Proof.
  unfold adj_pairs. induction l as [|x r IH]; intros Hnd Hin; [destruct Hin|].
  destruct r as [|y r']; [destruct Hin|].
  inversion Hnd as [|? ? Hx Hr]; subst. cbn [tl combine] in Hin.
  destruct Hin as [Hin|Hin].
  - inversion Hin; subst. intros E. subst. apply Hx. now left.
  - now apply IH.
Qed.

Lemma adj_pairs_in {A} (l : list A) (a b : A) : In (a, b) (adj_pairs l) -> In a l /\ In b l.
Proof.
  unfold adj_pairs. intros H. split.
  - now apply in_combine_l in H.
  - apply in_combine_r in H. destruct l; [destruct H|]. now right.
Qed.

Lemma NoDup_map_eq {A B} (f : A -> B) (l : list A) (a b : A) :
  NoDup (map f l) -> In a l -> In b l -> f a = f b -> a = b.
Proof.
  induction l as [|x r IH]; intros Hnd Ha Hb E; [destruct Ha|].
  cbn [map] in Hnd. inversion Hnd as [|? ? Hx Hr]; subst.
  destruct Ha as [Ha|Ha]; destruct Hb as [Hb|Hb]; subst.
  - reflexivity.
  - exfalso. apply Hx. rewrite E. now apply in_map.
  - exfalso. apply Hx. rewrite <- E. now apply in_map.
  - now apply IH.
Qed.

(** C3 (amended): take any acyclic graph and, in it, a run of convolutions
    separated only by scale-preserving activations, each node of the run
    feeding the next one only.  Suppose discovery calls [graph_traverse] on
    the first convolution of the run with an empty accumulator while no node
    of the run has been visited, [lg] being the groups recorded so far, and
    that the run is closed: it ends with an activation, or its last node feeds
    several nodes, or it feeds one node that has not been visited.  If the run
    consists of the shapes discovery supports (after its first convolution:
    normal convolutions, and depthwise convolutions that stand between two
    normal ones), discovery returns [lg], then the groups of that
    decomposition, in which every adjacent pair of convolutions of the run
    lies exactly once, then further groups, and none of the groups before or
    after covers an adjacent pair of convolutions of the run.  No group of
    [lg] holds a layer of the run; a later group holds no layer of the run
    but its last convolution, and not even that one when the node after the
    run is neither a convolution nor a scale-preserving activation.  On any
    graph a returned group has two or three elements. *)
Theorem discovery_covers_supported_run
    (G : TraceGraph) (c0 : Layer) (acts0 : list Layer) (steps : list run_step)
    (rest : list TraceNode) (lg : list Group) (vis : list string) :
  calls G (run_head c0 acts0 steps rest) lg [] vis ->
  NoDup (map fst (run_nodes c0 acts0 steps)) ->
  (forall n, In n (map fst (run_nodes c0 acts0 steps)) -> ~ In n vis) ->
  isinstance (snd c0) cls_support_type = true ->
  scalable_acts acts0 ->
  supported_run c0 steps ->
  run_closed (run_nodes c0 acts0 steps) rest vis ->
  let convs := filter (fun x : Layer => isinstance (snd x) cls_support_type)
                      (run_nodes c0 acts0 steps) in
  exists later,
    get_cls_set G = lg ++ expected_groups c0 steps ++ later
    /\ (forall g n, In g lg -> In n (names g) ->
                    ~ In n (map fst (run_nodes c0 acts0 steps)))
    /\ (forall g n, In g later -> In n (names g) ->
                    In n (map fst (run_nodes c0 acts0 steps)) -> n = fst (last convs c0))
    /\ ((forall t, rest = [t] ->
                   isinstance (module t) (cls_scalable_type ++ cls_support_type) = false) ->
        forall g n, In g later -> In n (names g) ->
                    ~ In n (map fst (run_nodes c0 acts0 steps)))
    /\ List.concat (map adj_pairs (expected_groups c0 steps)) = adj_pairs convs
    /\ NoDup (adj_pairs convs)
    /\ (forall a b, In (a, b) (adj_pairs convs) ->
                    ~ pair_covered (lg ++ later) (fst a) (fst b))
    /\ (forall G', Forall (fun g : Group => List.length g = 2%nat \/ List.length g = 3%nat)
                          (get_cls_set G')).
Proof.
  intros Hcall Hnd Hfresh Hc0 Hacts Hrun Hclosed convs.
  assert (Hconvs : convs = run_convs c0 steps).
  { unfold convs, run_nodes, run_convs. cbn [filter]. rewrite Hc0.
    rewrite filter_app, (filter_scalable_acts _ Hacts). cbn [app]. f_equal.
    symmetry. now apply run_convs_filter with c0. }
  assert (Hlg : forall g, In g lg -> incl (names g) vis).
  { destruct (calls_inv _ _ _ _ _ Hcall) as (_ & _ & H & _).
    rewrite Forall_forall in H. exact H. }
  destruct (run_traverse c0 acts0 steps rest lg vis Hlg Hnd Hfresh Hc0 Hacts Hrun Hclosed)
    as (later1 & E1 & Hvis & Hlast & Hmax).
  destruct (calls_result _ _ _ _ _ Hcall) as (later2 & E2 & Hlater2).
  assert (Hfresh2 : forall g n, In g later2 -> In n (names g) ->
                                ~ In n (vis ++ map fst (run_nodes c0 acts0 steps))).
  { intros g n Hg Hn Hin. apply (Hlater2 g n Hg Hn). now apply Hvis. }
  assert (Hbefore : forall g n, In g lg -> In n (names g) ->
                                ~ In n (map fst (run_nodes c0 acts0 steps))).
  { intros g n Hg Hn Hin. apply (Hfresh n Hin). now apply (Hlg g Hg). }
  assert (Hafter : forall g n, In g (later1 ++ later2) -> In n (names g) ->
                               In n (map fst (run_nodes c0 acts0 steps)) ->
                               n = fst (last convs c0)).
  { intros g n Hg Hn Hin. rewrite Hconvs. apply in_app_or in Hg. destruct Hg as [Hg|Hg].
    - destruct (Hlast g n Hg Hn) as [H|H]; [exact H|].
      exfalso. apply H. apply in_or_app. now right.
    - exfalso. apply (Hfresh2 g n Hg Hn). apply in_or_app. now right. }
  assert (Hndc : NoDup convs).
  { unfold convs. apply NoDup_filter. now apply NoDup_map_inv in Hnd. }
  exists (later1 ++ later2).
  split; [|split; [|split; [|split; [|split; [|split; [|split]]]]]].
  - rewrite E2, E1. now rewrite <- !app_assoc.
  - exact Hbefore.
  - exact Hafter.
  - intros Hbreak g n Hg Hn Hin. apply in_app_or in Hg. destruct Hg as [Hg|Hg].
    + apply (Hmax Hbreak g n Hg Hn). apply in_or_app. now right.
    + apply (Hfresh2 g n Hg Hn). apply in_or_app. now right.
  - rewrite Hconvs. apply expected_groups_pairs.
  - now apply NoDup_combine.
  - intros a b Hab (g & Hg & Hcov).
    destruct (adj_pairs_in _ _ _ Hab) as [Ha Hb].
    assert (Hrun_in : forall x, In x convs -> In x (run_nodes c0 acts0 steps)).
    { intros x Hx. unfold convs in Hx. now apply filter_In in Hx. }
    destruct (adj_pairs_in _ _ _ Hcov) as [Hga Hgb].
    assert (Hna : In (fst a) (map fst (run_nodes c0 acts0 steps)))
      by (apply in_map; now apply Hrun_in).
    assert (Hnb : In (fst b) (map fst (run_nodes c0 acts0 steps)))
      by (apply in_map; now apply Hrun_in).
    apply in_app_or in Hg. destruct Hg as [Hg|Hg].
    + exact (Hbefore g (fst a) Hg Hga Hna).
    + apply (adj_pairs_distinct convs a b Hndc Hab).
      apply (NoDup_map_eq fst (run_nodes c0 acts0 steps)); auto.
      rewrite (Hafter g (fst a) Hg Hga Hna). symmetry.
      exact (Hafter g (fst b) Hg Hgb Hnb).
  - apply get_cls_set_sizes.
Qed.

Lemma discovery_covers_supported_run_witness :
  (exists later,
     get_cls_set run_after_pool_graph = [[ex_conv1; ex_conv2]] ++ later)
  /\ (exists later, get_cls_set fan_out_graph = [[ex_conv1; ex_conv2]] ++ later)
  /\ (exists later, get_cls_set run_then_relu_graph = [[ex_conv1; ex_conv2]] ++ later)
  /\ (exists later,
        get_cls_set (graph_with_run
                       (run_nodes ex_conv1 [ex_relu1]
                          [StepConv ex_conv2 []; StepDwConv ex_dw [] ex_conv3 []] ++ [ex_out])
                       [] [])
        = [[ex_conv1; ex_conv2]; [ex_conv2; ex_dw; ex_conv3]] ++ later).
Proof.
  split; [|split; [|split]].
  - destruct (discovery_covers_supported_run run_after_pool_graph
                ex_conv1 [ex_relu1] [StepConv ex_conv2 []] (chain [ex_out])
                [] ["pool"%string])
      as (later & H & _).
    + apply (calls_next run_after_pool_graph
               (mkTraceNode "pool" (snd ex_pool)
                  (chain [ex_conv1; ex_relu1; ex_conv2; ex_out]))
               [] [] [] [] _ [] [] [] [] [] [] ["pool"%string]);
        try reflexivity.
      apply (calls_forward run_after_pool_graph [] _
               (chain_nodes [ex_conv1; ex_relu1; ex_conv2; ex_out]) [] []); reflexivity.
    + cbn. repeat constructor; cbn; intuition discriminate.
    + intros n Hn [Hp|[]]. subst n. cbn in Hn. intuition discriminate.
    + reflexivity.
    + repeat constructor.
    + cbn. repeat split; constructor.
    + right. right. eexists. split; [reflexivity|]. cbn. intuition discriminate.
    + exists later. exact H.
  - destruct (discovery_covers_supported_run fan_out_graph
                ex_conv1 [] [StepConv ex_conv2 []] (chain [ex_out] ++ chain [ex_out2])
                [] [])
      as (later & H & _).
    + apply (calls_forward fan_out_graph [] _ [] [] []); reflexivity.
    + cbn. repeat constructor; cbn; intuition discriminate.
    + cbn. intuition.
    + reflexivity.
    + constructor.
    + cbn. repeat split; constructor.
    + right. left. cbn. lia.
    + exists later. exact H.
  - destruct (discovery_covers_supported_run run_then_relu_graph
                ex_conv1 [] [StepConv ex_conv2 [ex_relu1]] [] [] [])
      as (later & H & _).
    + apply (calls_forward run_then_relu_graph [] _
               (chain_nodes [ex_conv2; ex_relu1]) [] []); reflexivity.
    + cbn. repeat constructor; cbn; intuition discriminate.
    + cbn. intuition.
    + reflexivity.
    + constructor.
    + cbn. repeat split; repeat constructor.
    + left. exists [ex_conv1; ex_conv2], ex_relu1. split; reflexivity.
    + exists later. exact H.
  - destruct (discovery_covers_supported_run
                (graph_with_run
                   (run_nodes ex_conv1 [ex_relu1]
                      [StepConv ex_conv2 []; StepDwConv ex_dw [] ex_conv3 []] ++ [ex_out])
                   [] [])
                ex_conv1 [ex_relu1] [StepConv ex_conv2 []; StepDwConv ex_dw [] ex_conv3 []]
                (chain [ex_out]) [] [])
      as (later & H & _).
    + apply (calls_forward _ [] _ [] [] []); reflexivity.
    + cbn. repeat constructor; cbn; intuition discriminate.
    + cbn. intuition.
    + reflexivity.
    + repeat constructor.
    + cbn. repeat split; constructor.
    + right. right. eexists. split; [reflexivity|]. cbn. intuition discriminate.
    + exists later. exact H.
Defined.



(** ** Arithmetic on finite values *)

Local Open Scope R_scope.

Lemma is_zero_false r : r <> 0 -> is_zero r = false.
Proof. intros H. unfold is_zero. destruct (Req_dec_T r 0); [contradiction|reflexivity]. Qed.

Lemma is_zero_true : is_zero 0 = true.
Proof. unfold is_zero. destruct (Req_dec_T 0 0); [reflexivity|contradiction]. Qed.

Lemma is_neg_false r : 0 <= r -> is_neg r = false.
Proof. intros H. unfold is_neg. destruct (Rlt_dec r 0); [lra|reflexivity]. Qed.

Lemma fdiv_Fin a b : b <> 0 -> fdiv (Fin a) (Fin b) = Fin (a / b).
Proof. intros H. cbn. now rewrite is_zero_false. Qed.

Lemma fsqrt_Fin a : 0 <= a -> fsqrt (Fin a) = Fin (sqrt a).
Proof. intros H. cbn. now rewrite is_neg_false. Qed.

Lemma fpow_Fin a y : 0 < a -> fpow (Fin a) y = Fin (Rpower a y).
Proof. intros H. cbn. rewrite is_neg_false by lra. rewrite is_zero_false by lra. reflexivity. Qed.

Lemma fgt_Fin_true a b : b < a -> fgt (Fin a) (Fin b) = true.
Proof. intros H. cbn. destruct (Rlt_dec b a); [reflexivity|lra]. Qed.

Lemma fgt_Fin_false a b : a <= b -> fgt (Fin a) (Fin b) = false.
Proof. intros H. cbn. destruct (Rlt_dec b a); [lra|reflexivity]. Qed.

Lemma fmax_Fin a b : fmax (Fin a) (Fin b) = Fin (Rmax a b).
Proof.
  unfold fmax, fgt. destruct (Rlt_dec a b).
  - now rewrite Rmax_right by lra.
  - now rewrite Rmax_left by lra.
Qed.

Lemma fold_fmax_Fin l : forall x,
  fold_left fmax (map Fin l) (Fin x) = Fin (fold_left Rmax l x).
Proof.
  induction l as [|y r IH]; intros x; [reflexivity|].
  cbn [map fold_left]. rewrite fmax_Fin. apply IH.
Qed.

Lemma amax_list_Fin l : l <> [] -> amax_list (map Fin l) = Fin (Rmaxl l).
Proof. destruct l as [|x r]; [congruence|]. intros _. apply fold_fmax_Fin. Qed.

Lemma fold_fadd_Fin l : forall x,
  fold_left fadd (map Fin l) (Fin x) = Fin (fold_left Rplus l x).
Proof.
  induction l as [|y r IH]; intros x; [reflexivity|].
  cbn [map fold_left]. apply IH.
Qed.

Lemma fsum_Fin l : fsum (map Fin l) = Fin (Rsum l).
Proof. apply fold_fadd_Fin. Qed.

Lemma fold_Rmax_ge l : forall x, x <= fold_left Rmax l x.
Proof.
  induction l as [|y r IH]; intros x; cbn; [lra|].
  eapply Rle_trans; [apply (Rmax_l x y)|apply IH].
Qed.

Lemma fold_Rmax_in l : forall x y, In y l -> y <= fold_left Rmax l x.
Proof.
  induction l as [|z r IH]; intros x y H; [destruct H|].
  destruct H as [H|H]; cbn.
  - subst. eapply Rle_trans; [apply (Rmax_r x y)|apply fold_Rmax_ge].
  - now apply IH.
Qed.

Lemma Rmaxl_in l y : In y l -> y <= Rmaxl l.
Proof.
  destruct l as [|x r]; [intros []|]. intros [H|H]; cbn.
  - subst. apply fold_Rmax_ge.
  - now apply fold_Rmax_in.
Qed.

Lemma fold_Rplus_shift l : forall x, fold_left Rplus l x = x + fold_left Rplus l 0.
Proof.
  induction l as [|y r IH]; intros x; cbn; [lra|].
  rewrite IH. rewrite (IH (0 + y)). lra.
Qed.

Lemma Rsum_cons x l : Rsum (x :: l) = x + Rsum l.
Proof. unfold Rsum. cbn. rewrite fold_Rplus_shift. lra. Qed.

Lemma Rsum_map_ext {A} (f g : A -> R) l :
  (forall a, In a l -> f a = g a) -> Rsum (map f l) = Rsum (map g l).
Proof.
  induction l as [|a r IH]; intros H; [reflexivity|].
  cbn [map]. rewrite !Rsum_cons. rewrite H by now left.
  rewrite IH; [reflexivity|]. intros b Hb. apply H. now right.
Qed.

Lemma Rsum_map_scale {A} (f : A -> R) k l :
  Rsum (map (fun a => f a * k) l) = Rsum (map f l) * k.
Proof.
  induction l as [|a r IH]; [unfold Rsum; cbn; lra|].
  cbn [map]. rewrite !Rsum_cons, IH. lra.
Qed.

Lemma cube_root_cube g : 0 < g -> Rpower (g * g * g) (1 / 3) = g.
Proof.
  intros H. replace (g * g * g) with (g ^ 3) by ring.
  rewrite <- (Rpower_pow 3 g H). rewrite Rpower_mult.
  replace (INR 3 * (1 / 3)) with 1 by (cbn; lra). now apply Rpower_1.
Qed.

(** ** Ranges of real tensors *)

Lemma index3_in d1 d2 d3 i h w :
  In (i, h, w) (index3 d1 d2 d3) <-> (i < d1 /\ h < d2 /\ w < d3)%nat.
Proof.
  unfold index3. rewrite in_flat_map. split.
  - intros [i' [Hi H]]. apply in_flat_map in H. destruct H as [h' [Hh H]].
    apply in_map_iff in H. destruct H as [w' [E Hw]]. inversion E; subst.
    apply in_seq in Hi, Hh, Hw. lia.
  - intros (Hi & Hh & Hw). exists i. split; [apply in_seq; lia|].
    apply in_flat_map. exists h. split; [apply in_seq; lia|].
    apply in_map_iff. exists w. split; [reflexivity|apply in_seq; lia].
Qed.

Lemma index3_nonempty d1 d2 d3 :
  (0 < d1)%nat -> (0 < d2)%nat -> (0 < d3)%nat -> index3 d1 d2 d3 <> [].
Proof.
  intros H1 H2 H3 E.
  assert (H : In (0, 0, 0)%nat (index3 d1 d2 d3)) by (apply index3_in; lia).
  rewrite E in H. destruct H.
Qed.

Lemma abs_amax_real d0 d1 d2 d3 W c :
  (0 < d1)%nat -> (0 < d2)%nat -> (0 < d3)%nat ->
  at1 (abs_amax_123 (real4 d0 d1 d2 d3 W)) c = Fin (range_123 d1 d2 d3 (W c)).
Proof.
  intros H1 H2 H3. cbn [abs_amax_123 at1 real4 dim1 dim2 dim3 at4].
  unfold range_123. rewrite <- amax_list_Fin.
  - rewrite map_map. f_equal. apply map_ext. now intros [[i h] w].
  - intros E. apply map_eq_nil in E. revert E. now apply index3_nonempty.
Qed.


Lemma range_123_pos d1 d2 d3 W i h w :
  (i < d1)%nat -> (h < d2)%nat -> (w < d3)%nat -> W i h w <> 0 ->
  0 < range_123 d1 d2 d3 W.
Proof.
  intros H1 H2 H3 Hnz. unfold range_123.
  eapply Rlt_le_trans; [apply (Rabs_pos_lt _ Hnz)|].
  apply Rmaxl_in. apply in_map_iff. exists (i, h, w). split; [reflexivity|].
  apply index3_in. lia.
Qed.

Lemma equalize_shapes_ok C I KH KW O KH2 KW2 W1 W2 :
  (0 < I)%nat -> (0 < KH)%nat -> (0 < KW)%nat ->
  (0 < O)%nat -> (0 < KH2)%nat -> (0 < KW2)%nat ->
  let weight1 := real4 C I KH KW W1 in
  let weight2 := real4 O C KH2 KW2 W2 in
  negb (reducible_123 weight1 && reducible_123 (permute_1023 weight2)
        && (dim0 weight1 =? dim0 (permute_1023 weight2))%nat) = false.
Proof.
  intros HI HKH HKW HO HKH2 HKW2. unfold reducible_123.
  cbn [real4 permute_1023 dim0 dim1 dim2 dim3].
  apply Nat.ltb_lt in HI, HKH, HKW, HO, HKH2, HKW2.
  now rewrite HI, HKH, HKW, HO, HKH2, HKW2, Nat.eqb_refl.
Qed.

Section Equalize_on_reals.
Variables C I KH KW O KH2 KW2 : nat.
Variable W1 : nat -> nat -> nat -> nat -> R.
Variable B1 : nat -> R.
Variable W2 : nat -> nat -> nat -> nat -> R.
Hypothesis HI : (0 < I)%nat.
Hypothesis HKH : (0 < KH)%nat.
Hypothesis HKW : (0 < KW)%nat.
Hypothesis HO : (0 < O)%nat.
Hypothesis HKH2 : (0 < KH2)%nat.
Hypothesis HKW2 : (0 < KW2)%nat.

Local Abbreviation weight1 := (real4 C I KH KW W1).
Local Abbreviation bias1 := (real1 C B1).
Local Abbreviation weight2 := (real4 O C KH2 KW2 W2).
Local Abbreviation r1 c := (range_123 I KH KW (W1 c)).
Local Abbreviation r2 c := (range_123 O KH2 KW2 (fun o h k => W2 o c h k)).

Lemma equalize_real_ranges c :
  at1 (abs_amax_123 weight1) c = Fin (r1 c)
  /\ at1 (abs_amax_123 (permute_1023 weight2)) c = Fin (r2 c).
Proof.
  split.
  - now apply abs_amax_real.
  - change (permute_1023 weight2)
      with (real4 C O KH2 KW2 (fun a b c d => W2 b a c d)).
    now apply abs_amax_real.
Qed.

Lemma equalize_real_ok :
  exists w1' b1' w2' s,
    equalize weight1 (Some bias1) weight2 = Ok (w1', b1', w2', s)
    /\ (forall c, at1 s c = fdiv (Fin (r1 c)) (fsqrt (fmul (Fin (r1 c)) (Fin (r2 c)))))
    /\ (forall c i h k, at4 w1' c i h k = fdiv (Fin (W1 c i h k)) (at1 s c))
    /\ (forall c, at1 b1' c = fdiv (Fin (B1 c)) (at1 s c))
    /\ (forall o c h k, at4 w2' o c h k = fmul (Fin (W2 o c h k)) (at1 s c))
    /\ dim0 w1' = C /\ dim1 w1' = I /\ dim2 w1' = KH /\ dim3 w1' = KW
    /\ dim0 w2' = O /\ dim1 w2' = C /\ dim2 w2' = KH2 /\ dim3 w2' = KW2
    /\ size1 b1' = C /\ size1 s = C.
Proof.
  unfold equalize.
  rewrite (equalize_shapes_ok C I KH KW O KH2 KW2 W1 W2) by assumption.
  cbn [real1 size1 map2_1 abs_amax_123 real4 dim0]. rewrite Nat.eqb_refl. cbn [negb].
  do 4 eexists. split; [reflexivity|].
  assert (Hs : forall c,
    at1 (map2_1 fdiv (abs_amax_123 weight1)
           (map_1 fsqrt (map2_1 fmul (abs_amax_123 weight1)
                                     (abs_amax_123 (permute_1023 weight2))))) c
    = fdiv (Fin (r1 c)) (fsqrt (fmul (Fin (r1 c)) (Fin (r2 c))))).
  { intros c. cbn [map2_1 map_1 at1]. destruct (equalize_real_ranges c) as [E1 E2].
    now rewrite E1, E2. }
  repeat split; try reflexivity; intros; try apply Hs.
Qed.

Lemma scale_positive c :
  0 < r1 c -> 0 < r2 c ->
  fdiv (Fin (r1 c)) (fsqrt (fmul (Fin (r1 c)) (Fin (r2 c))))
  = Fin (r1 c / sqrt (r1 c * r2 c))
  /\ 0 < r1 c / sqrt (r1 c * r2 c).
Proof.
  intros H1 H2.
  assert (Hp : 0 < r1 c * r2 c) by now apply Rmult_lt_0_compat.
  assert (Hq : 0 < sqrt (r1 c * r2 c)) by now apply sqrt_lt_R0.
  cbn [fmul]. rewrite fsqrt_Fin by lra. rewrite fdiv_Fin by lra.
  split; [reflexivity|]. now apply Rdiv_lt_0_compat.
Qed.
End Equalize_on_reals.

Lemma cdc_shapes_ok C I KH KW I2 KH2 KW2 O KH3 KW3 W1 W2 W3 :
  (0 < I)%nat -> (0 < KH)%nat -> (0 < KW)%nat ->
  (0 < I2)%nat -> (0 < KH2)%nat -> (0 < KW2)%nat ->
  (0 < O)%nat -> (0 < KH3)%nat -> (0 < KW3)%nat ->
  let weight1 := real4 C I KH KW W1 in
  let weight2 := real4 C I2 KH2 KW2 W2 in
  let w3_p := permute_1023 (real4 O C KH3 KW3 W3) in
  negb (reducible_123 weight1 && reducible_123 weight2 && reducible_123 w3_p
        && (dim0 weight1 =? dim0 weight2)%nat && (dim0 weight2 =? dim0 w3_p)%nat) = false.
Proof.
  intros H1 H2 H3 H4 H5 H6 H7 H8 H9. unfold reducible_123.
  cbn [real4 permute_1023 dim0 dim1 dim2 dim3].
  apply Nat.ltb_lt in H1, H2, H3, H4, H5, H6, H7, H8, H9.
  now rewrite H1, H2, H3, H4, H5, H6, H7, H8, H9, Nat.eqb_refl.
Qed.

Section Equalize_cdc_on_reals.
Variables C I KH KW I2 KH2 KW2 O KH3 KW3 : nat.
Variable W1 : nat -> nat -> nat -> nat -> R.
Variable B1 : nat -> R.
Variable W2 : nat -> nat -> nat -> nat -> R.
Variable B2 : nat -> R.
Variable W3 : nat -> nat -> nat -> nat -> R.
Variable threshold : R.
Hypothesis HI : (0 < I)%nat.
Hypothesis HKH : (0 < KH)%nat.
Hypothesis HKW : (0 < KW)%nat.
Hypothesis HI2 : (0 < I2)%nat.
Hypothesis HKH2 : (0 < KH2)%nat.
Hypothesis HKW2 : (0 < KW2)%nat.
Hypothesis HO : (0 < O)%nat.
Hypothesis HKH3 : (0 < KH3)%nat.
Hypothesis HKW3 : (0 < KW3)%nat.

Local Abbreviation weight1 := (real4 C I KH KW W1).
Local Abbreviation weight2 := (real4 C I2 KH2 KW2 W2).
Local Abbreviation weight3 := (real4 O C KH3 KW3 W3).
Local Abbreviation r1 c := (range_123 I KH KW (W1 c)).
Local Abbreviation r2 c := (range_123 I2 KH2 KW2 (W2 c)).
Local Abbreviation r3 c := (range_123 O KH3 KW3 (fun o h k => W3 o c h k)).
Local Abbreviation raw1 c :=
  (fdiv (Fin (r1 c)) (fpow (fmul (fmul (Fin (r1 c)) (Fin (r2 c))) (Fin (r3 c))) (1 / 3))).
Local Abbreviation raw2 c :=
  (fdiv (fpow (fmul (fmul (Fin (r1 c)) (Fin (r3 c))) (Fin (r2 c))) (1 / 3)) (Fin (r3 c))).

Lemma cdc_real_ranges c :
  at1 (abs_amax_123 weight1) c = Fin (r1 c)
  /\ at1 (abs_amax_123 weight2) c = Fin (r2 c)
  /\ at1 (abs_amax_123 (permute_1023 weight3)) c = Fin (r3 c).
Proof.
  repeat split.
  - now apply abs_amax_real.
  - now apply abs_amax_real.
  - change (permute_1023 weight3)
      with (real4 C O KH3 KW3 (fun a b c d => W3 b a c d)).
    now apply abs_amax_real.
Qed.

Lemma equalize_cdc_real_ok :
  exists w1' b1' w2' b2' w3' s1 s2,
    equalize_cdc weight1 (Some (real1 C B1)) weight2 (Some (real1 C B2)) weight3 threshold
    = Ok (w1', b1', w2', b2', w3', (s1, s2))
    /\ (forall c, at1 s1 c = clamp_s1 threshold (raw1 c) (raw2 c))
    /\ (forall c, at1 s2 c = clamp_s2 threshold (raw1 c) (raw2 c))
    /\ (forall c i h k,
          at4 w1' c i h k = fmul (Fin (W1 c i h k)) (fdiv (Fin 1) (at1 s1 c)))
    /\ (forall c, at1 b1' c = fmul (Fin (B1 c)) (fdiv (Fin 1) (at1 s1 c)))
    /\ (forall c i h k,
          at4 w2' c i h k = fdiv (fmul (Fin (W2 c i h k)) (at1 s1 c)) (at1 s2 c))
    /\ (forall c, at1 b2' c = fmul (Fin (B2 c)) (fdiv (Fin 1) (at1 s2 c)))
    /\ (forall o c h k, at4 w3' o c h k = fmul (Fin (W3 o c h k)) (at1 s2 c)).
Proof.
  unfold equalize_cdc.
  rewrite (cdc_shapes_ok C I KH KW I2 KH2 KW2 O KH3 KW3 W1 W2 W3) by assumption.
  cbn [real1 size1 where_gt cdc_s1 cdc_s2 map2_1 pow_third map_1 abs_amax_123 real4 permute_1023 dim0 dim1].
  rewrite Nat.eqb_refl. cbn [negb andb].
  do 7 eexists. split; [reflexivity|].
  assert (Hraw1 : forall c,
    at1 (cdc_s1 (abs_amax_123 weight1) (abs_amax_123 weight2)
                (abs_amax_123 (permute_1023 weight3))) c = raw1 c).
  { intros c. unfold cdc_s1, pow_third. cbn [map2_1 map_1 at1].
    destruct (cdc_real_ranges c) as (E1 & E2 & E3). now rewrite E1, E2, E3. }
  assert (Hraw2 : forall c,
    at1 (cdc_s2 (abs_amax_123 weight1) (abs_amax_123 weight2)
                (abs_amax_123 (permute_1023 weight3))) c = raw2 c).
  { intros c. unfold cdc_s2, pow_third. cbn [map2_1 map_1 at1].
    destruct (cdc_real_ranges c) as (E1 & E2 & E3). now rewrite E1, E2, E3. }
  assert (Hs1 : forall c,
    at1 (where_gt
           (map2_1 fdiv
              (cdc_s1 (abs_amax_123 weight1) (abs_amax_123 weight2)
                 (abs_amax_123 (permute_1023 weight3)))
              (cdc_s2 (abs_amax_123 weight1) (abs_amax_123 weight2)
                 (abs_amax_123 (permute_1023 weight3))))
           threshold
           (ones (size1 (cdc_s1 (abs_amax_123 weight1) (abs_amax_123 weight2)
                           (abs_amax_123 (permute_1023 weight3)))))
           (cdc_s1 (abs_amax_123 weight1) (abs_amax_123 weight2)
              (abs_amax_123 (permute_1023 weight3)))) c
    = clamp_s1 threshold (raw1 c) (raw2 c)).
  { intros c. unfold where_gt. cbn [at1 map2_1 ones]. now rewrite Hraw1, Hraw2. }
  repeat split; intros; cbn [at1 at4 where_gt map2_1 map_1 scale_dim0 permute_1023 real4 real1 ones];
    try reflexivity.
  - apply Hs1.
  - unfold clamp_s2. pose proof (Hs1 c) as E. unfold where_gt in E.
    cbn [at1 map2_1 ones] in E. rewrite E. now rewrite Hraw2.
Qed.
End Equalize_cdc_on_reals.

(** ** The equalization formulas *)



(** ** Rounding to binary64 *)

Lemma cdc_scales_exact w1 b1 w2 b2 w3 threshold w1' b1' w2' b2' w3' s1 s2 :
  equalize_cdc w1 b1 w2 b2 w3 threshold = Ok (w1', b1', w2', b2', w3', (s1, s2)) ->
  cdc_scales_with (fun x => x) (fun x => fpow x (1 / 3)) w1 w2 w3 threshold = (s1, s2).
Proof.
  unfold equalize_cdc. destruct (negb _); [discriminate|].
  destruct b1 as [b1|]; [|discriminate]. destruct b2 as [b2|]; [|discriminate].
  destruct (negb _); [discriminate|]. intros E. inversion E; subst. reflexivity.
Qed.


























Lemma equalize_scale_exact w1 b w2 w1' b' w2' s :
  equalize w1 b w2 = Ok (w1', b', w2', s) ->
  equalize_scale_with (fun x => x) w1 w2 = s.
Proof.
  unfold equalize. destruct (negb _); [discriminate|].
  destruct b as [b|]; [|discriminate].
  destruct (negb _); [discriminate|]. intros E. inversion E; subst. reflexivity.
Qed.






















Lemma apply_activation_Fin a c r :
  apply_activation a c (Fin r) = Fin (activation_real a c r).
Proof.
  destruct a; cbn; unfold leaky_real; try destruct (Rle_dec 0 r); reflexivity.
Qed.

Lemma leaky_real_homogeneous slope k r : 0 < k -> leaky_real slope (k * r) = k * leaky_real slope r.
Proof.
  intros Hk. unfold leaky_real.
  destruct (Rle_dec 0 r) as [Hr|Hr]; destruct (Rle_dec 0 (k * r)) as [Hkr|Hkr]; try ring.
  - exfalso. apply Hkr. now apply Rmult_le_pos; [lra|].
  - exfalso. apply Hr. nra.
Qed.

Lemma activation_positive_homogeneous a c k r :
  0 < k -> activation_real a c (k * r) = k * activation_real a c r.
Proof.
  intros Hk. destruct a; cbn; try apply leaky_real_homogeneous; auto.
  rewrite <- RmaxRmult by lra. now rewrite Rmult_0_r.
Qed.

Lemma conv2d_at_Fin (weight : Tensor4) (bias : Tensor1) (Wr T : nat -> nat -> nat -> R)
    (Br : R) (o : nat) :
  (forall i h w, (i < dim1 weight)%nat -> (h < dim2 weight)%nat -> (w < dim3 weight)%nat ->
                 at4 weight o i h w = Fin (Wr i h w)) ->
  at1 bias o = Fin Br ->
  conv2d_at weight bias (fun i h w => Fin (T i h w)) o
  = Fin (Rsum (map (fun '(i, h, w) => Wr i h w * T i h w)
                   (index3 (dim1 weight) (dim2 weight) (dim3 weight))) + Br).
Proof.
  intros Hw Hb. unfold conv2d_at. rewrite Hb.
  rewrite (map_ext_in _ (fun x => Fin ((fun '(i, h, w) => Wr i h w * T i h w) x))).
  - rewrite <- (map_map _ Fin). rewrite fsum_Fin. reflexivity.
  - intros [[i h] w] Hin. apply index3_in in Hin. destruct Hin as (Hi & Hh & Hk).
    now rewrite Hw.
Qed.

Lemma fsum_map_ext {A} (f g : A -> fp) l :
  (forall a, In a l -> f a = g a) -> fsum (map f l) = fsum (map g l).
Proof. intros H. f_equal. now apply map_ext_in. Qed.

Lemma conv2d_at_ext w b t w' b' t' o :
  dim1 w = dim1 w' -> dim2 w = dim2 w' -> dim3 w = dim3 w' ->
  at1 b o = at1 b' o ->
  (forall i h k, (i < dim1 w')%nat -> (h < dim2 w')%nat -> (k < dim3 w')%nat ->
     fmul (at4 w o i h k) (t i h k) = fmul (at4 w' o i h k) (t' i h k)) ->
  conv2d_at w b t o = conv2d_at w' b' t' o.
Proof.
  intros E1 E2 E3 Eb Ht. unfold conv2d_at. rewrite E1, E2, E3, Eb. f_equal.
  apply fsum_map_ext. intros [[i h] k] Hin. apply index3_in in Hin.
  destruct Hin as (Hi & Hh & Hk). now apply Ht.
Qed.

(** C2 (amended): for two convolutions whose weights are finite and whose
    channels all have a non-zero range (some non-zero weight in every output
    channel of the first and in every input channel of the second), and for
    each of the activations ReLU, LeakyReLU, PReLU and Identity between them,
    [conv2(activation(conv1(x)))] has the same value before and after
    [equalize], for every finite input.  In real arithmetic. *)
Theorem equalize_preserves_two_layer_function
    (a : activation) (C I KH KW O KH2 KW2 : nat)
    (W1 : nat -> nat -> nat -> nat -> R) (B1 : nat -> R)
    (W2 : nat -> nat -> nat -> nat -> R) (B2 : nat -> R) :
  (0 < I)%nat -> (0 < KH)%nat -> (0 < KW)%nat ->
  (0 < O)%nat -> (0 < KH2)%nat -> (0 < KW2)%nat ->
  (forall c, (c < C)%nat -> has_nonzero_out I KH KW W1 c /\ has_nonzero_in O KH2 KW2 W2 c) ->
  let weight1 := real4 C I KH KW W1 in
  let bias1 := real1 C B1 in
  let weight2 := real4 O C KH2 KW2 W2 in
  let bias2 := real1 O B2 in
  exists w1' b1' w2' s,
    equalize weight1 (Some bias1) weight2 = Ok (w1', b1', w2', s)
    /\ forall (X : nat -> nat -> nat -> nat -> nat -> R) (site : nat -> nat -> option nat) (o : nat),
         two_layer a w1' b1' w2' bias2 (fun q c i h w => Fin (X q c i h w)) site o
         = two_layer a weight1 bias1 weight2 bias2 (fun q c i h w => Fin (X q c i h w)) site o.
Proof.
  intros HI HKH HKW HO HKH2 HKW2 Hnz weight1 bias1 weight2 bias2.
  destruct (equalize_real_ok C I KH KW O KH2 KW2 W1 B1 W2 HI HKH HKW HO HKH2 HKW2)
    as (w1' & b1' & w2' & s & E & Hs & Hw1 & Hb1 & Hw2 & D0 & D1 & D2 & D3 & E0 & E1 & E2 & E3 & _).
  exists w1', b1', w2', s. split; [exact E|]. intros X site o.
  assert (Hscale : forall c, (c < C)%nat -> exists S, 0 < S /\ at1 s c = Fin S).
  { intros c Hc. destruct (Hnz c Hc) as [(i & h & k & Hi & Hh & Hk & Hne)
                                          (o' & h' & k' & Ho' & Hh' & Hk' & Hne')].
    pose proof (range_123_pos I KH KW (W1 c) i h k Hi Hh Hk Hne) as Hr1.
    pose proof (range_123_pos O KH2 KW2 (fun o h k => W2 o c h k) o' h' k' Ho' Hh' Hk' Hne') as Hr2.
    destruct (scale_positive I KH KW O KH2 KW2 W1 W2 c Hr1 Hr2) as [Ev Hpos].
    eexists. split; [exact Hpos|]. now rewrite Hs. }
  unfold two_layer. apply conv2d_at_ext; try assumption; [reflexivity|].
  cbn [weight2 real4 dim1 dim2 dim3]. intros c h k Hc Hh Hk.
  destruct (Hscale c Hc) as (S & HS & HsS).
  rewrite Hw2, HsS. cbn [at4 fmul].
  destruct (site h k) as [q|].
  - rewrite (conv2d_at_Fin w1' b1' (fun i h w => W1 c i h w / S) (X q c) (B1 c / S) c).
    + rewrite (conv2d_at_Fin weight1 bias1 (fun i h w => W1 c i h w) (X q c) (B1 c) c);
        [|reflexivity|reflexivity].
      rewrite !apply_activation_Fin. cbn [fmul].
      rewrite D1, D2, D3. cbn [weight1 real4 dim1 dim2 dim3].
      set (l := index3 I KH KW).
      rewrite (Rsum_map_ext (fun '(i, h0, w) => W1 c i h0 w / S * X q c i h0 w)
                 (fun x => (fun '(i, h0, w) => W1 c i h0 w * X q c i h0 w) x * / S) l).
      * rewrite (Rsum_map_scale (fun '(i, h0, w) => W1 c i h0 w * X q c i h0 w) (/ S) l).
        set (V := Rsum (map (fun '(i, h0, w) => W1 c i h0 w * X q c i h0 w) l)).
        replace (V * / S + B1 c / S) with (/ S * (V + B1 c)) by (field; lra).
        rewrite activation_positive_homogeneous by (apply Rinv_0_lt_compat; lra).
        cbn [weight2 real4 at4 fmul]. f_equal. field. lra.
      * intros [[i h0] w] _. field. lra.
    + intros i h0 w _ _ _. rewrite Hw1, HsS. apply fdiv_Fin. lra.
    + rewrite Hb1, HsS. apply fdiv_Fin. lra.
  - cbn [weight2 real4 at4 fmul]. f_equal. ring.
Qed.

(** The values the two layers compute after and before [equalize] when the
    range of a channel is zero. *)
Lemma equalize_zero_range_values :
  exists w1' b1' w2' s,
    equalize degenerate_w1 (Some degenerate_b1) degenerate_w2 = Ok (w1', b1', w2', s)
    /\ two_layer Act_ReLU w1' b1' w2' degenerate_b2
         (fun _ _ _ _ _ => Fin 0) (fun _ _ => Some 0%nat) 0
       = NaN
    /\ two_layer Act_ReLU degenerate_w1 degenerate_b1 degenerate_w2 degenerate_b2
         (fun _ _ _ _ _ => Fin 0) (fun _ _ => Some 0%nat) 0
       = Fin 1.
Proof.
  do 4 eexists. split; [reflexivity|].
  unfold two_layer, conv2d_at, fsum. cbn.
  rewrite Rabs_R0. rewrite Rmult_0_l.
  rewrite is_neg_false by lra. rewrite sqrt_0. rewrite is_zero_true.
  split; [reflexivity|].
  rewrite Rmult_0_l, Rplus_0_l, Rplus_0_l.
  rewrite Rmax_right by lra. f_equal. lra.
Qed.

Lemma range_123_single (x : R) : range_123 1 1 1 (fun _ _ _ => x) = Rabs x.
Proof. reflexivity. Qed.

(** C1 (the code at a channel the clamp is meant for): with
    [threshold = 1000] and ranges [8e9, 1, 1] the unclamped factors are
    [s1 = 4e6] and [s2 = 2000], so [s1 / s2 > threshold].  The first
    [torch.where] resets [s1] to 1; the second one tests the new [s1], finds
    [1 / 2000 <= threshold] and keeps [s2 = 2000]: weight2, bias2 and weight3
    of the channel are rescaled. *)
Theorem equalize_cdc_clamps_only_s1 :
  exists w1' b1' w2' b2' w3' s1 s2,
    equalize_cdc outlier_w1 (Some outlier_b1) outlier_w2 (Some outlier_b2) outlier_w3 1000
    = Ok (w1', b1', w2', b2', w3', (s1, s2))
    /\ fgt (fdiv (at1 (cdc_s1 (abs_amax_123 outlier_w1) (abs_amax_123 outlier_w2)
                          (abs_amax_123 (permute_1023 outlier_w3))) 0)
                 (at1 (cdc_s2 (abs_amax_123 outlier_w1) (abs_amax_123 outlier_w2)
                          (abs_amax_123 (permute_1023 outlier_w3))) 0))
           (Fin 1000) = true
    /\ at1 s1 0 = Fin 1
    /\ at1 s2 0 = Fin 2000
    /\ at4 w2' 0 0 0 0 = Fin (1 / 2000)
    /\ at1 b2' 0 = Fin (1 / 2000)
    /\ at4 w3' 0 0 0 0 = Fin 2000.
Proof.
  destruct (equalize_cdc_real_ok 1 1 1 1 1 1 1 1 1 1
              (fun _ _ _ _ => 8000000000) (fun _ => 1) (fun _ _ _ _ => 1) (fun _ => 1)
              (fun _ _ _ _ => 1) 1000) as
    (w1' & b1' & w2' & b2' & w3' & s1 & s2 & E & Hs1 & Hs2 & Hw1 & Hb1 & Hw2 & Hb2 & Hw3);
    try lia.
  exists w1', b1', w2', b2', w3', s1, s2. split; [exact E|].
  assert (Hraw1 : fdiv (Fin (Rabs 8000000000))
                    (fpow (fmul (fmul (Fin (Rabs 8000000000)) (Fin (Rabs 1))) (Fin (Rabs 1)))
                          (1 / 3)) = Fin 4000000).
  { rewrite !Rabs_right by lra. cbn [fmul].
    replace (8000000000 * 1 * 1) with (2000 * 2000 * 2000) by lra.
    rewrite fpow_Fin by lra. rewrite cube_root_cube by lra.
    rewrite fdiv_Fin by lra. f_equal. lra. }
  assert (Hraw2 : fdiv (fpow (fmul (fmul (Fin (Rabs 8000000000)) (Fin (Rabs 1))) (Fin (Rabs 1)))
                          (1 / 3)) (Fin (Rabs 1)) = Fin 2000).
  { rewrite !Rabs_right by lra. cbn [fmul].
    replace (8000000000 * 1 * 1) with (2000 * 2000 * 2000) by lra.
    rewrite fpow_Fin by lra. rewrite cube_root_cube by lra.
    rewrite fdiv_Fin by lra. f_equal. lra. }
  assert (Hc1 : clamp_s1 1000 (Fin 4000000) (Fin 2000) = Fin 1).
  { unfold clamp_s1. rewrite fdiv_Fin by lra. rewrite fgt_Fin_true by lra. reflexivity. }
  assert (Hc2 : clamp_s2 1000 (Fin 4000000) (Fin 2000) = Fin 2000).
  { unfold clamp_s2. rewrite Hc1. rewrite fdiv_Fin by lra.
    rewrite fgt_Fin_false by lra. reflexivity. }
  specialize (Hs1 0%nat). specialize (Hs2 0%nat).
  rewrite !range_123_single in Hs1, Hs2. rewrite Hraw1, Hraw2 in Hs1, Hs2.
  rewrite Hc1 in Hs1. rewrite Hc2 in Hs2.
  repeat split.
  - unfold cdc_s1, cdc_s2, pow_third. cbn [map2_1 map_1 at1].
    unfold outlier_w1, outlier_w2, outlier_w3.
    change (permute_1023 (real4 1 1 1 1 (fun _ _ _ _ => 1)))
      with (real4 1 1 1 1 (fun _ _ _ _ : nat => 1)).
    rewrite !abs_amax_real by lia. rewrite !range_123_single.
    rewrite Hraw1, Hraw2. rewrite fdiv_Fin by lra. apply fgt_Fin_true. lra.
  - exact Hs1.
  - exact Hs2.
  - rewrite Hw2, Hs1, Hs2. cbn [fmul]. rewrite fdiv_Fin by lra. f_equal. lra.
  - rewrite Hb2, Hs2. rewrite fdiv_Fin by lra. cbn [fmul]. f_equal. lra.
  - rewrite Hw3, Hs2. cbn [fmul]. f_equal. lra.
Qed.

(** ** Batch-norm co-scaling *)

Lemma equalize_bias_inv w1 b w2 w1' b' w2' s :
  equalize w1 (Some b) w2 = Ok (w1', b', w2', s) ->
  forall ch, at1 b' ch = fdiv (at1 b ch) (at1 s ch).
Proof.
  unfold equalize. destruct (negb _); [discriminate|].
  destruct (negb (size1 b =? _)%nat); [discriminate|].
  intros E ch. inversion E; subst. reflexivity.
Qed.

Lemma equalize_cdc_bias_inv w1 b1 w2 b2 w3 threshold w1' b1' w2' b2' w3' s1 s2 :
  equalize_cdc w1 (Some b1) w2 (Some b2) w3 threshold
  = Ok (w1', b1', w2', b2', w3', (s1, s2)) ->
  forall ch, at1 b1' ch = fmul (at1 b1 ch) (fdiv (Fin 1) (at1 s1 ch))
             /\ at1 b2' ch = fmul (at1 b2 ch) (fdiv (Fin 1) (at1 s2 ch)).
Proof.
  unfold equalize_cdc. destruct (negb _); [discriminate|].
  destruct (negb (_ && _)); [discriminate|].
  intros E ch. inversion E; subst. split; reflexivity.
Qed.

Lemma conv_of_Conv2d model m conv :
  model (mod_key m) = Some (Conv2dObj conv) -> conv_of model m = Ok conv.
Proof. intros H. unfold conv_of. now rewrite H. Qed.

Lemma setattr_same model k obj : setattr model k obj k = Some obj.
Proof. unfold setattr. now rewrite String.eqb_refl. Qed.

Lemma setattr_other model k obj k' : k' <> k -> setattr model k obj k' = model k'.
Proof.
  intros H. unfold setattr. destruct (String.eqb k' k) eqn:E; [|reflexivity].
  apply String.eqb_eq in E. contradiction.
Qed.

Lemma bn_scale_co_scaled w b bn s :
  bn_co_scaled s bn (fused_bn_ (bn_scale (mkConv w b bn) (reciprocal s))).
Proof.
  unfold bn_scale. cbn [fused_bn_ weight bias]. destruct bn as [bn|]; cbn; [|exact I].
  intros ch. split; reflexivity.
Qed.

Lemma bn_scale_weight_bias w b bn s :
  bn_scale (mkConv w b bn) s = mkConv w b (fused_bn_ (bn_scale (mkConv w b bn) s)).
Proof. unfold bn_scale. cbn [fused_bn_ weight bias]. now destruct bn. Qed.

Lemma equalize_Ok_bias w1 b w2 r : equalize w1 b w2 = Ok r -> exists b0, b = Some b0.
Proof.
  unfold equalize. destruct (negb _); [discriminate|].
  destruct b as [b0|]; [|discriminate]. intros _. now exists b0.
Qed.

Lemma equalize_cdc_Ok_bias w1 b1 w2 b2 w3 threshold r :
  equalize_cdc w1 b1 w2 b2 w3 threshold = Ok r ->
  exists b0 b1', b1 = Some b0 /\ b2 = Some b1'.
Proof.
  unfold equalize_cdc. destruct (negb _); [discriminate|].
  destruct b1 as [b0|]; [|discriminate]. destruct b2 as [b1'|]; [|discriminate].
  intros _. now exists b0, b1'.
Qed.

(** C7: when [_weight_equal_helper] equalizes a group, each layer whose
    convolution bias it rescales is treated on its own: if the layer carries a
    fused batch-norm, the weight and the bias of that batch-norm are
    multiplied by [1 / s] on every channel, for the very [s] by which the
    layer's convolution bias is divided, and if it carries none, it carries
    none afterwards.  [s] is the scale of [equalize] for the first layer of a
    2-group, and [s1], [s2] of [equalize_cdc] for the first and the second
    layer of a 3-group, whichever of the two carries a batch-norm.  The last
    layer of a group keeps its bias and its batch-norm. *)
Theorem fused_bn_scaled_like_conv_bias (model : Model) (threshold : R) :
  (forall (l0 l1 : Layer) (c0 c1 : Conv) w1' b0' w2' s,
     model (mod_key (snd l0)) = Some (Conv2dObj c0) ->
     model (mod_key (snd l1)) = Some (Conv2dObj c1) ->
     mod_key (snd l0) <> mod_key (snd l1) ->
     equalize (weight c0) (bias c0) (weight c1) = Ok (w1', b0', w2', s) ->
     exists model' b0 bn0',
       _weight_equal_helper [l0; l1] threshold model = Ok model'
       /\ bias c0 = Some b0
       /\ model' (mod_key (snd l0)) = Some (Conv2dObj (mkConv w1' (Some b0') bn0'))
       /\ (forall ch, at1 b0' ch = fdiv (at1 b0 ch) (at1 s ch))
       /\ bn_co_scaled s (fused_bn_ c0) bn0'
       /\ model' (mod_key (snd l1)) = Some (Conv2dObj (mkConv w2' (bias c1) (fused_bn_ c1))))
  /\
  (forall (l0 l1 l2 : Layer) (c0 c1 c2 : Conv) w1' b0' w2' b1' w3' s1 s2,
     model (mod_key (snd l0)) = Some (Conv2dObj c0) ->
     model (mod_key (snd l1)) = Some (Conv2dObj c1) ->
     model (mod_key (snd l2)) = Some (Conv2dObj c2) ->
     mod_key (snd l0) <> mod_key (snd l1) ->
     mod_key (snd l0) <> mod_key (snd l2) ->
     mod_key (snd l1) <> mod_key (snd l2) ->
     is_normal_conv (snd l0) && is_dw_conv (snd l1) && is_normal_conv (snd l2) = true ->
     equalize_cdc (weight c0) (bias c0) (weight c1) (bias c1) (weight c2) threshold
     = Ok (w1', b0', w2', b1', w3', (s1, s2)) ->
     exists model' b0 b1 bn0' bn1',
       _weight_equal_helper [l0; l1; l2] threshold model = Ok model'
       /\ bias c0 = Some b0 /\ bias c1 = Some b1
       /\ model' (mod_key (snd l0)) = Some (Conv2dObj (mkConv w1' (Some b0') bn0'))
       /\ model' (mod_key (snd l1)) = Some (Conv2dObj (mkConv w2' (Some b1') bn1'))
       /\ (forall ch, at1 b0' ch = fmul (at1 b0 ch) (fdiv (Fin 1) (at1 s1 ch))
                      /\ at1 b1' ch = fmul (at1 b1 ch) (fdiv (Fin 1) (at1 s2 ch)))
       /\ bn_co_scaled s1 (fused_bn_ c0) bn0'
       /\ bn_co_scaled s2 (fused_bn_ c1) bn1'
       /\ model' (mod_key (snd l2)) = Some (Conv2dObj (mkConv w3' (bias c2) (fused_bn_ c2)))).
Proof.
  split.
  - intros l0 l1 c0 c1 w1' b0' w2' s M0 M1 N01 E.
    destruct (equalize_Ok_bias _ _ _ _ E) as [b0 Hb0].
    eexists. exists b0. eexists.
    split; [|split; [exact Hb0|split; [|split; [|split]]]].
    + unfold _weight_equal_helper. cbn [map].
      rewrite (conv_of_Conv2d _ _ _ M0), (conv_of_Conv2d _ _ _ M1). cbn [bind].
      rewrite E. reflexivity.
    + rewrite setattr_other by assumption. rewrite setattr_same.
      rewrite bn_scale_weight_bias. reflexivity.
    + rewrite Hb0 in E. exact (equalize_bias_inv _ _ _ _ _ _ _ E).
    + apply bn_scale_co_scaled.
    + apply setattr_same.
  - intros l0 l1 l2 c0 c1 c2 w1' b0' w2' b1' w3' s1 s2 M0 M1 M2 N01 N02 N12 Hshape E.
    destruct (equalize_cdc_Ok_bias _ _ _ _ _ _ _ E) as (b0 & b1 & Hb0 & Hb1).
    eexists. exists b0, b1. do 2 eexists.
    split; [|split; [exact Hb0|split; [exact Hb1|split; [|split; [|split; [|split; [|split]]]]]]].
    + unfold _weight_equal_helper. cbn [map]. rewrite Hshape. cbn [negb].
      rewrite (conv_of_Conv2d _ _ _ M0), (conv_of_Conv2d _ _ _ M1),
        (conv_of_Conv2d _ _ _ M2). cbn [bind].
      rewrite E. reflexivity.
    + rewrite setattr_other by assumption. rewrite setattr_other by assumption.
      rewrite setattr_same. rewrite bn_scale_weight_bias. reflexivity.
    + rewrite setattr_other by assumption. rewrite setattr_same.
      rewrite bn_scale_weight_bias. reflexivity.
    + rewrite Hb0, Hb1 in E. exact (equalize_cdc_bias_inv _ _ _ _ _ _ _ _ _ _ _ _ _ E).
    + apply bn_scale_co_scaled.
    + apply bn_scale_co_scaled.
    + apply setattr_same.
Qed.


(** ** Bias absorption: the guards *)

Lemma getattr_Some model name obj : model name = Some obj -> getattr model name = Ok obj.
Proof. intros H. unfold getattr. now rewrite H. Qed.



(** C10: the second type test of the helper looks at the producer twice, so a
    Conv2d producer passes it whatever the consumer is; and when the producer
    is neither a ConvBnTrain nor a Conv2d, no branch binds [pre_bn] and the
    helper raises UnboundLocalError instead of returning. *)
Theorem producer_of_other_type_raises
    (layer1 layer2 : string * Module) (model origin_model : Model)
    (pre_layer cur_layer : LayerObj) :
  hasattr_bias (snd layer1) = true ->
  hasattr_bias (snd layer2) = true ->
  model (fst layer1) = Some pre_layer ->
  model (fst layer2) = Some cur_layer ->
  isinstance_obj pre_layer ConvBnTrain = false ->
  isinstance_obj pre_layer Conv2d = false ->
  bias_absorb_helper_ layer1 layer2 model origin_model = Err UnboundLocalError
  /\ (forall pre cur, isinstance_obj pre Conv2d = true -> bind_pre_bn pre cur <> Unbound).
Proof.
  intros H1 H2 M1 M2 T1 T2. split.
  - unfold bias_absorb_helper_. rewrite H1, H2. cbn [negb orb].
    rewrite (getattr_Some _ _ _ M1), (getattr_Some _ _ _ M2). cbn [bind].
    unfold bind_pre_bn. rewrite T1, T2. reflexivity.
  - intros pre cur Hpre. unfold bind_pre_bn.
    destruct pre; try discriminate. cbn.
    destruct (fused_bn_ conv); [|discriminate].
    destruct (fused_bn_of cur); [|discriminate].
    destruct cur; discriminate.
Qed.

(** ** The driver *)

Lemma cle_loop_last trace n : forall threshold groups model,
  cle_loop trace (S n) threshold groups model
  = ('(_, m) <- cle_loop trace n threshold groups model ;;
     m' <- equalize_groups (get_cls_set (trace m)) threshold m ;;
     Ok (Some (get_cls_set (trace m)), m')).
Proof.
  induction n as [|n IH]; intros threshold groups model.
  - cbn [cle_loop bind]. unfold _cross_layer_equalize.
    destruct (equalize_groups _ threshold model); reflexivity.
  - change (cle_loop trace (S (S n)) threshold groups model)
      with ('(g, m) <- _cross_layer_equalize trace model threshold ;;
            cle_loop trace (S n) threshold (Some g) m).
    change (cle_loop trace (S n) threshold groups model)
      with ('(g, m) <- _cross_layer_equalize trace model threshold ;;
            cle_loop trace n threshold (Some g) m).
    destruct (_cross_layer_equalize trace model threshold) as [[g m]|e]; [|reflexivity].
    cbn [bind]. apply IH.
Qed.

(** C9: with [cle_iters = 0] and [hba_flag] set, [layers_groups] is never
    bound and the call raises UnboundLocalError; with [cle_iters = n + 1] the
    groups given to the absorption are those discovered by the last pass, on
    the graph of the model that [n] passes have produced. *)
Theorem absorption_uses_groups_of_last_pass
    (model_rewrite model_fuse_bn : Model -> Model) (trace : Model -> TraceGraph)
    (model : Model) (threshold : R) :
  cross_layer_equalize model_rewrite model_fuse_bn trace model threshold 0 true
  = Err UnboundLocalError
  /\ forall n,
       cross_layer_equalize model_rewrite model_fuse_bn trace model threshold (S n) true
       = ('(_, m) <- cle_loop trace n threshold None (model_fuse_bn (model_rewrite model)) ;;
          m' <- equalize_groups (get_cls_set (trace m)) threshold m ;;
          m'' <- high_bias_absorb m' (get_cls_set (trace m)) ;;
          Ok (clear_model_fused_bn m'')).
Proof.
  split; [reflexivity|]. intros n. unfold cross_layer_equalize.
  rewrite cle_loop_last.
  destruct (cle_loop trace n threshold None _) as [[g m]|e]; [|reflexivity].
  cbn [bind]. destruct (equalize_groups _ threshold m); reflexivity.
Qed.

(** ** Bias absorption: the arithmetic *)

Lemma flat_map_map_Fin {A B} (f : A -> B -> R) (l1 : list A) (l2 : list B) :
  flat_map (fun h => map (fun w => Fin (f h w)) l2) l1
  = map Fin (flat_map (fun h => map (f h) l2) l1).
Proof.
  induction l1 as [|a r IH]; [reflexivity|]. cbn [flat_map].
  rewrite map_app, IH. f_equal. now rewrite map_map.
Qed.

Lemma clip_negative x :
  (if flt (Fin x) (Fin 0) then Fin 0 else Fin x) = Fin (Rmax 0 x).
Proof.
  unfold flt, fgt. destruct (Rlt_dec x 0).
  - now rewrite Rmax_left by lra.
  - now rewrite Rmax_right by lra.
Qed.

Lemma absorbable_real C BNW BNB :
  exists cv,
    absorbable (mkBatchNorm (real1 C BNW) (real1 C BNB)) = Ok cv
    /\ size1 cv = C
    /\ forall ch, at1 cv ch = Fin (absorbed BNW BNB ch).
Proof.
  unfold absorbable, broadcast1. cbn [bn_bias bn_weight real1 map_1 size1].
  rewrite Nat.eqb_refl. cbn [bind]. eexists. split; [reflexivity|].
  split; [reflexivity|]. intros ch. cbn [map_1 map2_1 at1 real1].
  cbn [fabs fmul]. unfold fsub. cbn [fneg fadd].
  rewrite clip_negative. reflexivity.
Qed.

Lemma bias_correction_real (cur : Conv) (cv : Tensor1) O I KH KW C W (c : nat -> R) :
  weight cur = real4 O I KH KW W ->
  size1 cv = C ->
  (forall ch, at1 cv ch = Fin (c ch)) ->
  (I = 1%nat /\ O = C) \/ I = C ->
  exists corr,
    bias_correction cur cv = Ok corr
    /\ size1 corr = O
    /\ forall o, at1 corr o = Fin (correction O I KH KW C W c o).
Proof.
  intros Hw Hsize Hc Hshape. unfold bias_correction. rewrite Hw.
  cbn [sum_23 cols2 real4 dim1]. unfold correction.
  destruct (I =? 1)%nat eqn:EI.
  - apply Nat.eqb_eq in EI. subst I. unfold broadcast1.
    cbn [reshape_column size1 rows2 sum_23 real4 dim0]. rewrite Hsize.
    destruct (O =? C)%nat eqn:EO.
    + eexists. split; [reflexivity|]. split; [reflexivity|]. intros o.
      cbn [map2_1 at1 andb reshape_column at2 sum_23 real4 at4 dim2 dim3].
      rewrite (flat_map_map_Fin (fun h w => W o 0%nat h w)), fsum_Fin, Hc. reflexivity.
    + assert (HC : C = 1%nat).
      { destruct Hshape as [[_ H]|H]; [|now symmetry].
        apply Nat.eqb_neq in EO. contradiction. }
      rewrite HC in EO |- *. rewrite EO. cbn [Nat.eqb].
      eexists. split; [reflexivity|]. split; [reflexivity|]. intros o.
      cbn [at1 andb seq map reshape_column at2 sum_23 real4 at4 dim2 dim3].
      rewrite (flat_map_map_Fin (fun h w => W o 0%nat h w)), fsum_Fin, Hc.
      cbn [fmul]. f_equal. unfold kernel_sum, Rsum. cbn [fold_left]. lra.
  - assert (HC : I = C).
    { destruct Hshape as [[H _]|H]; [|assumption].
      apply Nat.eqb_neq in EI. contradiction. }
    unfold matmul. cbn [cols2 rows2 sum_23 real4 dim0 dim1]. rewrite Hsize, HC, Nat.eqb_refl.
    eexists. split; [reflexivity|]. split; [reflexivity|]. intros o.
    cbn [at1 andb].
    rewrite (map_ext _ (fun i => Fin (kernel_sum KH KW (W o i) * c i))).
    + rewrite <- (map_map (fun i => kernel_sum KH KW (W o i) * c i) Fin).
      apply fsum_Fin.
    + intros i. cbn [at2 sum_23 real4 at4 dim2 dim3].
      rewrite (flat_map_map_Fin (fun h w => W o i h w)), fsum_Fin, Hc. reflexivity.
Qed.

Lemma absorbed_nonneg BNW BNB ch : 0 <= absorbed BNW BNB ch.
Proof. unfold absorbed. apply Rmax_l. Qed.


(** ** Instances *)


Lemma equalize_preserves_two_layer_function_witness :
  exists w1' b1' w2' s,
    equalize (real4 1 1 1 1 (fun _ _ _ _ => 2)) (Some (real1 1 (fun _ => 1)))
             (real4 1 1 1 1 (fun _ _ _ _ => 3))
    = Ok (w1', b1', w2', s)
    /\ two_layer Act_ReLU w1' b1' w2' (real1 1 (fun _ => 0))
         (fun _ _ _ _ _ => Fin 1) (fun _ _ => Some 0%nat) 0
       = two_layer Act_ReLU (real4 1 1 1 1 (fun _ _ _ _ => 2)) (real1 1 (fun _ => 1))
           (real4 1 1 1 1 (fun _ _ _ _ => 3)) (real1 1 (fun _ => 0))
           (fun _ _ _ _ _ => Fin 1) (fun _ _ => Some 0%nat) 0.
Proof.
  destruct (equalize_preserves_two_layer_function Act_ReLU 1 1 1 1 1 1 1
              (fun _ _ _ _ => 2) (fun _ => 1) (fun _ _ _ _ => 3) (fun _ => 0))
    as (w1' & b1' & w2' & s & E & H); try lia.
  { intros c Hc. split; exists 0%nat, 0%nat, 0%nat; repeat split; try lia; lra. }
  exists w1', b1', w2', s. split; [exact E|].
  exact (H (fun _ _ _ _ _ => 1) (fun _ _ => Some 0%nat) 0%nat).
Defined.

(** C2 (as stated): when the only output channel of the first convolution
    has weight zero, [s] is 0 / sqrt 0 = NaN, the equalized tensors hold NaN,
    and the two layers no longer compute what they computed. *)
Lemma equalize_breaks_zero_range_channel :
  exists w1' b1' w2' s,
    equalize degenerate_w1 (Some degenerate_b1) degenerate_w2 = Ok (w1', b1', w2', s)
    /\ two_layer Act_ReLU w1' b1' w2' degenerate_b2
         (fun _ _ _ _ _ => Fin 0) (fun _ _ => Some 0%nat) 0
       <> two_layer Act_ReLU degenerate_w1 degenerate_b1 degenerate_w2 degenerate_b2
            (fun _ _ _ _ _ => Fin 0) (fun _ _ => Some 0%nat) 0.
Proof.
  destruct equalize_zero_range_values as (w1' & b1' & w2' & s & E & Hafter & Hbefore).
  exists w1', b1', w2', s. split; [exact E|]. rewrite Hafter, Hbefore. discriminate.
Qed.

Lemma fused_bn_scaled_like_conv_bias_witness :
  (exists w1' b0' w2' s model' bn0',
     equalize (weight ex_pre) (bias ex_pre) (weight ex_cur) = Ok (w1', b0', w2', s)
     /\ _weight_equal_helper [ex_conv1; ex_conv2] 1000 ex_model = Ok model'
     /\ model' "conv1"%string = Some (Conv2dObj (mkConv w1' (Some b0') (Some bn0')))
     /\ bn_scaled_by s ex_bn bn0')
  /\ (exists w1' b0' w2' b1' w3' s1 s2 model' bn1',
        equalize_cdc (weight ex_last) (bias ex_last) (weight ex_cur) (bias ex_cur)
          (weight ex_last) 1000
        = Ok (w1', b0', w2', b1', w3', (s1, s2))
        /\ _weight_equal_helper [ex_cdc_first; ex_cdc_depth; ex_cdc_last] 1000 ex_cdc_model
           = Ok model'
        /\ model' "first"%string = Some (Conv2dObj (mkConv w1' (Some b0') None))
        /\ model' "depth"%string = Some (Conv2dObj (mkConv w2' (Some b1') (Some bn1')))
        /\ bn_scaled_by s2 ex_bn bn1').
Proof.
  split.
  - do 4 eexists.
    assert (E : equalize (weight ex_pre) (bias ex_pre) (weight ex_cur) = Ok (_, _, _, _))
      by reflexivity.
    destruct (proj1 (fused_bn_scaled_like_conv_bias ex_model 1000) ex_conv1 ex_conv2
                ex_pre ex_cur _ _ _ _ eq_refl eq_refl ltac:(discriminate) E)
      as (model' & b0 & bn0' & Hm & _ & Hk & _ & Hbn & _).
    destruct bn0' as [bn0'|]; [|destruct Hbn].
    exists model', bn0'. repeat split; try assumption; apply Hbn.
  - do 7 eexists.
    assert (E : equalize_cdc (weight ex_last) (bias ex_last) (weight ex_cur) (bias ex_cur)
                  (weight ex_last) 1000 = Ok (_, _, _, _, _, (_, _)))
      by reflexivity.
    destruct (proj2 (fused_bn_scaled_like_conv_bias ex_cdc_model 1000)
                ex_cdc_first ex_cdc_depth ex_cdc_last ex_last ex_cur ex_last
                _ _ _ _ _ _ _ eq_refl eq_refl eq_refl
                ltac:(discriminate) ltac:(discriminate) ltac:(discriminate) eq_refl E)
      as (model' & b0 & b1 & bn0' & bn1' & Hm & _ & _ & Hk0 & Hk1 & _ & Hbn0 & Hbn1 & _).
    destruct bn0' as [bn0'|]; [destruct Hbn0|].
    destruct bn1' as [bn1'|]; [|destruct Hbn1].
    exists model', bn1'. repeat split; try assumption; apply Hbn1.
Defined.


Lemma producer_of_other_type_raises_witness :
  bias_absorb_helper_ ex_conv1d ex_conv2 ex_model_1d ex_model_1d = Err UnboundLocalError.
Proof.
  apply (producer_of_other_type_raises ex_conv1d ex_conv2 ex_model_1d ex_model_1d
           OtherObj (Conv2dObj ex_cur)); reflexivity.
Defined.


(** * Further properties *)

Local Close Scope R_scope.

(** ** Discovery: the groups and the assertion of the equalization *)

Lemma conv_of_not_assertion model m e : conv_of model m = Err e -> e <> AssertionError.
Proof.
  unfold conv_of. destruct (model (mod_key m)) as [[| |]|]; intros E; inversion E; discriminate.
Qed.

Lemma equalize_not_assertion w1 b w2 e : equalize w1 b w2 = Err e -> e <> AssertionError.
Proof.
  unfold equalize. destruct (negb _); [intros E; inversion E; discriminate|].
  destruct b as [b|]; [|intros E; inversion E; discriminate].
  destruct (negb _); intros E; inversion E; discriminate.
Qed.

Lemma equalize_cdc_not_assertion w1 b1 w2 b2 w3 threshold e :
  equalize_cdc w1 b1 w2 b2 w3 threshold = Err e -> e <> AssertionError.
Proof.
  unfold equalize_cdc. destruct (negb _); [intros E; inversion E; discriminate|].
  destruct b1 as [b1|]; [|intros E; inversion E; discriminate].
  destruct b2 as [b2|]; [|intros E; inversion E; discriminate].
  destruct (negb _); intros E; inversion E; discriminate.
Qed.

Lemma supported_group_no_assertion (g : Group) threshold model :
  is_group_supported g = true ->
  _weight_equal_helper g threshold model <> Err AssertionError.
Proof.
  unfold is_group_supported, _weight_equal_helper.
  destruct (map snd g) as [|m0 [|m1 [|m2 [|m3 r]]]]; try discriminate.
  - intros _.
    run_call c0 E0 (conv_of_not_assertion model m0).
    run_call c1 E1 (conv_of_not_assertion model m1).
    run_call out E (equalize_not_assertion (weight c0) (bias c0) (weight c1)).
    destruct out as [[[w1 b1] w2] s]. discriminate.
  - intros Hs. rewrite Hs. cbn [negb].
    run_call c0 E0 (conv_of_not_assertion model m0).
    run_call c1 E1 (conv_of_not_assertion model m1).
    run_call c2 E2 (conv_of_not_assertion model m2).
    run_call out E (equalize_cdc_not_assertion (weight c0) (bias c0) (weight c1) (bias c1)
                      (weight c2) threshold).
    destruct out as [[[[[w1 b1] w2] b2] w3] [s1 s2]]. discriminate.
Qed.

(** X1: every group that discovery returns, on any graph, has one of the
    shapes [is_group_supported] accepts; so the assertion of
    [_weight_equal_helper] on the shape of a 3-group never fails on a
    discovered group, whatever the model holds. *)
Theorem discovered_groups_are_supported (G : TraceGraph) (g : Group) :
  In g (get_cls_set G) ->
  is_group_supported g = true
  /\ forall threshold model, _weight_equal_helper g threshold model <> Err AssertionError.
Proof.
  intros Hg. pose proof (get_cls_set_supported G) as H.
  rewrite Forall_forall in H. specialize (H g Hg). split; [exact H|].
  intros threshold model. now apply supported_group_no_assertion.
Qed.

(** ** Discovery: invariants of the traversal *)

(** A property [L] of the recorded groups holds of the result of discovery
    when every node keeps it, given a property [C] of the accumulator with
    which the node is entered. *)
Section Traversal_invariant.
Variable L : list Group -> Prop.
Variable C : Group -> TraceNode -> Prop.
Variable Q : TraceNode -> Prop.
Hypothesis Q_next : forall node, Q node -> Forall Q (next_nodes node).
Hypothesis C_nil : forall node, C [] node.
Hypothesis Inv_step : forall node lg cg lg1 cg1 lg2 cg3,
  Q node -> L lg -> C cg node ->
  on_entry lg cg = (lg1, cg1) ->
  on_break node lg1 (on_append node cg1) = (lg2, cg3) ->
  L lg2 /\ forall n, In n (next_nodes node) -> C cg3 n.

Lemma for_next_nodes_keeps ns :
  Forall (fun node => Q node -> forall lg cg vis,
            L lg -> C cg node -> L (fst (graph_traverse node lg cg vis))) ns ->
  Forall Q ns ->
  forall lg cg vis, L lg -> (forall n, In n ns -> C cg n) ->
                    L (fst (for_next_nodes ns lg cg vis)).
Proof.
  induction 1 as [|x xs Hx Hxs IH]; intros HQ lg cg vis H HC; [exact H|].
  inversion HQ; subst. cbn [for_next_nodes].
  specialize (Hx H2 lg cg vis H (HC x (or_introl eq_refl))).
  destruct (graph_traverse x lg cg vis) as [lg' vis']. apply IH; auto.
Qed.

Lemma graph_traverse_keeps node :
  Q node -> forall lg cg vis, L lg -> C cg node -> L (fst (graph_traverse node lg cg vis)).
Proof.
  induction node as [n m ns IH] using TraceNode_nested_ind.
  intros HQ lg cg vis H HC. rewrite graph_traverse_eq. cbn [unique_name next_nodes].
  destruct (name_in n vis); [exact H|].
  destruct (on_entry lg cg) as [lg1 cg1] eqn:E1.
  destruct (on_break _ lg1 _) as [lg2 cg3] eqn:E2.
  destruct (Inv_step _ _ _ _ _ _ _ HQ H HC E1 E2) as [H2 HC2].
  apply for_next_nodes_keeps; [exact IH|exact (Q_next _ HQ)|exact H2|exact HC2].
Qed.

Lemma get_cls_set_keeps (G : TraceGraph) :
  Forall Q (forward_nodes G) -> L [] -> L (get_cls_set G).
Proof.
  unfold get_cls_set. generalize (@nil string) as vis.
  generalize (@nil Group) as lg.
  induction (forward_nodes G) as [|x r IH]; intros lg vis HQ H; [exact H|].
  inversion HQ; subst. cbn [fold_left].
  pose proof (graph_traverse_keeps x H2 lg [] vis H (C_nil x)) as Hx.
  destruct (graph_traverse x lg [] vis). now apply IH.
Qed.
End Traversal_invariant.

Lemma subnodes_self node : In node (subnodes node).
Proof. destruct node. cbn. now left. Qed.

Lemma subnodes_next node x : In x (next_nodes node) -> incl (subnodes x) (subnodes node).
Proof.
  destruct node as [n m ns]. cbn [next_nodes]. intros Hx y Hy.
  cbn [subnodes next_nodes]. right.
  induction ns as [|a r IH]; [destruct Hx|].
  apply in_or_app. destruct Hx as [Hx|Hx].
  - subst. now left.
  - right. now apply IH.
Qed.

Lemma within_next G node : within G node -> Forall (within G) (next_nodes node).
Proof.
  intros H. apply Forall_forall. intros x Hx y Hy.
  apply H. now apply (subnodes_next node x).
Qed.

Lemma within_forward G : Forall (within G) (forward_nodes G).
Proof.
  apply Forall_forall. intros x Hx y Hy. unfold graph_nodes.
  apply in_flat_map. now exists x.
Qed.

Lemma within_in G node : within G node -> In node (graph_nodes G).
Proof. intros H. apply H, subnodes_self. Qed.

(** *** No group is recorded twice *)

Lemma group_in_false g lg :
  group_in g lg = false -> Forall (fun h => group_eqb g h = false) lg.
Proof.
  unfold group_in. intros H. apply Forall_forall. intros h Hh.
  destruct (group_eqb g h) eqn:E; [|reflexivity].
  assert (existsb (group_eqb g) lg = true) by (apply existsb_exists; eauto). congruence.
Qed.

Lemma recorded_once_entry lg cg :
  recorded_once lg -> recorded_once (fst (on_entry lg cg)).
Proof.
  intros H. unfold on_entry.
  destruct (is_group_supported cg); cbn [andb]; [|exact H].
  destruct (group_in cg lg) eqn:E; cbn [negb fst]; [exact H|].
  apply ForallOrdPairs_snoc; [exact H|]. now apply group_in_false.
Qed.

Lemma recorded_once_break node lg cg :
  recorded_once lg -> recorded_once (fst (on_break node lg cg)).
Proof.
  intros H. unfold on_break. destruct (_ || _); cbn [fst]; [|exact H].
  destruct (is_group_supported cg); cbn [andb]; [|exact H].
  destruct (group_in cg lg) eqn:E; cbn [negb]; [exact H|].
  apply ForallOrdPairs_snoc; [exact H|]. now apply group_in_false.
Qed.

Lemma get_cls_set_recorded_once (G : TraceGraph) : recorded_once (get_cls_set G).
Proof.
  apply (get_cls_set_keeps recorded_once (fun _ _ => True) (fun _ => True)).
  - intros node _. apply Forall_forall. auto.
  - auto.
  - intros node lg cg lg1 cg1 lg2 cg3 _ H _ E1 E2. split; [|auto].
    pose proof (recorded_once_entry lg cg H) as H1. rewrite E1 in H1. cbn [fst] in H1.
    pose proof (recorded_once_break node lg1 (on_append node cg1) H1) as H2.
    now rewrite E2 in H2.
  - apply Forall_forall. auto.
  - constructor.
Qed.

(** X2: discovery records no group twice: of two groups it returns, the later
    one differs from the earlier one in the sense of [current_group not in
    layer_groups] (names by value, modules by identity). *)
Theorem no_group_is_recorded_twice (G : TraceGraph) (i j : nat) (g h : Group) :
  (i < j)%nat ->
  nth_error (get_cls_set G) i = Some g ->
  nth_error (get_cls_set G) j = Some h ->
  group_eqb h g = false.
Proof.
  intros Hij Hi Hj.
  exact (ForallOrdPairs_nth _ _ (get_cls_set_recorded_once G) i j g h Hij Hi Hj).
Qed.

(** *** The layers of a group are convolutions of the graph *)

Lemma last_layer_Forall (P : Layer -> Prop) (g : Group) : Forall P g -> Forall P (last_layer g).
Proof.
  intros H. unfold last_layer. destruct (rev g) as [|x r] eqn:E; [constructor|].
  constructor; [|constructor]. rewrite Forall_forall in H. apply H.
  apply in_rev. rewrite E. now left.
Qed.

Lemma of_graph_step G node lg cg lg1 cg1 lg2 cg3 :
  within G node ->
  Forall (Forall (of_graph G)) lg -> Forall (of_graph G) cg ->
  on_entry lg cg = (lg1, cg1) ->
  on_break node lg1 (on_append node cg1) = (lg2, cg3) ->
  Forall (Forall (of_graph G)) lg2 /\ Forall (of_graph G) cg3.
Proof.
  intros HQ Hlg Hcg E1 E2.
  assert (H1 : Forall (Forall (of_graph G)) lg1 /\ Forall (of_graph G) cg1).
  { unfold on_entry in E1. destruct (_ && _); inversion E1; subst; [|now split].
    split; [|now apply last_layer_Forall].
    apply Forall_app. split; [exact Hlg|now repeat constructor]. }
  destruct H1 as [Hlg1 Hcg1].
  assert (H2 : Forall (of_graph G) (on_append node cg1)).
  { unfold on_append. destruct (isinstance _ _); [|exact Hcg1].
    apply Forall_app. split; [exact Hcg1|]. constructor; [|constructor].
    exists node. split; [now apply within_in|reflexivity]. }
  unfold on_break in E2. destruct (_ || _); inversion E2; subst; [|now split].
  split; [|constructor]. destruct (_ && _); [|exact Hlg1].
  apply Forall_app. split; [exact Hlg1|now repeat constructor].
Qed.

Lemma get_cls_set_of_graph (G : TraceGraph) : Forall (Forall (of_graph G)) (get_cls_set G).
Proof.
  apply (get_cls_set_keeps (Forall (Forall (of_graph G)))
           (fun cg _ => Forall (of_graph G) cg) (within G)).
  - apply within_next.
  - intros node. constructor.
  - intros node lg cg lg1 cg1 lg2 cg3 HQ Hlg Hcg E1 E2.
    destruct (of_graph_step G node lg cg lg1 cg1 lg2 cg3 HQ Hlg Hcg E1 E2) as [A B].
    split; [exact A|]. intros n _. exact B.
  - apply within_forward.
  - constructor.
Qed.

Lemma supported_group_convs (g : Group) (x : Layer) :
  is_group_supported g = true -> In x g -> isinstance (snd x) cls_support_type = true.
Proof.
  unfold is_group_supported. intros H Hx.
  destruct g as [|a [|b [|c [|d r]]]]; cbn [map] in H; try discriminate.
  - apply andb_true_iff in H. destruct H as [Ha Hb].
    destruct Hx as [Hx|[Hx|[]]]; subst x; [exact Ha|now apply normal_is_support].
  - apply andb_true_iff in H. destruct H as [H Hc].
    apply andb_true_iff in H. destruct H as [Ha Hb].
    destruct Hx as [Hx|[Hx|[Hx|[]]]]; subst x.
    + now apply normal_is_support.
    + unfold is_dw_conv in Hb.
      destruct (isinstance (snd b) cls_support_type); [reflexivity|discriminate].
    + now apply normal_is_support.
Qed.

(** X3: every layer of every group that discovery returns is the pair
    [(unique_name, module)] of a node of the graph, and its module is a
    Conv2d or a Conv1d. *)
Theorem groups_hold_convolutions_of_the_graph (G : TraceGraph) (g : Group) (x : Layer) :
  In g (get_cls_set G) -> In x g ->
  isinstance (snd x) cls_support_type = true
  /\ exists node, In node (graph_nodes G)
                  /\ unique_name node = fst x /\ module node = snd x.
Proof.
  intros Hg Hx. split.
  - pose proof (get_cls_set_supported G) as H. rewrite Forall_forall in H.
    exact (supported_group_convs g x (H g Hg) Hx).
  - pose proof (get_cls_set_of_graph G) as H. rewrite Forall_forall in H.
    specialize (H g Hg). rewrite Forall_forall in H.
    destruct (H x Hx) as (node & Hn & El). exists node. split; [exact Hn|].
    unfold layer_of in El. subst x. split; reflexivity.
Qed.

(** *** Adjacent layers of a group follow each other in the graph *)

Lemma adj_pairs_snoc {A} (l : list A) (y a b : A) :
  In (a, b) (adj_pairs (l ++ [y])) ->
  In (a, b) (adj_pairs l) \/ (exists l', l = l' ++ [a]) /\ b = y.
Proof.
  unfold adj_pairs. induction l as [|x r IH]; cbn; [tauto|].
  destruct r as [|x' r'].
  - cbn. intros [H|[]]. inversion H; subst. right. split; [now exists []|reflexivity].
  - cbn [app tl combine] in *. intros [H|H]; [left; now left|].
    destruct (IH H) as [H'|[[l' El] Hb]]; [left; now right|].
    right. split; [|exact Hb]. exists (x :: l'). now rewrite El.
Qed.

Lemma last_layer_snoc (l : Group) (x : Layer) : last_layer (l ++ [x]) = [x].
Proof. unfold last_layer. now rewrite rev_unit. Qed.

Lemma last_layer_idem (g : Group) : last_layer (last_layer g) = last_layer g.
Proof. unfold last_layer. now destruct (rev g). Qed.

Lemma adj_pairs_last_layer (g : Group) : adj_pairs (last_layer g) = [].
Proof. unfold last_layer. now destruct (rev g). Qed.

Lemma union_not_support_scalable m :
  isinstance m (cls_scalable_type ++ cls_support_type) = true ->
  isinstance m cls_support_type = false ->
  isinstance m cls_scalable_type = true.
Proof. unfold isinstance. destruct (mod_class m); cbn; intuition congruence. Qed.

Lemma single_successor {A} (l : list A) x : (List.length l <= 1)%nat -> In x l -> l = [x].
Proof.
  destruct l as [|a [|b r]]; cbn; intros H Hx; try lia.
  destruct Hx as [Hx|[]]. now subst.
Qed.

Lemma pending_linked_nil G node : pending_linked G [] node.
Proof. split; [intros x y []|intros x Hx; discriminate]. Qed.

Lemma linked_step G node lg cg lg1 cg1 lg2 cg3 :
  within G node -> Forall (pairs_linked G) lg -> pending_linked G cg node ->
  on_entry lg cg = (lg1, cg1) ->
  on_break node lg1 (on_append node cg1) = (lg2, cg3) ->
  Forall (pairs_linked G) lg2 /\ forall n, In n (next_nodes node) -> pending_linked G cg3 n.
Proof.
  intros HQ Hlg [Hcg Hlast] E1 E2.
  assert (H1 : Forall (pairs_linked G) lg1 /\ pending_linked G cg1 node).
  { unfold on_entry in E1. destruct (_ && _); inversion E1; subst.
    - split; [apply Forall_app; split; [exact Hlg|now repeat constructor]|].
      split.
      + intros x y Hxy. rewrite adj_pairs_last_layer in Hxy. destruct Hxy.
      + intros x Hx. rewrite last_layer_idem in Hx. now apply Hlast.
    - split; [exact Hlg|now split]. }
  destruct H1 as [Hlg1 [Hcg1 Hlast1]].
  assert (H2 : pairs_linked G (on_append node cg1)).
  { unfold on_append. destruct (isinstance _ _); [|exact Hcg1].
    intros x y Hxy. apply adj_pairs_snoc in Hxy.
    destruct Hxy as [Hxy|[[l' El] Hy]]; [now apply Hcg1|].
    subst y. exists node. split; [|reflexivity]. apply Hlast1.
    rewrite El. apply last_layer_snoc. }
  unfold on_break in E2.
  destruct (1 <? List.length (next_nodes node)) eqn:Elen; cbn [orb] in E2.
  - inversion E2; subst. split; [|intros n _; apply pending_linked_nil].
    destruct (_ && _); [|exact Hlg1].
    apply Forall_app. split; [exact Hlg1|now repeat constructor].
  - destruct (isinstance (module node) (cls_scalable_type ++ cls_support_type)) eqn:Eu;
      cbn [negb] in E2; inversion E2; subst.
    + split; [exact Hlg1|]. intros n Hn.
      apply Nat.ltb_ge in Elen. pose proof (single_successor _ n Elen Hn) as Enext.
      split; [exact H2|]. intros x Hx. unfold on_append in Hx.
      destruct (isinstance (module node) cls_support_type) eqn:Es.
      * rewrite last_layer_snoc in Hx. inversion Hx; subst.
        apply reach_conv with node; [now apply within_in|reflexivity|exact Enext].
      * apply reach_act with node; [now apply Hlast1| |exact Enext].
        now apply union_not_support_scalable.
    + split; [|intros n _; apply pending_linked_nil].
      destruct (_ && _); [|exact Hlg1].
      apply Forall_app. split; [exact Hlg1|now repeat constructor].
Qed.

(** X4: two layers that stand next to each other in a discovered group
    follow each other in the graph: the node of the first feeds exactly one
    node, and from there a path on which every node is a scale-preserving
    activation (ReLU, LeakyReLU, PReLU, Identity) feeding exactly one node
    leads to the node of the second.  In particular a layer whose node feeds
    several nodes stands only at the end of a group. *)
Theorem adjacent_layers_of_a_group_are_linked (G : TraceGraph) (g : Group) (x y : Layer) :
  In g (get_cls_set G) -> In (x, y) (adj_pairs g) -> linked G x y.
Proof.
  intros Hg Hxy.
  assert (H : Forall (pairs_linked G) (get_cls_set G)).
  { apply (get_cls_set_keeps (Forall (pairs_linked G)) (pending_linked G) (within G)).
    - apply within_next.
    - apply pending_linked_nil.
    - apply linked_step.
    - apply within_forward.
    - constructor. }
  rewrite Forall_forall in H. exact (H g Hg x y Hxy).
Qed.

(** *** The last node of a sequential graph *)

Lemma chain_open_traverse body : forall lg cg vis,
  NoDup (map fst body) ->
  (forall n, In n (map fst body) -> ~ In n vis) ->
  for_next_nodes (chain_then body []) lg cg vis
  = (fst (fold_left chain_step body (lg, cg)), vis ++ map fst body).
Proof.
  induction body as [|x r IH]; intros lg cg vis Hnd Hfresh.
  - cbn. now rewrite app_nil_r.
  - cbn [chain_then fold_left map]. rewrite for_next_nodes_single.
    rewrite graph_traverse_eq. cbn [unique_name module next_nodes].
    rewrite name_in_fresh by (apply Hfresh; now left).
    unfold chain_step at 2, entry. cbn [fst snd].
    destruct (on_entry lg cg) as [lg1 cg1].
    unfold on_break, on_append. cbn [unique_name module next_nodes].
    replace (1 <? List.length (chain_then r [])) with false
      by (destruct r; reflexivity).
    cbn [orb].
    replace (fst x, snd x) with x by (destruct x; reflexivity).
    inversion Hnd as [|? ? Hnotin Hnd']; subst.
    assert (Hfresh' : forall n, In n (map fst r) -> ~ In n (vis ++ [fst x])).
    { intros n Hn Hin. apply in_app_or in Hin. destruct Hin as [Hin|[Hin|[]]].
      - apply (Hfresh n); [now right|assumption].
      - subst n. contradiction. }
    destruct (negb (isinstance (snd x) (cls_scalable_type ++ cls_support_type)));
      rewrite IH by assumption; rewrite <- app_assoc; reflexivity.
Qed.

Lemma chain_nodes_visited r : forall lg vis,
  incl (map fst r) vis ->
  fold_left (fun '(layer_groups, visited_nodes) node =>
               graph_traverse node layer_groups [] visited_nodes)
            (chain_nodes r) (lg, vis) = (lg, vis).
Proof.
  induction r as [|y r IH]; intros lg vis Hin; [reflexivity|].
  cbn [chain_nodes chain chain_then app fold_left].
  rewrite graph_traverse_eq. cbn [unique_name].
  replace (name_in (fst y) vis) with true.
  - apply IH. intros n Hn. apply Hin. now right.
  - symmetry. apply name_in_spec. apply Hin. now left.
Qed.

Lemma sequential_graph_groups (l : list Layer) :
  NoDup (map fst l) ->
  get_cls_set (sequential_graph l) = fst (fold_left chain_step l (@pair (list Group) Group [] [])).
Proof.
  intros Hnd. destruct l as [|x r]; [reflexivity|].
  unfold get_cls_set, sequential_graph. cbn [forward_nodes chain_nodes]. unfold chain.
  pose proof (chain_open_traverse (x :: r) [] [] [] Hnd (fun _ _ H => H)) as Htr.
  cbn [chain_then] in Htr |- *. rewrite for_next_nodes_single in Htr.
  cbn [app]. change (fold_left ?f (?a :: ?l) ?s) with (fold_left f l (f s a)).
  cbn beta iota. rewrite Htr. rewrite chain_nodes_visited.
  - reflexivity.
  - cbn [app map]. intros n Hn. now right.
Qed.

Lemma expected_groups_layers steps : forall h g,
  In g (expected_groups h steps) -> incl g (h :: flat_map step_convs steps).
Proof.
  induction steps as [|st r IH]; intros h g Hg; [destruct Hg|].
  destruct st as [c acts | d a1 c a2]; cbn [expected_groups flat_map step_convs app] in *.
  - destruct Hg as [Hg|Hg].
    + subst g. intros x [Hx|[Hx|[]]]; subst x; cbn; auto.
    + intros x Hx. apply (IH c g Hg) in Hx. destruct Hx as [Hx|Hx]; cbn; auto.
  - destruct Hg as [Hg|Hg].
    + subst g. intros x [Hx|[Hx|[Hx|[]]]]; subst x; cbn; auto.
    + intros x Hx. apply (IH c g Hg) in Hx. destruct Hx as [Hx|Hx]; cbn; auto.
Qed.

Lemma step_convs_nodes steps : incl (flat_map step_convs steps) (flat_map step_nodes steps).
Proof.
  induction steps as [|st r IH]; [intros x []|]. cbn [flat_map].
  apply incl_app; [apply incl_appl|now apply incl_appr].
  destruct st as [c acts | d a1 c a2]; cbn [step_convs step_nodes].
  - intros x [Hx|[]]. subst. now left.
  - intros x [Hx|[Hx|[]]]; subst; [now left|]. right. apply in_or_app. right. now left.
Qed.

(** X5: in the graph of a sequential model that consists of a supported run
    of convolutions and activations followed by one last node [t], discovery
    returns exactly the groups of the run, whatever [t] is.  When [t] is
    itself a convolution, no group holds it: the group it would close is
    still in the accumulator when the traversal ends, and the accumulator is
    recorded only on entering a further node or at a break. *)
Theorem last_node_of_a_sequential_graph_closes_no_group
    (c0 : Layer) (acts0 : list Layer) (steps : list run_step) (t : Layer) :
  NoDup (map fst (run_nodes c0 acts0 steps ++ [t])) ->
  isinstance (snd c0) cls_support_type = true ->
  scalable_acts acts0 ->
  supported_run c0 steps ->
  get_cls_set (sequential_graph (run_nodes c0 acts0 steps ++ [t])) = expected_groups c0 steps
  /\ forall g, In g (get_cls_set (sequential_graph (run_nodes c0 acts0 steps ++ [t]))) ->
               ~ In (fst t) (names g).
Proof.
  intros Hnd Hc0 Hacts Hrun.
  assert (E : get_cls_set (sequential_graph (run_nodes c0 acts0 steps ++ [t]))
              = expected_groups c0 steps).
  { rewrite sequential_graph_groups by exact Hnd.
    unfold run_nodes in *. cbn [app fold_left].
    rewrite chain_step_conv by assumption.
    cbn [entry on_entry fst snd is_group_supported map andb app].
    rewrite <- app_assoc, fold_left_app, fold_left_app. cbn [fold_left].
    cbn [app map] in Hnd. inversion Hnd as [|? ? Hc0fresh Hnd1]; subst.
    rewrite <- app_assoc, map_app in Hnd1, Hc0fresh.
    rewrite map_app in Hnd1, Hc0fresh.
    destruct (fold_steps steps c0 [] (fold_left chain_step acts0 ([], [c0]))
                (fst c0 :: map fst acts0)) as [c Hc].
    - rewrite fold_acts by assumption. reflexivity.
    - assumption.
    - assumption.
    - intros g [].
    - now left.
    - intros n Hn [Hin|Hin].
      + subst n. apply Hc0fresh. apply in_or_app. right. apply in_or_app. now left.
      + apply (NoDup_app_disjoint _ _ n Hnd1 Hin). apply in_or_app. now left.
    - apply NoDup_app_remove_l in Hnd1. now apply NoDup_app_remove_r in Hnd1.
    - unfold chain_step at 1. rewrite Hc. cbn [app].
      destruct (isinstance (snd t) (cls_scalable_type ++ cls_support_type)) eqn:Eu;
        cbn [negb]; [reflexivity|].
      rewrite (not_union_not_support _ Eu). reflexivity. }
  split; [exact E|]. rewrite E. intros g Hg Hin.
  apply in_map_iff in Hin. destruct Hin as [x [Ex Hx]].
  apply (expected_groups_layers steps c0 g Hg) in Hx.
  assert (Hrunx : In (fst x) (map fst (run_nodes c0 acts0 steps))).
  { apply in_map. unfold run_nodes. destruct Hx as [Hx|Hx]; [now left|right].
    apply in_or_app. right. now apply step_convs_nodes. }
  rewrite map_app in Hnd. rewrite Ex in Hrunx.
  apply (NoDup_app_disjoint _ _ (fst t) Hnd Hrunx). now left.
Qed.

(** *** The layers of a group are distinct *)

Lemma NoDup_last_layer (g : Group) : NoDup (names (last_layer g)).
Proof.
  unfold last_layer. destruct (rev g); cbn; repeat constructor. intros [].
Qed.

Lemma NoDup_names_snoc (cg : Group) (x : Layer) :
  NoDup (names cg) -> ~ In (fst x) (names cg) -> NoDup (names (cg ++ [x])).
Proof.
  intros Hnd Hx. unfold names in *. rewrite map_app. cbn [map].
  apply NoDup_app; [exact Hnd|repeat constructor; intros []|].
  intros n Hn [Hn'|[]]. subst n. contradiction.
Qed.

Lemma graph_traverse_distinct node :
  forall lg cg vis,
    Forall (fun g => NoDup (names g)) lg -> NoDup (names cg) -> incl (names cg) vis ->
    Forall (fun g => NoDup (names g)) (fst (graph_traverse node lg cg vis)).
Proof.
  induction node as [n m ns IH] using TraceNode_nested_ind.
  intros lg cg vis Hlg Hcg Hin. rewrite graph_traverse_eq. cbn [unique_name next_nodes].
  destruct (name_in n vis) eqn:Hv; [exact Hlg|].
  assert (Hfresh : ~ In n vis).
  { intros H. apply name_in_spec in H. congruence. }
  assert (H1 : Forall (fun g => NoDup (names g)) (fst (on_entry lg cg))
               /\ NoDup (names (snd (on_entry lg cg)))
               /\ incl (names (snd (on_entry lg cg))) vis).
  { unfold on_entry. destruct (_ && _); cbn [fst snd]; [|auto].
    split; [apply Forall_app; split; [exact Hlg|now repeat constructor]|].
    split; [apply NoDup_last_layer|].
    eapply incl_tran; [apply last_layer_incl|exact Hin]. }
  destruct (on_entry lg cg) as [lg1 cg1]. cbn [fst snd] in H1.
  destruct H1 as (Hlg1 & Hcg1 & Hin1).
  assert (H2 : NoDup (names (on_append (mkTraceNode n m ns) cg1))).
  { unfold on_append. cbn [unique_name module]. destruct (isinstance _ _); [|exact Hcg1].
    apply NoDup_names_snoc; [exact Hcg1|]. cbn [fst]. intros H. apply Hfresh. now apply Hin1. }
  assert (H3 : Forall (fun g => NoDup (names g))
                 (fst (on_break (mkTraceNode n m ns) lg1 (on_append (mkTraceNode n m ns) cg1)))
               /\ NoDup (names (snd (on_break (mkTraceNode n m ns) lg1
                                       (on_append (mkTraceNode n m ns) cg1))))).
  { unfold on_break. destruct (_ || _); cbn [fst snd]; [|auto].
    split; [|constructor]. destruct (_ && _); [|exact Hlg1].
    apply Forall_app. split; [exact Hlg1|now repeat constructor]. }
  destruct (on_break _ lg1 _) as [lg2 cg3] eqn:E2. cbn [fst snd] in H3.
  destruct H3 as [Hlg2 Hcg3].
  assert (Hin3 : incl (names cg3) (vis ++ [n])).
  { destruct (on_break_adds _ _ _ _ _ E2) as (add & _ & _ & Hsub).
    eapply incl_tran; [exact Hsub|].
    eapply incl_tran; [apply on_append_names|]. cbn [unique_name].
    apply incl_app; [apply incl_appl; exact Hin1|apply incl_appr, incl_refl]. }
  revert Hlg2 Hcg3 Hin3. generalize (vis ++ [n]) as vis1. generalize lg2 cg3.
  clear - IH. induction IH as [|x xs Hx Hxs IHxs]; intros lg2 cg3 vis1 Hlg2 Hcg3 Hin3.
  - exact Hlg2.
  - cbn [for_next_nodes]. specialize (Hx lg2 cg3 vis1 Hlg2 Hcg3 Hin3).
    destruct (graph_traverse x lg2 cg3 vis1) as [lg' vis'].
    apply IHxs; [exact Hx|constructor|intros k []].
Qed.

(** X6: no layer occurs twice in a group that discovery returns: the
    unique names of its layers are pairwise different. *)
Theorem layers_of_a_group_are_distinct (G : TraceGraph) (g : Group) :
  In g (get_cls_set G) -> NoDup (names g).
Proof.
  intros Hg.
  assert (H : forall fwd lg vis,
             Forall (fun g => NoDup (names g)) lg ->
             Forall (fun g => NoDup (names g))
               (fst (fold_left (fun '(layer_groups, visited_nodes) node =>
                                  graph_traverse node layer_groups [] visited_nodes)
                               fwd (lg, vis)))).
  { induction fwd as [|x r IH]; intros lg vis H; [exact H|]. cbn [fold_left].
    pose proof (graph_traverse_distinct x lg [] vis H (NoDup_nil _) (fun k (F : In k []) => match F with end)) as Hx.
    destruct (graph_traverse x lg [] vis). now apply IH. }
  specialize (H (forward_nodes G) [] [] (Forall_nil _)).
  rewrite Forall_forall in H. exact (H g Hg).
Qed.

(** ** Equalization: the ranges after a pass *)

Local Open Scope R_scope.

Lemma fold_Rmax_scale l k : 0 <= k -> forall x,
  fold_left Rmax (map (fun y => y * k) l) (x * k) = fold_left Rmax l x * k.
Proof.
  intros Hk. induction l as [|y r IH]; intros x; [reflexivity|].
  cbn [map fold_left]. rewrite <- IH. f_equal.
  rewrite (Rmult_comm x k), (Rmult_comm y k), (Rmult_comm (Rmax x y) k).
  now apply RmaxRmult.
Qed.

Lemma Rmaxl_scale l k : 0 <= k -> Rmaxl (map (fun y => y * k) l) = Rmaxl l * k.
Proof.
  intros Hk. destruct l as [|x r]; [cbn; lra|]. cbn [map Rmaxl]. now apply fold_Rmax_scale.
Qed.

Lemma range_123_scale d1 d2 d3 W k :
  0 <= k -> range_123 d1 d2 d3 (fun i h w => W i h w * k) = range_123 d1 d2 d3 W * k.
Proof.
  intros Hk. unfold range_123. rewrite <- Rmaxl_scale by assumption.
  rewrite map_map. f_equal. apply map_ext. intros [[i h] w].
  rewrite Rabs_mult. rewrite (Rabs_right k) by lra. reflexivity.
Qed.

(** The range of a channel all of whose entries are finite. *)
Lemma abs_amax_finite (t : Tensor4) (c : nat) (W : nat -> nat -> nat -> R) :
  (0 < dim1 t)%nat -> (0 < dim2 t)%nat -> (0 < dim3 t)%nat ->
  (forall i h w, (i < dim1 t)%nat -> (h < dim2 t)%nat -> (w < dim3 t)%nat ->
                 at4 t c i h w = Fin (W i h w)) ->
  at1 (abs_amax_123 t) c = Fin (range_123 (dim1 t) (dim2 t) (dim3 t) W).
Proof.
  intros H1 H2 H3 HW. cbn [abs_amax_123 at1]. unfold range_123.
  rewrite <- amax_list_Fin.
  - rewrite map_map. f_equal. apply map_ext_in. intros [[i h] w] Hin.
    apply index3_in in Hin. destruct Hin as (Hi & Hh & Hw). now rewrite HW.
  - intros E. apply map_eq_nil in E. revert E. now apply index3_nonempty.
Qed.

(** [equalize] on tensors whose shapes fit. *)
Lemma equalize_fits (weight1 : Tensor4) (bias1 : Tensor1) (weight2 : Tensor4) :
  reducible_123 weight1 = true -> reducible_123 (permute_1023 weight2) = true ->
  dim0 weight1 = dim1 weight2 -> size1 bias1 = dim0 weight1 ->
  let r1 := abs_amax_123 weight1 in
  let r2 := abs_amax_123 (permute_1023 weight2) in
  let s := map2_1 fdiv r1 (map_1 fsqrt (map2_1 fmul r1 r2)) in
  equalize weight1 (Some bias1) weight2
  = Ok (scale_dim0 fdiv weight1 s, map2_1 fdiv bias1 s,
        permute_1023 (scale_dim0 fmul (permute_1023 weight2) s), s).
Proof.
  intros H1 H2 Hd Hb r1 r2 s. unfold equalize. rewrite H1, H2.
  cbn [permute_1023 dim0]. rewrite Hd, Nat.eqb_refl. cbn [andb negb].
  cbn [size1 map2_1 abs_amax_123]. rewrite Hb, Hd, Nat.eqb_refl. reflexivity.
Qed.

Lemma sqrt_div_self x : 0 < x -> x / sqrt x = sqrt x.
Proof.
  intros H. assert (Hs : 0 < sqrt x) by now apply sqrt_lt_R0.
  rewrite <- (sqrt_sqrt x) at 1 by lra. field. lra.
Qed.

(** The scale and the ranges [equalize] leaves on a channel with non-zero
    ranges. *)
Lemma equalize_real_balanced
    (C I KH KW O KH2 KW2 : nat)
    (W1 : nat -> nat -> nat -> nat -> R) (B1 : nat -> R)
    (W2 : nat -> nat -> nat -> nat -> R) :
  (0 < I)%nat -> (0 < KH)%nat -> (0 < KW)%nat ->
  (0 < O)%nat -> (0 < KH2)%nat -> (0 < KW2)%nat ->
  (forall c, (c < C)%nat -> has_nonzero_out I KH KW W1 c /\ has_nonzero_in O KH2 KW2 W2 c) ->
  exists w1' b1' w2' s,
    equalize (real4 C I KH KW W1) (Some (real1 C B1)) (real4 O C KH2 KW2 W2)
    = Ok (w1', b1', w2', s)
    /\ forall c, (c < C)%nat ->
         let r1 := range_123 I KH KW (W1 c) in
         let r2 := range_123 O KH2 KW2 (fun o h k => W2 o c h k) in
         0 < r1 /\ 0 < r2
         /\ at1 s c = Fin (r1 / sqrt (r1 * r2))
         /\ 0 < r1 / sqrt (r1 * r2)
         /\ at1 (abs_amax_123 w1') c = Fin (sqrt (r1 * r2))
         /\ at1 (abs_amax_123 (permute_1023 w2')) c = Fin (sqrt (r1 * r2)).
Proof.
  intros HI HKH HKW HO HKH2 HKW2 Hnz.
  destruct (equalize_real_ok C I KH KW O KH2 KW2 W1 B1 W2 HI HKH HKW HO HKH2 HKW2)
    as (w1' & b1' & w2' & s & E & Hs & Hw1 & Hb1 & Hw2 & D0 & D1 & D2 & D3 & E0 & E1 & E2 & E3 & _).
  exists w1', b1', w2', s. split; [exact E|]. intros c Hc r1 r2.
  destruct (Hnz c Hc) as [(i & h & k & Hi & Hh & Hk & Hne)
                          (o' & h' & k' & Ho' & Hh' & Hk' & Hne')].
  pose proof (range_123_pos I KH KW (W1 c) i h k Hi Hh Hk Hne) as Hr1.
  pose proof (range_123_pos O KH2 KW2 (fun o h k => W2 o c h k) o' h' k' Ho' Hh' Hk' Hne') as Hr2.
  fold r1 in Hr1. fold r2 in Hr2.
  destruct (scale_positive I KH KW O KH2 KW2 W1 W2 c Hr1 Hr2) as [Ev Hpos].
  fold r1 r2 in Ev, Hpos.
  assert (Hsc : at1 s c = Fin (r1 / sqrt (r1 * r2))) by (rewrite Hs; exact Ev).
  assert (Hp : 0 < r1 * r2) by now apply Rmult_lt_0_compat.
  assert (Hq : 0 < sqrt (r1 * r2)) by now apply sqrt_lt_R0.
  set (S := r1 / sqrt (r1 * r2)) in *.
  repeat split; try assumption.
  - rewrite (abs_amax_finite w1' c (fun i h k => W1 c i h k * / S)).
    + rewrite D1, D2, D3. rewrite range_123_scale
        by (left; now apply Rinv_0_lt_compat).
      fold r1. f_equal. unfold S. field. split; lra.
    + now rewrite D1.
    + now rewrite D2.
    + now rewrite D3.
    + intros i0 h0 w0 _ _ _. rewrite Hw1, Hsc. rewrite fdiv_Fin by lra. reflexivity.
  - rewrite (abs_amax_finite (permute_1023 w2') c (fun o h k => W2 o c h k * S)).
    + cbn [permute_1023 dim1 dim2 dim3]. rewrite E0, E2, E3.
      rewrite range_123_scale by lra. fold r2. f_equal. unfold S.
      transitivity (r1 * r2 / sqrt (r1 * r2)); [field; lra|now apply sqrt_div_self].
    + cbn [permute_1023 dim1]. now rewrite E0.
    + cbn [permute_1023 dim2]. now rewrite E2.
    + cbn [permute_1023 dim3]. now rewrite E3.
    + intros o0 h0 w0 _ _ _. cbn [permute_1023 at4]. rewrite Hw2, Hsc. reflexivity.
Qed.

(** X7: on finite weights every channel of which has a non-zero range,
    [equalize] computes a positive finite scale [r1 / sqrt (r1 * r2)] and
    leaves both sides of the channel with the same range [sqrt (r1 * r2)]:
    the range of output channel [c] of the first weight and of input channel
    [c] of the second.  In real arithmetic. *)
Theorem equalize_balances_ranges
    (C I KH KW O KH2 KW2 : nat)
    (W1 : nat -> nat -> nat -> nat -> R) (B1 : nat -> R)
    (W2 : nat -> nat -> nat -> nat -> R) :
  (0 < I)%nat -> (0 < KH)%nat -> (0 < KW)%nat ->
  (0 < O)%nat -> (0 < KH2)%nat -> (0 < KW2)%nat ->
  (forall c, (c < C)%nat -> has_nonzero_out I KH KW W1 c /\ has_nonzero_in O KH2 KW2 W2 c) ->
  exists w1' b1' w2' s,
    equalize (real4 C I KH KW W1) (Some (real1 C B1)) (real4 O C KH2 KW2 W2)
    = Ok (w1', b1', w2', s)
    /\ forall c, (c < C)%nat ->
         let r1 := range_123 I KH KW (W1 c) in
         let r2 := range_123 O KH2 KW2 (fun o h k => W2 o c h k) in
         0 < r1 /\ 0 < r2
         /\ at1 s c = Fin (r1 / sqrt (r1 * r2))
         /\ 0 < r1 / sqrt (r1 * r2)
         /\ at1 (abs_amax_123 w1') c = Fin (sqrt (r1 * r2))
         /\ at1 (abs_amax_123 (permute_1023 w2')) c = Fin (sqrt (r1 * r2)).
Proof. exact (equalize_real_balanced C I KH KW O KH2 KW2 W1 B1 W2). Qed.

(** X8: a second pass of [equalize] over the weights and the bias that a
    first pass has written finds every scale equal to 1 and writes back what
    it reads, on finite weights every channel of which has a non-zero range.
    In real arithmetic. *)
Theorem equalize_second_pass_changes_nothing
    (C I KH KW O KH2 KW2 : nat)
    (W1 : nat -> nat -> nat -> nat -> R) (B1 : nat -> R)
    (W2 : nat -> nat -> nat -> nat -> R) :
  (0 < I)%nat -> (0 < KH)%nat -> (0 < KW)%nat ->
  (0 < O)%nat -> (0 < KH2)%nat -> (0 < KW2)%nat ->
  (forall c, (c < C)%nat -> has_nonzero_out I KH KW W1 c /\ has_nonzero_in O KH2 KW2 W2 c) ->
  exists w1' b1' w2' s w1'' b1'' w2'' s',
    equalize (real4 C I KH KW W1) (Some (real1 C B1)) (real4 O C KH2 KW2 W2)
    = Ok (w1', b1', w2', s)
    /\ equalize w1' (Some b1') w2' = Ok (w1'', b1'', w2'', s')
    /\ forall c, (c < C)%nat ->
         at1 s' c = Fin 1
         /\ out_channel_unchanged w1' w1'' c
         /\ at1 b1'' c = at1 b1' c
         /\ in_channel_unchanged w2' w2'' c.
Proof.
  intros HI HKH HKW HO HKH2 HKW2 Hnz.
  destruct (equalize_real_balanced C I KH KW O KH2 KW2 W1 B1 W2
              HI HKH HKW HO HKH2 HKW2 Hnz) as (w1' & b1' & w2' & s & E & Hbal).
  destruct (equalize_real_ok C I KH KW O KH2 KW2 W1 B1 W2 HI HKH HKW HO HKH2 HKW2)
    as (w1_ & b1_ & w2_ & s_ & E_ & Hs & Hw1 & Hb1 & Hw2 & D0 & D1 & D2 & D3 & E0 & E1 & E2 & E3
        & F0 & F1).
  rewrite E in E_. inversion E_; subst w1_ b1_ w2_ s_. clear E_.
  exists w1', b1', w2', s. do 4 eexists. split; [exact E|]. split.
  - apply equalize_fits.
    + unfold reducible_123. rewrite D1, D2, D3.
      apply Nat.ltb_lt in HI, HKH, HKW. now rewrite HI, HKH, HKW.
    + unfold reducible_123. cbn [permute_1023 dim1 dim2 dim3]. rewrite E0, E2, E3.
      apply Nat.ltb_lt in HO, HKH2, HKW2. now rewrite HO, HKH2, HKW2.
    + now rewrite D0, E1.
    + now rewrite F0, D0.
  - intros c Hc. destruct (Hbal c Hc) as (Hr1 & Hr2 & Hsc & Hpos & Ha1 & Ha2).
    set (r1 := range_123 I KH KW (W1 c)) in *.
    set (r2 := range_123 O KH2 KW2 (fun o h k => W2 o c h k)) in *.
    assert (Hp : 0 < r1 * r2) by now apply Rmult_lt_0_compat.
    assert (Hg : 0 < sqrt (r1 * r2)) by now apply sqrt_lt_R0.
    assert (Hone : at1 (map2_1 fdiv (abs_amax_123 w1')
                          (map_1 fsqrt (map2_1 fmul (abs_amax_123 w1')
                                          (abs_amax_123 (permute_1023 w2'))))) c = Fin 1).
    { cbn [map2_1 map_1 at1] in *. rewrite Ha1, Ha2. cbn [fmul].
      rewrite fsqrt_Fin by nra. rewrite sqrt_square by lra.
      rewrite fdiv_Fin by lra. f_equal. field. lra. }
    split; [exact Hone|]. split; [|split].
    + intros i h k. cbn [scale_dim0 at4]. rewrite Hone.
      rewrite Hw1, Hsc. rewrite fdiv_Fin by lra. rewrite fdiv_Fin by lra. f_equal. field. lra.
    + cbn [map2_1 at1] in *. rewrite Hone. rewrite Hb1, Hsc.
      rewrite fdiv_Fin by lra. rewrite fdiv_Fin by lra. f_equal. field. lra.
    + intros o h k. cbn [permute_1023 scale_dim0 at4]. rewrite Hone.
      rewrite Hw2, Hsc. cbn [fmul]. f_equal. ring.
Qed.

(** ** Equalization of three layers: the factors *)

Lemma geometric_mean3_pos r1 r2 r3 : 0 < geometric_mean3 r1 r2 r3.
Proof. unfold geometric_mean3, Rpower. apply exp_pos. Qed.

Lemma geometric_mean3_cube r1 r2 r3 :
  0 < r1 * r2 * r3 ->
  geometric_mean3 r1 r2 r3 * geometric_mean3 r1 r2 r3 * geometric_mean3 r1 r2 r3
  = r1 * r2 * r3.
Proof.
  intros H. unfold geometric_mean3. set (x := r1 * r2 * r3) in *.
  assert (Hg : 0 < Rpower x (1 / 3)) by (unfold Rpower; apply exp_pos).
  replace (Rpower x (1 / 3) * Rpower x (1 / 3) * Rpower x (1 / 3))
    with (Rpower x (1 / 3) ^ 3) by ring.
  rewrite <- (Rpower_pow 3 _ Hg). rewrite Rpower_mult.
  replace (1 / 3 * INR 3) with 1 by (cbn; lra). now apply Rpower_1.
Qed.

Lemma clamp_cases threshold u1 u2 :
  0 < u1 -> 0 < u2 ->
  (u1 / u2 <= threshold ->
     clamp_s1 threshold (Fin u1) (Fin u2) = Fin u1
     /\ clamp_s2 threshold (Fin u1) (Fin u2) = Fin u2)
  /\ (threshold < u1 / u2 ->
        clamp_s1 threshold (Fin u1) (Fin u2) = Fin 1
        /\ (threshold < 1 / u2 -> clamp_s2 threshold (Fin u1) (Fin u2) = Fin 1)
        /\ (1 / u2 <= threshold -> clamp_s2 threshold (Fin u1) (Fin u2) = Fin u2)).
Proof.
  intros H1 H2. split.
  - intros Hle.
    assert (E1 : clamp_s1 threshold (Fin u1) (Fin u2) = Fin u1).
    { unfold clamp_s1. rewrite fdiv_Fin by lra. now rewrite fgt_Fin_false. }
    split; [exact E1|]. unfold clamp_s2. rewrite E1.
    rewrite fdiv_Fin by lra. now rewrite fgt_Fin_false.
  - intros Hgt.
    assert (E1 : clamp_s1 threshold (Fin u1) (Fin u2) = Fin 1).
    { unfold clamp_s1. rewrite fdiv_Fin by lra. now rewrite fgt_Fin_true. }
    split; [exact E1|]. unfold clamp_s2. rewrite E1. rewrite fdiv_Fin by lra. split.
    + intros H. now rewrite fgt_Fin_true.
    + intros H. now rewrite fgt_Fin_false.
Qed.

Lemma clamp_positive threshold u1 u2 :
  0 < u1 -> 0 < u2 ->
  exists S1 S2,
    clamp_s1 threshold (Fin u1) (Fin u2) = Fin S1
    /\ clamp_s2 threshold (Fin u1) (Fin u2) = Fin S2
    /\ 0 < S1 /\ 0 < S2.
Proof.
  intros H1 H2. destruct (clamp_cases threshold u1 u2 H1 H2) as [Hle Hgt].
  destruct (Rle_or_lt (u1 / u2) threshold) as [H|H].
  - destruct (Hle H) as [E1 E2]. exists u1, u2. auto.
  - destruct (Hgt H) as (E1 & Ea & Eb).
    destruct (Rle_or_lt (1 / u2) threshold) as [H'|H'].
    + exists 1, u2. repeat split; auto; lra.
    + exists 1, 1. repeat split; auto; lra.
Qed.

Lemma equalize_cdc_dims w1 b1 w2 b2 w3 threshold w1' b1' w2' b2' w3' s :
  equalize_cdc w1 b1 w2 b2 w3 threshold = Ok (w1', b1', w2', b2', w3', s) ->
  (dim1 w1' = dim1 w1 /\ dim2 w1' = dim2 w1 /\ dim3 w1' = dim3 w1)
  /\ (dim1 w2' = dim1 w2 /\ dim2 w2' = dim2 w2 /\ dim3 w2' = dim3 w2)
  /\ (dim0 w3' = dim0 w3 /\ dim2 w3' = dim2 w3 /\ dim3 w3' = dim3 w3).
Proof.
  unfold equalize_cdc. destruct (negb _); [discriminate|].
  destruct b1 as [b1|]; [|discriminate]. destruct b2 as [b2|]; [|discriminate].
  destruct (negb _); [discriminate|]. intros E. inversion E; subst. cbn. tauto.
Qed.

Section Cdc_scales.
Variables C I KH KW I2 KH2 KW2 O KH3 KW3 : nat.
Variable W1 : nat -> nat -> nat -> nat -> R.
Variable B1 : nat -> R.
Variable W2 : nat -> nat -> nat -> nat -> R.
Variable B2 : nat -> R.
Variable W3 : nat -> nat -> nat -> nat -> R.
Variable threshold : R.
Hypothesis HI : (0 < I)%nat.
Hypothesis HKH : (0 < KH)%nat.
Hypothesis HKW : (0 < KW)%nat.
Hypothesis HI2 : (0 < I2)%nat.
Hypothesis HKH2 : (0 < KH2)%nat.
Hypothesis HKW2 : (0 < KW2)%nat.
Hypothesis HO : (0 < O)%nat.
Hypothesis HKH3 : (0 < KH3)%nat.
Hypothesis HKW3 : (0 < KW3)%nat.

Local Abbreviation r1 c := (range_123 I KH KW (W1 c)).
Local Abbreviation r2 c := (range_123 I2 KH2 KW2 (W2 c)).
Local Abbreviation r3 c := (range_123 O KH3 KW3 (fun o h k => W3 o c h k)).
Local Abbreviation g c := (geometric_mean3 (r1 c) (r2 c) (r3 c)).

(** The factors of [equalize_cdc] on a channel with non-zero ranges. *)
Lemma equalize_cdc_real_scales :
  exists w1' b1' w2' b2' w3' s1 s2,
    equalize_cdc (real4 C I KH KW W1) (Some (real1 C B1)) (real4 C I2 KH2 KW2 W2)
      (Some (real1 C B2)) (real4 O C KH3 KW3 W3) threshold
    = Ok (w1', b1', w2', b2', w3', (s1, s2))
    /\ (forall c i h k, at4 w1' c i h k = fmul (Fin (W1 c i h k)) (fdiv (Fin 1) (at1 s1 c)))
    /\ (forall c, at1 b1' c = fmul (Fin (B1 c)) (fdiv (Fin 1) (at1 s1 c)))
    /\ (forall c i h k,
          at4 w2' c i h k = fdiv (fmul (Fin (W2 c i h k)) (at1 s1 c)) (at1 s2 c))
    /\ (forall c, at1 b2' c = fmul (Fin (B2 c)) (fdiv (Fin 1) (at1 s2 c)))
    /\ (forall o c h k, at4 w3' o c h k = fmul (Fin (W3 o c h k)) (at1 s2 c))
    /\ (dim1 w1' = I /\ dim2 w1' = KH /\ dim3 w1' = KW)
    /\ (dim1 w2' = I2 /\ dim2 w2' = KH2 /\ dim3 w2' = KW2)
    /\ (dim0 w3' = O /\ dim2 w3' = KH3 /\ dim3 w3' = KW3)
    /\ forall c, 0 < r1 c -> 0 < r2 c -> 0 < r3 c ->
         at1 s1 c = clamp_s1 threshold (Fin (r1 c / g c)) (Fin (g c / r3 c))
         /\ at1 s2 c = clamp_s2 threshold (Fin (r1 c / g c)) (Fin (g c / r3 c))
         /\ 0 < r1 c / g c /\ 0 < g c / r3 c.
Proof.
  destruct (equalize_cdc_real_ok C I KH KW I2 KH2 KW2 O KH3 KW3 W1 B1 W2 B2 W3 threshold
              HI HKH HKW HI2 HKH2 HKW2 HO HKH3 HKW3)
    as (w1' & b1' & w2' & b2' & w3' & s1 & s2 & E & Hs1 & Hs2 & Hw1 & Hb1 & Hw2 & Hb2 & Hw3).
  exists w1', b1', w2', b2', w3', s1, s2. split; [exact E|].
  destruct (equalize_cdc_dims _ _ _ _ _ _ _ _ _ _ _ _ E) as (Hd1 & Hd2 & Hd3).
  repeat (split; [assumption|]).
  intros c H1 H2 H3.
  assert (Hp : 0 < r1 c * r2 c * r3 c) by (repeat apply Rmult_lt_0_compat; assumption).
  pose proof (geometric_mean3_pos (r1 c) (r2 c) (r3 c)) as Hg.
  assert (Eraw1 : fdiv (Fin (r1 c))
                    (fpow (fmul (fmul (Fin (r1 c)) (Fin (r2 c))) (Fin (r3 c))) (1 / 3))
                  = Fin (r1 c / g c)).
  { cbn [fmul]. rewrite fpow_Fin by assumption. rewrite fdiv_Fin; [reflexivity|].
    fold (g c). lra. }
  assert (Eraw2 : fdiv (fpow (fmul (fmul (Fin (r1 c)) (Fin (r3 c))) (Fin (r2 c))) (1 / 3))
                    (Fin (r3 c))
                  = Fin (g c / r3 c)).
  { cbn [fmul]. replace (r1 c * r3 c * r2 c) with (r1 c * r2 c * r3 c) by ring.
    rewrite fpow_Fin by assumption. rewrite fdiv_Fin by lra. reflexivity. }
  rewrite Hs1, Hs2, Eraw1, Eraw2. repeat split.
  - now apply Rdiv_lt_0_compat.
  - now apply Rdiv_lt_0_compat.
Qed.
End Cdc_scales.

Lemma nonzero_channels3_ranges I KH KW I2 KH2 KW2 O KH3 KW3 W1 W2 W3 c :
  nonzero_channels3 I KH KW I2 KH2 KW2 O KH3 KW3 W1 W2 W3 c ->
  0 < range_123 I KH KW (W1 c)
  /\ 0 < range_123 I2 KH2 KW2 (W2 c)
  /\ 0 < range_123 O KH3 KW3 (fun o h k => W3 o c h k).
Proof.
  intros [(i & h & k & Hi & Hh & Hk & Hne)
          [(i2 & h2 & k2 & Hi2 & Hh2 & Hk2 & Hne2) (o & h3 & k3 & Ho & Hh3 & Hk3 & Hne3)]].
  repeat split.
  - exact (range_123_pos I KH KW (W1 c) i h k Hi Hh Hk Hne).
  - exact (range_123_pos I2 KH2 KW2 (W2 c) i2 h2 k2 Hi2 Hh2 Hk2 Hne2).
  - exact (range_123_pos O KH3 KW3 (fun o h k => W3 o c h k) o h3 k3 Ho Hh3 Hk3 Hne3).
Qed.

(** X9: the two factors of [equalize_cdc] on a channel with non-zero
    ranges, for any threshold.  With [g] the third root of [r1 * r2 * r3],
    the unclamped factors are [r1 / g] and [g / r3].  When their ratio does
    not exceed the threshold both are kept.  When it does, [s1] is 1, and [s2]
    is 1 only if moreover [1 / (g / r3)] exceeds the threshold; otherwise
    [s2] keeps its value.  In every case both factors are positive and
    finite.  In real arithmetic. *)
Theorem equalize_cdc_scale_cases
    (C I KH KW I2 KH2 KW2 O KH3 KW3 : nat)
    (W1 : nat -> nat -> nat -> nat -> R) (B1 : nat -> R)
    (W2 : nat -> nat -> nat -> nat -> R) (B2 : nat -> R)
    (W3 : nat -> nat -> nat -> nat -> R) (threshold : R) :
  (0 < I)%nat -> (0 < KH)%nat -> (0 < KW)%nat ->
  (0 < I2)%nat -> (0 < KH2)%nat -> (0 < KW2)%nat ->
  (0 < O)%nat -> (0 < KH3)%nat -> (0 < KW3)%nat ->
  exists w1' b1' w2' b2' w3' s1 s2,
    equalize_cdc (real4 C I KH KW W1) (Some (real1 C B1)) (real4 C I2 KH2 KW2 W2)
      (Some (real1 C B2)) (real4 O C KH3 KW3 W3) threshold
    = Ok (w1', b1', w2', b2', w3', (s1, s2))
    /\ forall c, (c < C)%nat ->
         nonzero_channels3 I KH KW I2 KH2 KW2 O KH3 KW3 W1 W2 W3 c ->
         let r1 := range_123 I KH KW (W1 c) in
         let r3 := range_123 O KH3 KW3 (fun o h k => W3 o c h k) in
         let g := geometric_mean3 r1 (range_123 I2 KH2 KW2 (W2 c)) r3 in
         (r1 / g / (g / r3) <= threshold ->
            at1 s1 c = Fin (r1 / g) /\ at1 s2 c = Fin (g / r3))
         /\ (threshold < r1 / g / (g / r3) ->
               at1 s1 c = Fin 1
               /\ (threshold < 1 / (g / r3) -> at1 s2 c = Fin 1)
               /\ (1 / (g / r3) <= threshold -> at1 s2 c = Fin (g / r3)))
         /\ exists S1 S2, at1 s1 c = Fin S1 /\ at1 s2 c = Fin S2 /\ 0 < S1 /\ 0 < S2.
Proof.
  intros HI HKH HKW HI2 HKH2 HKW2 HO HKH3 HKW3.
  destruct (equalize_cdc_real_scales C I KH KW I2 KH2 KW2 O KH3 KW3 W1 B1 W2 B2 W3 threshold
              HI HKH HKW HI2 HKH2 HKW2 HO HKH3 HKW3)
    as (w1' & b1' & w2' & b2' & w3' & s1 & s2 & E & _ & _ & _ & _ & _ & _ & _ & _ & Hsc).
  exists w1', b1', w2', b2', w3', s1, s2. split; [exact E|]. intros c Hc Hnz r1 r3 g.
  destruct (nonzero_channels3_ranges _ _ _ _ _ _ _ _ _ _ _ _ _ Hnz) as (H1 & H2 & H3).
  destruct (Hsc c H1 H2 H3) as (Es1 & Es2 & Hu1 & Hu2). fold r1 r3 g in Es1, Es2, Hu1, Hu2.
  rewrite Es1, Es2.
  destruct (clamp_cases threshold (r1 / g) (g / r3) Hu1 Hu2) as [Hle Hgt].
  split; [exact Hle|]. split; [exact Hgt|].
  exact (clamp_positive threshold (r1 / g) (g / r3) Hu1 Hu2).
Qed.

(** X10: on a channel with non-zero ranges whose unclamped factors have a
    ratio within the threshold, [equalize_cdc] leaves the three weights with
    the same range on that channel, the third root of [r1 * r2 * r3].  In
    real arithmetic. *)
Theorem equalize_cdc_balances_ranges
    (C I KH KW I2 KH2 KW2 O KH3 KW3 : nat)
    (W1 : nat -> nat -> nat -> nat -> R) (B1 : nat -> R)
    (W2 : nat -> nat -> nat -> nat -> R) (B2 : nat -> R)
    (W3 : nat -> nat -> nat -> nat -> R) (threshold : R) :
  (0 < I)%nat -> (0 < KH)%nat -> (0 < KW)%nat ->
  (0 < I2)%nat -> (0 < KH2)%nat -> (0 < KW2)%nat ->
  (0 < O)%nat -> (0 < KH3)%nat -> (0 < KW3)%nat ->
  exists w1' b1' w2' b2' w3' s1 s2,
    equalize_cdc (real4 C I KH KW W1) (Some (real1 C B1)) (real4 C I2 KH2 KW2 W2)
      (Some (real1 C B2)) (real4 O C KH3 KW3 W3) threshold
    = Ok (w1', b1', w2', b2', w3', (s1, s2))
    /\ forall c, (c < C)%nat ->
         nonzero_channels3 I KH KW I2 KH2 KW2 O KH3 KW3 W1 W2 W3 c ->
         let r1 := range_123 I KH KW (W1 c) in
         let r3 := range_123 O KH3 KW3 (fun o h k => W3 o c h k) in
         let g := geometric_mean3 r1 (range_123 I2 KH2 KW2 (W2 c)) r3 in
         r1 / g / (g / r3) <= threshold ->
         at1 (abs_amax_123 w1') c = Fin g
         /\ at1 (abs_amax_123 w2') c = Fin g
         /\ at1 (abs_amax_123 (permute_1023 w3')) c = Fin g.
Proof.
  intros HI HKH HKW HI2 HKH2 HKW2 HO HKH3 HKW3.
  destruct (equalize_cdc_real_scales C I KH KW I2 KH2 KW2 O KH3 KW3 W1 B1 W2 B2 W3 threshold
              HI HKH HKW HI2 HKH2 HKW2 HO HKH3 HKW3)
    as (w1' & b1' & w2' & b2' & w3' & s1 & s2 & E & Hw1 & _ & Hw2 & _ & Hw3
        & (D1 & D2 & D3) & (E1 & E2 & E3) & (F0 & F2 & F3) & Hsc).
  exists w1', b1', w2', b2', w3', s1, s2. split; [exact E|]. intros c Hc Hnz r1 r3 g Hle.
  destruct (nonzero_channels3_ranges _ _ _ _ _ _ _ _ _ _ _ _ _ Hnz) as (H1 & H2 & H3).
  destruct (Hsc c H1 H2 H3) as (Es1 & Es2 & Hu1 & Hu2).
  set (r2 := range_123 I2 KH2 KW2 (W2 c)) in *.
  fold r1 r3 g in Es1, Es2, Hu1, Hu2, H1, H3.
  destruct (clamp_cases threshold (r1 / g) (g / r3) Hu1 Hu2) as [Hcase _].
  destruct (Hcase Hle) as [C1 C2]. rewrite C1 in Es1. rewrite C2 in Es2.
  pose proof (geometric_mean3_pos r1 r2 r3) as Hg. fold g in Hg.
  assert (Hcube : g * g * g = r1 * r2 * r3).
  { apply geometric_mean3_cube. repeat apply Rmult_lt_0_compat; assumption. }
  repeat split.
  - rewrite (abs_amax_finite w1' c (fun i h k => W1 c i h k * (1 / (r1 / g)))).
    + rewrite D1, D2, D3. rewrite range_123_scale.
      * fold r1. f_equal. field. split; lra.
      * left. apply Rdiv_lt_0_compat; lra.
    + now rewrite D1.
    + now rewrite D2.
    + now rewrite D3.
    + intros i h k _ _ _. rewrite Hw1, Es1. rewrite fdiv_Fin by lra. reflexivity.
  - rewrite (abs_amax_finite w2' c (fun i h k => W2 c i h k * (r1 / g / (g / r3)))).
    + rewrite E1, E2, E3. rewrite range_123_scale.
      * fold r2. f_equal.
        transitivity (r1 * r2 * r3 / (g * g)); [field; split; lra|].
        rewrite <- Hcube. field. lra.
      * left. apply Rdiv_lt_0_compat; assumption.
    + now rewrite E1.
    + now rewrite E2.
    + now rewrite E3.
    + intros i h k _ _ _. rewrite Hw2, Es1, Es2. cbn [fmul]. rewrite fdiv_Fin by lra.
      f_equal. field. split; lra.
  - rewrite (abs_amax_finite (permute_1023 w3') c (fun o h k => W3 o c h k * (g / r3))).
    + cbn [permute_1023 dim1 dim2 dim3]. rewrite F0, F2, F3. rewrite range_123_scale by lra.
      fold r3. f_equal. field. lra.
    + cbn [permute_1023 dim1]. now rewrite F0.
    + cbn [permute_1023 dim2]. now rewrite F2.
    + cbn [permute_1023 dim3]. now rewrite F3.
    + intros o h k _ _ _. cbn [permute_1023 at4]. rewrite Hw3, Es2. reflexivity.
Qed.

(** ** Equalization of three layers: the function computed *)

(** One convolution followed by its activation, before and after its output
    channel is divided by [S] and its taps by [S0]. *)
Lemma scaled_stage (a : activation) (w w' : Tensor4) (b b' : Tensor1)
    (Wr : nat -> nat -> nat -> R) (Br : R) (T : nat -> nat -> nat -> R)
    (S0 S : R) (c : nat) :
  0 < S0 -> 0 < S ->
  dim1 w' = dim1 w -> dim2 w' = dim2 w -> dim3 w' = dim3 w ->
  (forall i h k, at4 w c i h k = Fin (Wr i h k)) ->
  (forall i h k, at4 w' c i h k = Fin (Wr i h k * S0 / S)) ->
  at1 b c = Fin Br ->
  at1 b' c = Fin (Br / S) ->
  exists Y,
    apply_activation a c (conv2d_at w b (fun i h k => Fin (T i h k)) c) = Fin Y
    /\ apply_activation a c (conv2d_at w' b' (fun i h k => Fin (T i h k / S0)) c)
       = Fin (Y / S).
Proof.
  intros HS0 HS D1 D2 D3 Hw Hw' Hb Hb'.
  rewrite (conv2d_at_Fin w b Wr T Br c) by (intros; auto).
  rewrite (conv2d_at_Fin w' b' (fun i h k => Wr i h k * S0 / S) (fun i h k => T i h k / S0)
             (Br / S) c) by (intros; auto).
  rewrite !apply_activation_Fin. eexists. split; [reflexivity|]. f_equal.
  rewrite D1, D2, D3. set (l := index3 (dim1 w) (dim2 w) (dim3 w)).
  rewrite (Rsum_map_ext (fun '(i, h, k) => Wr i h k * S0 / S * (T i h k / S0))
             (fun x => (fun '(i, h, k) => Wr i h k * T i h k) x * / S) l).
  - rewrite (Rsum_map_scale (fun '(i, h, k) => Wr i h k * T i h k) (/ S) l).
    set (V := Rsum (map (fun '(i, h, k) => Wr i h k * T i h k) l)).
    replace (V * / S + Br / S) with (/ S * (V + Br)) by (field; lra).
    rewrite activation_positive_homogeneous by (apply Rinv_0_lt_compat; lra).
    field. lra.
  - intros [[i h] k] _. field. split; lra.
Qed.

Lemma conv2d_at_taps w b t t' o :
  (forall i h k, t i h k = t' i h k) -> conv2d_at w b t o = conv2d_at w b t' o.
Proof. intros H. apply conv2d_at_ext; try reflexivity. intros. now rewrite H. Qed.

(** X11: for a convolution, a depthwise convolution and a convolution with
    finite weights every channel of which has a non-zero range, and for each
    of the activations ReLU, LeakyReLU, PReLU and Identity after the first
    and after the second, [conv3(act2(conv2(act1(conv1(x)))))] has the same
    value before and after [equalize_cdc], for every finite input and every
    threshold: whichever factors the clamp resets, those that remain are
    positive.  In real arithmetic. *)
Theorem equalize_cdc_preserves_three_layer_function
    (a1 a2 : activation) (C I KH KW KH2 KW2 O KH3 KW3 : nat)
    (W1 : nat -> nat -> nat -> nat -> R) (B1 : nat -> R)
    (W2 : nat -> nat -> nat -> nat -> R) (B2 : nat -> R)
    (W3 : nat -> nat -> nat -> nat -> R) (B3 : nat -> R) (threshold : R) :
  (0 < I)%nat -> (0 < KH)%nat -> (0 < KW)%nat ->
  (0 < KH2)%nat -> (0 < KW2)%nat ->
  (0 < O)%nat -> (0 < KH3)%nat -> (0 < KW3)%nat ->
  (forall c, (c < C)%nat -> nonzero_channels3 I KH KW 1 KH2 KW2 O KH3 KW3 W1 W2 W3 c) ->
  let weight1 := real4 C I KH KW W1 in
  let bias1 := real1 C B1 in
  let weight2 := real4 C 1 KH2 KW2 W2 in
  let bias2 := real1 C B2 in
  let weight3 := real4 O C KH3 KW3 W3 in
  let bias3 := real1 O B3 in
  exists w1' b1' w2' b2' w3' s1 s2,
    equalize_cdc weight1 (Some bias1) weight2 (Some bias2) weight3 threshold
    = Ok (w1', b1', w2', b2', w3', (s1, s2))
    /\ forall (X : nat -> nat -> nat -> nat -> nat -> R)
              (site2 : nat -> nat -> nat -> option nat) (site3 : nat -> nat -> option nat)
              (o : nat),
         three_layer a1 a2 w1' b1' w2' b2' w3' bias3
           (fun q c i h w => Fin (X q c i h w)) site2 site3 o
         = three_layer a1 a2 weight1 bias1 weight2 bias2 weight3 bias3
             (fun q c i h w => Fin (X q c i h w)) site2 site3 o.
Proof.
  intros HI HKH HKW HKH2 HKW2 HO HKH3 HKW3 Hnz weight1 bias1 weight2 bias2 weight3 bias3.
  destruct (equalize_cdc_real_scales C I KH KW 1 KH2 KW2 O KH3 KW3 W1 B1 W2 B2 W3 threshold
              HI HKH HKW Nat.lt_0_1 HKH2 HKW2 HO HKH3 HKW3)
    as (w1' & b1' & w2' & b2' & w3' & s1 & s2 & E & Hw1 & Hb1 & Hw2 & Hb2 & Hw3
        & (D1 & D2 & D3) & (E1 & E2 & E3) & (F0 & F2 & F3) & Hsc).
  exists w1', b1', w2', b2', w3', s1, s2. split; [exact E|]. intros X site2 site3 o.
  assert (Hscale : forall c, (c < C)%nat ->
            exists S1 S2, at1 s1 c = Fin S1 /\ at1 s2 c = Fin S2 /\ 0 < S1 /\ 0 < S2).
  { intros c Hc.
    destruct (nonzero_channels3_ranges _ _ _ _ _ _ _ _ _ _ _ _ _ (Hnz c Hc)) as (H1 & H2 & H3).
    destruct (Hsc c H1 H2 H3) as (Es1 & Es2 & Hu1 & Hu2).
    destruct (clamp_positive threshold _ _ Hu1 Hu2) as (S1 & S2 & C1 & C2 & P1 & P2).
    exists S1, S2. rewrite Es1, Es2. auto. }
  assert (F1 : dim1 w3' = C).
  { unfold equalize_cdc in E. destruct (negb _); [discriminate|].
    cbn [bias1 bias2 real1 size1] in E. destruct (negb _); [discriminate|].
    inversion E; subst. reflexivity. }
  unfold three_layer. apply conv2d_at_ext.
  - now rewrite F1.
  - now rewrite F2.
  - now rewrite F3.
  - reflexivity.
  - cbn [weight3 real4 dim1 dim2 dim3 at4]. intros c h k Hc Hh Hk.
    destruct (Hscale c Hc) as (S1 & S2 & Es1 & Es2 & P1 & P2).
    rewrite Hw3, Es2. destruct (site3 h k) as [p|]; [|cbn [fmul]; f_equal; ring].
    (* the first stage at every position *)
    assert (Hfirst : forall q, exists A,
              apply_activation a1 c (conv2d_at weight1 bias1 (fun i h w => Fin (X q c i h w)) c)
              = Fin A
              /\ apply_activation a1 c (conv2d_at w1' b1' (fun i h w => Fin (X q c i h w)) c)
                 = Fin (A / S1)).
    { intros q.
      destruct (scaled_stage a1 weight1 w1' bias1 b1' (W1 c) (B1 c) (X q c) 1 S1 c)
        as (A & EA & EA'); try assumption; try reflexivity; try lra.
      - intros i0 h0 k0. rewrite Hw1, Es1. rewrite fdiv_Fin by lra. cbn [fmul].
        f_equal. field. lra.
      - rewrite Hb1, Es1. rewrite fdiv_Fin by lra. cbn [fmul]. f_equal. field. lra.
      - exists A. split; [exact EA|]. rewrite <- EA'. f_equal.
        apply conv2d_at_taps. intros i0 h0 k0. f_equal. field. }
    (* the taps of the depthwise convolution *)
    set (T := fun (_ h' w' : nat) =>
                match site2 p h' w' with
                | None => 0
                | Some q =>
                    activation_real a1 c
                      (Rsum (map (fun '(i, h, w) => W1 c i h w * X q c i h w)
                                 (index3 I KH KW)) + B1 c)
                end).
    assert (Ht : forall i0 h' w',
              match site2 p h' w' with
              | None => Fin 0
              | Some q =>
                  apply_activation a1 c
                    (conv2d_at weight1 bias1 (fun i h w => Fin (X q c i h w)) c)
              end = Fin (T i0 h' w')).
    { intros i0 h' w'. unfold T. destruct (site2 p h' w') as [q|]; [|reflexivity].
      rewrite (conv2d_at_Fin weight1 bias1 (W1 c) (X q c) (B1 c) c);
        [|reflexivity|reflexivity].
      now rewrite apply_activation_Fin. }
    assert (Ht' : forall i0 h' w',
              match site2 p h' w' with
              | None => Fin 0
              | Some q =>
                  apply_activation a1 c
                    (conv2d_at w1' b1' (fun i h w => Fin (X q c i h w)) c)
              end = Fin (T i0 h' w' / S1)).
    { intros i0 h' w'. pose proof (Ht i0 h' w') as Hq. unfold T in Hq |- *.
      destruct (site2 p h' w') as [q|].
      - destruct (Hfirst q) as (A & EA & EA'). rewrite EA in Hq. inversion Hq as [HA].
        rewrite EA'. now rewrite HA.
      - f_equal. field. lra. }
    rewrite (conv2d_at_taps weight2 bias2 _ (fun i0 h' w' => Fin (T i0 h' w')) c)
      by (intros; apply Ht).
    rewrite (conv2d_at_taps w2' b2' _ (fun i0 h' w' => Fin (T i0 h' w' / S1)) c)
      by (intros; apply Ht').
    destruct (scaled_stage a2 weight2 w2' bias2 b2' (W2 c) (B2 c) T S1 S2 c)
      as (Y & EY & EY'); try assumption; try reflexivity.
    + intros i0 h0 k0. rewrite Hw2, Es1, Es2. cbn [fmul]. now rewrite fdiv_Fin by lra.
    + rewrite Hb2, Es2. rewrite fdiv_Fin by lra. cbn [fmul]. f_equal. field. lra.
    + rewrite EY, EY'. cbn [fmul]. f_equal. field. lra.
Qed.

(** ** Equalization of the groups: what it leaves alone *)

Lemma conv_of_inv model m conv :
  conv_of model m = Ok conv -> model (mod_key m) = Some (Conv2dObj conv).
Proof.
  unfold conv_of. destruct (model (mod_key m)) as [[c| |]|]; try discriminate.
  intros E. now inversion E.
Qed.

Lemma changed_only_at_refl keys model : changed_only_at keys model model.
Proof. intros k. split; reflexivity. Qed.

Lemma changed_only_at_trans keys1 keys2 m1 m2 m3 :
  changed_only_at keys1 m1 m2 -> changed_only_at keys2 m2 m3 ->
  changed_only_at (keys1 ++ keys2) m1 m3.
Proof.
  intros H12 H23 k. destruct (H12 k) as [A1 B1]. destruct (H23 k) as [A2 B2]. split.
  - intros Hk. rewrite A2, A1; [reflexivity| |]; intros Hin; apply Hk, in_or_app; auto.
  - now rewrite B2.
Qed.

Lemma changed_only_at_setattr keys model m conv conv' :
  model (mod_key m) = Some (Conv2dObj conv) -> In (mod_key m) keys ->
  changed_only_at keys model (setattr model (mod_key m) (Conv2dObj conv')).
Proof.
  intros Hm Hin k. unfold class_at, setattr. destruct (String.eqb k (mod_key m)) eqn:E.
  - apply String.eqb_eq in E. subst k. split; [contradiction|]. now rewrite Hm.
  - split; reflexivity.
Qed.

Lemma changed_only_at_incl keys keys' m m' :
  incl keys keys' -> changed_only_at keys m m' -> changed_only_at keys' m m'.
Proof.
  intros Hi H k. destruct (H k) as [A B]. split; [|exact B].
  intros Hk. apply A. intros Hin. apply Hk. now apply Hi.
Qed.

Lemma setattr_keeps_conv model k obj m conv :
  model (mod_key m) = Some (Conv2dObj conv) ->
  exists conv', setattr model k (Conv2dObj obj) (mod_key m) = Some (Conv2dObj conv').
Proof.
  intros H. unfold setattr. destruct (String.eqb (mod_key m) k); eauto.
Qed.

Lemma weight_equal_helper_frame (cls : Group) threshold model model' :
  _weight_equal_helper cls threshold model = Ok model' ->
  changed_only_at (group_keys cls) model model'.
Proof.
  unfold _weight_equal_helper, group_keys.
  destruct cls as [|l0 [|l1 [|l2 [|l3 r]]]]; cbn [map];
    try (intros E; inversion E; subst; apply changed_only_at_refl).
  - destruct (conv_of model (snd l0)) as [c0|] eqn:E0; [|discriminate].
    destruct (conv_of model (snd l1)) as [c1|] eqn:E1; [|discriminate]. cbn [bind].
    destruct (equalize _ _ _) as [[[[w1 b1] w2] s]|]; [|discriminate]. cbn [bind].
    intros E. inversion E; subst; clear E.
    apply conv_of_inv in E0, E1.
    apply (changed_only_at_incl ([mod_key (snd l0)] ++ [mod_key (snd l1)]));
      [apply incl_refl|].
    eapply changed_only_at_trans.
    + apply (changed_only_at_setattr _ model (snd l0) c0); [exact E0|now left].
    + destruct (setattr_keeps_conv model (mod_key (snd l0))
                  (bn_scale {| weight := w1; bias := Some b1; fused_bn_ := fused_bn_ c0 |}
                     (reciprocal s)) (snd l1) c1 E1) as [c1' E1'].
      apply (changed_only_at_setattr _ _ (snd l1) c1'); [exact E1'|now left].
  - destruct (negb _); [discriminate|].
    destruct (conv_of model (snd l0)) as [c0|] eqn:E0; [|discriminate].
    destruct (conv_of model (snd l1)) as [c1|] eqn:E1; [|discriminate].
    destruct (conv_of model (snd l2)) as [c2|] eqn:E2; [|discriminate]. cbn [bind].
    destruct (equalize_cdc _ _ _ _ _ _) as [[[[[[w1 b1] w2] b2] w3] [s1 s2]]|];
      [|discriminate]. cbn [bind].
    intros E. inversion E; subst; clear E.
    apply conv_of_inv in E0, E1, E2.
    apply (changed_only_at_incl
             (([mod_key (snd l0)] ++ [mod_key (snd l1)]) ++ [mod_key (snd l2)]));
      [apply incl_refl|].
    destruct (setattr_keeps_conv model (mod_key (snd l0))
                (bn_scale {| weight := w1; bias := Some b1; fused_bn_ := fused_bn_ c0 |}
                   (reciprocal s1)) (snd l1) c1 E1) as [c1' E1'].
    destruct (setattr_keeps_conv model (mod_key (snd l0))
                (bn_scale {| weight := w1; bias := Some b1; fused_bn_ := fused_bn_ c0 |}
                   (reciprocal s1)) (snd l2) c2 E2) as [c2' E2'].
    destruct (setattr_keeps_conv _ (mod_key (snd l1))
                (bn_scale {| weight := w2; bias := Some b2; fused_bn_ := fused_bn_ c1 |}
                   (reciprocal s2)) (snd l2) c2' E2') as [c2'' E2''].
    eapply changed_only_at_trans; [eapply changed_only_at_trans|].
    + apply (changed_only_at_setattr _ model (snd l0) c0); [exact E0|now left].
    + apply (changed_only_at_setattr _ _ (snd l1) c1'); [exact E1'|now left].
    + apply (changed_only_at_setattr _ _ (snd l2) c2''); [exact E2''|now left].
Qed.

Lemma equalize_groups_frame layer_groups : forall threshold model model',
  equalize_groups layer_groups threshold model = Ok model' ->
  changed_only_at (flat_map group_keys layer_groups) model model'.
Proof.
  induction layer_groups as [|cls rest IH]; intros threshold model model' E.
  - inversion E; subst. apply changed_only_at_refl.
  - cbn [equalize_groups flat_map] in *.
    destruct (_weight_equal_helper cls threshold model) as [m1|] eqn:E1; [|discriminate].
    cbn [bind] in E. eapply changed_only_at_trans.
    + exact (weight_equal_helper_frame _ _ _ _ E1).
    + exact (IH _ _ _ E).
Qed.

(** X12: a pass of [_cross_layer_equalize] that returns has discovered its
    groups on the graph traced from the model it was given, leaves every
    module with the class it had, and leaves unchanged every module that is
    in none of these groups. *)
Theorem equalization_changes_group_layers_only
    (trace : Model -> TraceGraph) (model : Model) (threshold : R)
    (layer_groups : list Group) (model' : Model) (k : string) :
  _cross_layer_equalize trace model threshold = Ok (layer_groups, model') ->
  layer_groups = get_cls_set (trace model)
  /\ option_map class_of (model' k) = option_map class_of (model k)
  /\ ((forall g l, In g layer_groups -> In l g -> mod_key (snd l) <> k) ->
      model' k = model k).
Proof.
  unfold _cross_layer_equalize. intros E.
  destruct (equalize_groups (get_cls_set (trace model)) threshold model) as [m1|] eqn:E1;
    [|discriminate].
  cbn [bind] in E. inversion E; subst; clear E. split; [reflexivity|].
  destruct (equalize_groups_frame _ _ _ _ E1 k) as [A B]. split; [exact B|].
  intros Hk. apply A. intros Hin. apply in_flat_map in Hin. destruct Hin as [g [Hg Hin]].
  unfold group_keys in Hin. apply in_map_iff in Hin. destruct Hin as [l [El Hl]].
  exact (Hk g l Hg Hl El).
Qed.

(** ** Bias absorption: what it leaves alone *)

Lemma same_but_bias_refl a : same_but_bias a a.
Proof. destruct a as [[c|c bn|]|]; cbn; auto. Qed.

Lemma same_but_bias_trans a b c :
  same_but_bias a b -> same_but_bias b c -> same_but_bias a c.
Proof.
  unfold same_but_bias.
  destruct a as [[ca|ca bna|]|]; destruct b as [[cb|cb bnb|]|];
    destruct c as [[cc|cc bnc|]|]; try congruence; try (intuition congruence).
Qed.

Lemma biases_changed_at_refl keys model : biases_changed_at keys model model.
Proof. intros k. split; [apply same_but_bias_refl|reflexivity]. Qed.

Lemma biases_changed_at_trans keys m1 m2 m3 :
  biases_changed_at keys m1 m2 -> biases_changed_at keys m2 m3 ->
  biases_changed_at keys m1 m3.
Proof.
  intros H12 H23 k. destruct (H12 k) as [A1 B1]. destruct (H23 k) as [A2 B2]. split.
  - now apply same_but_bias_trans with (m2 k).
  - intros Hk. now rewrite B2, B1.
Qed.

Lemma biases_changed_at_incl keys keys' m m' :
  incl keys keys' -> biases_changed_at keys m m' -> biases_changed_at keys' m m'.
Proof.
  intros Hi H k. destruct (H k) as [A B]. split; [exact A|].
  intros Hk. apply B. intros Hin. apply Hk. now apply Hi.
Qed.

Lemma set_bias_data_frame model name b model' :
  set_bias_data model name b = Ok model' -> biases_changed_at [name] model model'.
Proof.
  unfold set_bias_data. destruct (model name) as [[conv| |]|] eqn:Em; try discriminate.
  destruct (bias conv); [|discriminate]. intros E. inversion E; subst. intros k.
  unfold setattr. destruct (String.eqb k name) eqn:Ek.
  - apply String.eqb_eq in Ek. subst k. rewrite Em. cbn. split; [auto|].
    intros Hk. exfalso. apply Hk. now left.
  - split; [apply same_but_bias_refl|reflexivity].
Qed.

Lemma bias_absorb_helper_frame layer1 layer2 model origin_model origin' :
  bias_absorb_helper_ layer1 layer2 model origin_model = Ok origin' ->
  biases_changed_at [fst layer1; fst layer2] origin_model origin'.
Proof.
  unfold bias_absorb_helper_. destruct (_ || _).
  { intros E. inversion E; subst. apply biases_changed_at_refl. }
  destruct (getattr model (fst layer1)) as [pre_layer|]; [|discriminate].
  destruct (getattr model (fst layer2)) as [cur_layer|]; [|discriminate]. cbn [bind].
  destruct (bind_pre_bn pre_layer cur_layer) as [pre_bn cur_conv| |]; [| |discriminate].
  - destruct (absorbable pre_bn) as [c|]; [|discriminate]. cbn [bind].
    destruct (bias_correction cur_conv c) as [bias_correct|]; [|discriminate]. cbn [bind].
    destruct (match bias cur_conv with Some b => _ | None => _ end) as [cur_bias|];
      [|discriminate]. cbn [bind].
    destruct (getattr origin_model (fst layer1)) as [origin_pre_conv|]; [|discriminate].
    destruct (getattr origin_model (fst layer2)) as [origin_cur_conv|]; [|discriminate].
    cbn [bind].
    destruct (bias_data origin_pre_conv) as [pre_bias|]; [|discriminate]. cbn [bind].
    destruct (broadcast1 fsub pre_bias c) as [new_pre_bias|]; [|discriminate]. cbn [bind].
    destruct (set_bias_data origin_model (fst layer1) new_pre_bias) as [m1|] eqn:E1;
      [|discriminate]. cbn [bind].
    intros E2. apply set_bias_data_frame in E1, E2.
    eapply biases_changed_at_trans.
    + eapply biases_changed_at_incl; [|exact E1]. intros n [Hn|[]]. now left.
    + eapply biases_changed_at_incl; [|exact E2]. intros n [Hn|[]]. right. now left.
  - intros E. inversion E; subst. apply biases_changed_at_refl.
Qed.

Lemma bias_absorb_group_frame model layer_group origin_model origin' :
  bias_absorb_group model layer_group origin_model = Ok origin' ->
  biases_changed_at (names layer_group) origin_model origin'.
Proof.
  unfold bias_absorb_group.
  destruct layer_group as [|l0 [|l1 [|l2 [|l3 r]]]];
    try (intros E; inversion E; subst; apply biases_changed_at_refl).
  - intros E. apply bias_absorb_helper_frame in E.
    eapply biases_changed_at_incl; [|exact E]. apply incl_refl.
  - destruct (bias_absorb_helper_ l0 l1 model origin_model) as [m1|] eqn:E1; [|discriminate].
    cbn [bind]. intros E2. apply bias_absorb_helper_frame in E1, E2.
    eapply biases_changed_at_trans.
    + eapply biases_changed_at_incl; [|exact E1].
      intros n [Hn|[Hn|[]]]; subst n; cbn; auto.
    + eapply biases_changed_at_incl; [|exact E2].
      intros n [Hn|[Hn|[]]]; subst n; cbn; auto.
Qed.

Lemma bias_absorb_frame model layers_groups : forall origin_model origin',
  bias_absorb_ model layers_groups origin_model = Ok origin' ->
  biases_changed_at (flat_map names layers_groups) origin_model origin'.
Proof.
  induction layers_groups as [|g rest IH]; intros origin_model origin' E.
  - inversion E; subst. apply biases_changed_at_refl.
  - cbn [bias_absorb_ flat_map] in *.
    destruct (bias_absorb_group model g origin_model) as [m1|] eqn:E1; [|discriminate].
    cbn [bind] in E. apply bias_absorb_group_frame in E1. apply IH in E.
    eapply biases_changed_at_trans.
    + eapply biases_changed_at_incl; [|exact E1]. now apply incl_appl.
    + eapply biases_changed_at_incl; [|exact E]. now apply incl_appr.
Qed.

(** X13: a call of [high_bias_absorb] that returns has changed nothing but
    biases of Conv2d modules: every module of the result has the class, the
    weight and the fused batch-norm it had, and a module that no group names
    is unchanged. *)
Theorem absorption_changes_biases_only
    (cle_model : Model) (layer_groups : list Group) (model' : Model) (k : string) :
  high_bias_absorb cle_model layer_groups = Ok model' ->
  same_but_bias (cle_model k) (model' k)
  /\ ((forall g l, In g layer_groups -> In l g -> fst l <> k) -> model' k = cle_model k).
Proof.
  intros E. unfold high_bias_absorb in E.
  destruct (bias_absorb_frame _ _ _ _ E k) as [A B]. split; [exact A|].
  intros Hk. apply B. intros Hin. apply in_flat_map in Hin. destruct Hin as [g [Hg Hin]].
  unfold names in Hin. apply in_map_iff in Hin. destruct Hin as [l [El Hl]].
  exact (Hk g l Hg Hl El).
Qed.

(** ** Layers without a fused batch-norm *)

Lemma helper_skips_plain_producer layer1 layer2 model origin_model :
  plain_conv model layer1 ->
  (exists cur, model (fst layer2) = Some cur) ->
  bias_absorb_helper_ layer1 layer2 model origin_model = Ok origin_model.
Proof.
  intros (conv & Hm & Hbn) (cur & Hcur). unfold bias_absorb_helper_.
  destruct (_ || _); [reflexivity|].
  unfold getattr. rewrite Hm, Hcur. cbn [bind].
  unfold bind_pre_bn. cbn [isinstance_obj class_of module_class_eqb andb fused_bn_of].
  rewrite Hbn. reflexivity.
Qed.

Lemma plain_bound model l : plain_conv model l -> exists cur, model (fst l) = Some cur.
Proof. intros (conv & Hm & _). eauto. Qed.

Lemma bias_absorb_plain model layers_groups : forall origin_model,
  (forall g l, In g layers_groups -> In l g -> plain_conv model l) ->
  bias_absorb_ model layers_groups origin_model = Ok origin_model.
Proof.
  induction layers_groups as [|g rest IH]; intros origin_model H; [reflexivity|].
  cbn [bias_absorb_].
  assert (Hg : bias_absorb_group model g origin_model = Ok origin_model).
  { assert (Hp : forall l, In l g -> plain_conv model l)
      by (intros l Hl; apply (H g l); [now left|exact Hl]).
    unfold bias_absorb_group. destruct g as [|l0 [|l1 [|l2 [|l3 r]]]]; try reflexivity.
    - apply helper_skips_plain_producer; [|apply plain_bound]; apply Hp; cbn; auto.
    - rewrite helper_skips_plain_producer; [|apply Hp; cbn; auto
                                             |apply plain_bound, Hp; cbn; auto].
      cbn [bind].
      apply helper_skips_plain_producer; [|apply plain_bound]; apply Hp; cbn; auto. }
  rewrite Hg. cbn [bind]. apply IH. intros g' l Hg' Hl. apply (H g' l); [now right|exact Hl].
Qed.

(** X14: when every layer of the groups is a Conv2d that carries no fused
    batch-norm, [high_bias_absorb] returns the model as it was, without an
    error: each pair is skipped. *)
Theorem absorption_skips_layers_without_fused_bn
    (model : Model) (layer_groups : list Group) :
  (forall g l, In g layer_groups -> In l g ->
     exists conv, model (fst l) = Some (Conv2dObj conv) /\ fused_bn_ conv = None) ->
  high_bias_absorb model layer_groups = Ok model.
Proof. intros H. unfold high_bias_absorb. now apply bias_absorb_plain. Qed.

(** ** The driver and the debug entry point *)

Lemma clear_model_no_bn model k obj :
  clear_model_fused_bn model k = Some obj -> attached_bn obj = None.
Proof.
  unfold clear_model_fused_bn. destruct (model k) as [[c|c bn|]|]; intros E; inversion E;
    reflexivity.
Qed.

Lemma clear_model_weight model k :
  option_map weight_of (clear_model_fused_bn model k) = option_map weight_of (model k).
Proof. unfold clear_model_fused_bn. destruct (model k) as [[c|c bn|]|]; reflexivity. Qed.

Lemma clear_model_conv model k conv :
  clear_model_fused_bn model k = Some (Conv2dObj conv) -> fused_bn_ conv = None.
Proof. intros H. exact (clear_model_no_bn model k _ H). Qed.

Lemma same_but_bias_weight a b :
  same_but_bias a b -> option_map weight_of b = option_map weight_of a.
Proof.
  unfold same_but_bias. destruct a as [[c|c bn|]|]; destruct b as [[c'|c' bn'|]|];
    try congruence; try discriminate.
  intros [H _]. cbn. now rewrite H.
Qed.

(** X15: the model that [cross_layer_equalize] returns carries no fused
    batch-norm on any module; hence [high_bias_absorb] applied to it
    afterwards, on groups of Conv2d modules, returns it unchanged. *)
Theorem driver_result_has_no_fused_bn
    (model_rewrite model_fuse_bn : Model -> Model) (trace : Model -> TraceGraph)
    (model : Model) (threshold : R) (cle_iters : nat) (hba_flag : bool) (model' : Model) :
  cross_layer_equalize model_rewrite model_fuse_bn trace model threshold cle_iters hba_flag
  = Ok model' ->
  (forall k obj, model' k = Some obj -> attached_bn obj = None)
  /\ forall layer_groups,
       (forall g l, In g layer_groups -> In l g ->
          exists conv, model' (fst l) = Some (Conv2dObj conv)) ->
       high_bias_absorb model' layer_groups = Ok model'.
Proof.
  unfold cross_layer_equalize. intros E.
  destruct (cle_loop trace cle_iters threshold None _) as [[groups m]|]; [|discriminate].
  cbn [bind] in E.
  destruct (if hba_flag then _ else _) as [m1|]; [|discriminate]. cbn [bind] in E.
  inversion E; subst; clear E. split; [apply clear_model_no_bn|].
  intros layer_groups H. unfold high_bias_absorb. apply bias_absorb_plain.
  intros g l Hg Hl. destruct (H g l Hg Hl) as [conv Hc]. exists conv. split; [exact Hc|].
  now apply clear_model_conv with m1 (fst l).
Qed.

(** X16: [__high_bias_absorb] with [use_origin_bn] set is [high_bias_absorb]
    followed by [clear_model_fused_bn]; with [use_origin_bn] unset and no
    [cali_func] it absorbs nothing and returns the copy with its fused
    batch-norms removed, without an error; and whatever it is given, a result
    it returns has the weights of [cle_model] and no fused batch-norm. *)
Theorem debug_absorption_clears_and_keeps_weights
    (CaliFunc : Type) (model_restore_bn : Model -> CaliFunc -> list string -> Model)
    (named_modules : Model -> list (string * LayerObj))
    (cle_model : Model) (layer_groups : list Group) :
  (forall cali_func layers_fused_bn,
     __high_bias_absorb CaliFunc model_restore_bn named_modules cle_model layer_groups
       true cali_func layers_fused_bn
     = (m <- high_bias_absorb cle_model layer_groups ;; Ok (clear_model_fused_bn m)))
  /\ (forall layers_fused_bn,
        __high_bias_absorb CaliFunc model_restore_bn named_modules cle_model layer_groups
          false None layers_fused_bn
        = Ok (clear_model_fused_bn cle_model))
  /\ (forall use_origin_bn cali_func layers_fused_bn model',
        __high_bias_absorb CaliFunc model_restore_bn named_modules cle_model layer_groups
          use_origin_bn cali_func layers_fused_bn = Ok model' ->
        forall k,
          option_map weight_of (model' k) = option_map weight_of (cle_model k)
          /\ forall obj, model' k = Some obj -> attached_bn obj = None).
Proof.
  split; [reflexivity|]. split; [reflexivity|].
  intros use_origin_bn cali_func layers_fused_bn model' E k. unfold __high_bias_absorb in E.
  destruct (if use_origin_bn then _ else _) as [m1|] eqn:E1; [|discriminate].
  cbn [bind] in E. inversion E; subst; clear E. split; [|apply clear_model_no_bn].
  rewrite clear_model_weight. apply same_but_bias_weight.
  assert (H : biases_changed_at (flat_map names layer_groups) cle_model m1).
  { destruct use_origin_bn; [exact (bias_absorb_frame _ _ _ _ E1)|].
    destruct cali_func as [f|]; [exact (bias_absorb_frame _ _ _ _ E1)|].
    inversion E1; subst. apply biases_changed_at_refl. }
  apply H.
Qed.

(** ** A convolution without a bias *)

(** X17: a group whose tensors fit raises AttributeError when a layer whose
    bias is rescaled has none ([bias] is [None]): the first layer of a
    2-group, the first or the second layer of a 3-group. *)
Theorem equalization_raises_without_bias
    (model : Model) (threshold : R) (l0 l1 l2 : Layer) (c0 c1 c2 : Conv) :
  model (mod_key (snd l0)) = Some (Conv2dObj c0) ->
  model (mod_key (snd l1)) = Some (Conv2dObj c1) ->
  model (mod_key (snd l2)) = Some (Conv2dObj c2) ->
  (reducible_123 (weight c0) && reducible_123 (permute_1023 (weight c1))
   && (dim0 (weight c0) =? dim0 (permute_1023 (weight c1))) = true ->
   bias c0 = None ->
   _weight_equal_helper [l0; l1] threshold model = Err AttributeError)
  /\
  (is_normal_conv (snd l0) && is_dw_conv (snd l1) && is_normal_conv (snd l2) = true ->
   reducible_123 (weight c0) && reducible_123 (weight c1)
   && reducible_123 (permute_1023 (weight c2))
   && (dim0 (weight c0) =? dim0 (weight c1))
   && (dim0 (weight c1) =? dim0 (permute_1023 (weight c2))) = true ->
   bias c0 = None \/ bias c1 = None ->
   _weight_equal_helper [l0; l1; l2] threshold model = Err AttributeError).
Proof.
  intros M0 M1 M2. split.
  - intros Hfit Hb. unfold _weight_equal_helper. cbn [map].
    rewrite (conv_of_Conv2d _ _ _ M0), (conv_of_Conv2d _ _ _ M1). cbn [bind].
    unfold equalize. rewrite Hfit, Hb. reflexivity.
  - intros Hshape Hfit Hb. unfold _weight_equal_helper. cbn [map]. rewrite Hshape.
    cbn [negb].
    rewrite (conv_of_Conv2d _ _ _ M0), (conv_of_Conv2d _ _ _ M1), (conv_of_Conv2d _ _ _ M2).
    cbn [bind]. unfold equalize_cdc. rewrite Hfit. cbn [negb].
    destruct Hb as [Hb|Hb]; rewrite Hb; [reflexivity|].
    destruct (bias c0); reflexivity.
Qed.

(** ** The assertion under the driver *)

Lemma helper_error_of_supported (g : Group) threshold model e :
  is_group_supported g = true ->
  _weight_equal_helper g threshold model = Err e -> e <> AssertionError.
Proof.
  intros Hs E He. subst e. exact (supported_group_no_assertion g threshold model Hs E).
Qed.

Lemma equalize_groups_no_assertion layer_groups : forall threshold model e,
  Forall (fun g => is_group_supported g = true) layer_groups ->
  equalize_groups layer_groups threshold model = Err e -> e <> AssertionError.
Proof.
  induction layer_groups as [|g rest IH]; intros threshold model e Hs; [discriminate|].
  inversion Hs; subst. cbn [equalize_groups].
  destruct (_weight_equal_helper g threshold model) as [m1|e1] eqn:E1; cbn [bind].
  - now apply IH.
  - intros E. inversion E; subst. now apply (helper_error_of_supported g threshold model).
Qed.

Lemma cross_layer_equalize_pass_no_assertion trace model threshold e :
  _cross_layer_equalize trace model threshold = Err e -> e <> AssertionError.
Proof.
  unfold _cross_layer_equalize.
  destruct (equalize_groups _ threshold model) as [m1|e1] eqn:E1; cbn [bind]; [discriminate|].
  intros E. inversion E; subst.
  exact (equalize_groups_no_assertion _ _ _ _ (get_cls_set_supported (trace model)) E1).
Qed.

Lemma cle_loop_no_assertion trace n : forall threshold groups model e,
  cle_loop trace n threshold groups model = Err e -> e <> AssertionError.
Proof.
  induction n as [|n IH]; intros threshold groups model e; [discriminate|].
  cbn [cle_loop].
  destruct (_cross_layer_equalize trace model threshold) as [[g m]|e1] eqn:E1; cbn [bind].
  - apply IH.
  - intros E. inversion E; subst. now apply (cross_layer_equalize_pass_no_assertion trace model threshold).
Qed.

Lemma getattr_no_assertion model name e : getattr model name = Err e -> e <> AssertionError.
Proof. unfold getattr. destruct (model name); intros E; inversion E; discriminate. Qed.

Lemma broadcast1_no_assertion f a b e : broadcast1 f a b = Err e -> e <> AssertionError.
Proof.
  unfold broadcast1. repeat destruct (_ =? _)%nat; intros E; inversion E; discriminate.
Qed.

Lemma absorbable_no_assertion pre_bn e : absorbable pre_bn = Err e -> e <> AssertionError.
Proof.
  unfold absorbable.
  destruct (broadcast1 _ _ _) as [c|e1] eqn:E1; cbn [bind]; [discriminate|].
  intros E. inversion E; subst. exact (broadcast1_no_assertion _ _ _ _ E1).
Qed.

Lemma bias_correction_no_assertion cur_conv c e :
  bias_correction cur_conv c = Err e -> e <> AssertionError.
Proof.
  unfold bias_correction, matmul. destruct (_ =? 1)%nat; [apply broadcast1_no_assertion|].
  destruct (_ =? _)%nat; intros E; inversion E; discriminate.
Qed.

Lemma bias_data_no_assertion obj e : bias_data obj = Err e -> e <> AssertionError.
Proof.
  unfold bias_data. destruct obj as [conv| |]; [destruct (bias conv)| |];
    intros E; inversion E; discriminate.
Qed.

Lemma set_bias_data_no_assertion model name b e :
  set_bias_data model name b = Err e -> e <> AssertionError.
Proof.
  unfold set_bias_data. destruct (model name) as [[conv| |]|]; [destruct (bias conv)| | |];
    intros E; inversion E; discriminate.
Qed.

Lemma consumer_bias_no_assertion (cur_conv : Conv) bias_correct e :
  match bias cur_conv with
  | Some b => broadcast1 fadd b bias_correct
  | None => Err TypeError
  end = Err e -> e <> AssertionError.
Proof.
  destruct (bias cur_conv); [apply broadcast1_no_assertion|].
  intros E. inversion E; discriminate.
Qed.

Lemma bias_absorb_helper_no_assertion layer1 layer2 model origin_model e :
  bias_absorb_helper_ layer1 layer2 model origin_model = Err e -> e <> AssertionError.
Proof.
  unfold bias_absorb_helper_. destruct (_ || _); [discriminate|].
  run_call pre_layer E1 (getattr_no_assertion model (fst layer1)).
  run_call cur_layer E2 (getattr_no_assertion model (fst layer2)).
  destruct (bind_pre_bn pre_layer cur_layer) as [pre_bn cur_conv| |];
    [|discriminate|intros E; inversion E; discriminate].
  run_call c E3 (absorbable_no_assertion pre_bn).
  run_call bias_correct E4 (bias_correction_no_assertion cur_conv c).
  run_call cur_bias E5 (consumer_bias_no_assertion cur_conv bias_correct).
  run_call origin_pre_conv E6 (getattr_no_assertion origin_model (fst layer1)).
  run_call origin_cur_conv E7 (getattr_no_assertion origin_model (fst layer2)).
  run_call pre_bias E8 (bias_data_no_assertion origin_pre_conv).
  run_call new_pre_bias E9 (broadcast1_no_assertion fsub pre_bias c).
  run_call origin1 E10 (set_bias_data_no_assertion origin_model (fst layer1) new_pre_bias).
  apply set_bias_data_no_assertion.
Qed.

Lemma bias_absorb_no_assertion model layers_groups : forall origin_model e,
  bias_absorb_ model layers_groups origin_model = Err e -> e <> AssertionError.
Proof.
  induction layers_groups as [|g rest IH]; intros origin_model e; [discriminate|].
  cbn [bias_absorb_].
  destruct (bias_absorb_group model g origin_model) as [m1|e1] eqn:E1; cbn [bind];
    [apply IH|].
  intros E. inversion E; subst. unfold bias_absorb_group in E1.
  destruct g as [|l0 [|l1 [|l2 [|l3 r]]]]; try discriminate.
  - exact (bias_absorb_helper_no_assertion _ _ _ _ _ E1).
  - destruct (bias_absorb_helper_ l0 l1 model origin_model) as [m2|e2] eqn:E2;
      cbn [bind] in E1.
    + exact (bias_absorb_helper_no_assertion _ _ _ _ _ E1).
    + inversion E1; subst. exact (bias_absorb_helper_no_assertion _ _ _ _ _ E2).
Qed.

(** X18: [cross_layer_equalize] never fails the assertion on the shape of a
    3-group: whatever the model, the graph and the arguments, the error it
    raises, if any, is not an AssertionError. *)
Theorem driver_never_fails_the_shape_assertion
    (model_rewrite model_fuse_bn : Model -> Model) (trace : Model -> TraceGraph)
    (model : Model) (threshold : R) (cle_iters : nat) (hba_flag : bool) :
  cross_layer_equalize model_rewrite model_fuse_bn trace model threshold cle_iters hba_flag
  <> Err AssertionError.
Proof.
  unfold cross_layer_equalize.
  destruct (cle_loop trace cle_iters threshold None _) as [[groups m]|e] eqn:E1; cbn [bind].
  - destruct hba_flag; [|discriminate].
    destruct groups as [groups|]; [|discriminate].
    destruct (high_bias_absorb m groups) as [m1|e] eqn:E2; cbn [bind]; [discriminate|].
    intros E. inversion E; subst.
    exact (bias_absorb_no_assertion _ _ _ _ E2 eq_refl).
  - intros E. inversion E; subst.
    exact (cle_loop_no_assertion _ _ _ _ _ _ E1 eq_refl).
Qed.

(** ** Bias absorption: when nothing is moved, and the function computed *)

(** The result of [bias_absorb_helper_] on a pair that is absorbed, over
    finite parameters. *)
Lemma absorb_pair_real
    (layer1 layer2 : string * Module) (model origin_model : Model)
    (pre_layer cur_layer : LayerObj) (cur_conv opre ocur : Conv)
    (C O I KH KW : nat) (BNW BNB OB1 CB : nat -> R)
    (W : nat -> nat -> nat -> nat -> R) :
  hasattr_bias (snd layer1) = true ->
  hasattr_bias (snd layer2) = true ->
  fst layer1 <> fst layer2 ->
  model (fst layer1) = Some pre_layer ->
  model (fst layer2) = Some cur_layer ->
  bind_pre_bn pre_layer cur_layer
  = Bound (mkBatchNorm (real1 C BNW) (real1 C BNB)) cur_conv ->
  origin_model (fst layer1) = Some (Conv2dObj opre) ->
  origin_model (fst layer2) = Some (Conv2dObj ocur) ->
  weight cur_conv = real4 O I KH KW W ->
  bias cur_conv = Some (real1 O CB) ->
  bias opre = Some (real1 C OB1) ->
  bias ocur = bias cur_conv ->
  (I = 1%nat /\ O = C) \/ I = C ->
  exists origin' nb1 nb2,
    bias_absorb_helper_ layer1 layer2 model origin_model = Ok origin'
    /\ origin' (fst layer1)
       = Some (Conv2dObj (mkConv (weight opre) (Some nb1) (fused_bn_ opre)))
    /\ origin' (fst layer2)
       = Some (Conv2dObj (mkConv (weight ocur) (Some nb2) (fused_bn_ ocur)))
    /\ size1 nb1 = C /\ size1 nb2 = O
    /\ (forall ch, at1 nb1 ch = Fin (OB1 ch - absorbed BNW BNB ch))
    /\ (forall o, at1 nb2 o = Fin (CB o + correction O I KH KW C W (absorbed BNW BNB) o)).
Proof.
  intros H1 H2 Hne M1 M2 Hbind O1 O2 Hw Hcb Hob1 Hob2 Hshape.
  destruct (absorbable_real C BNW BNB) as (cv & Ec & Hs & Hcv).
  destruct (bias_correction_real cur_conv cv O I KH KW C W (absorbed BNW BNB)
              Hw Hs Hcv Hshape) as (corr & Ecorr & Hsz & Hcorr).
  assert (Hne' : fst layer2 <> fst layer1) by (intros E; apply Hne; now symmetry).
  unfold bias_absorb_helper_. rewrite H1, H2. cbn [negb orb].
  rewrite (getattr_Some _ _ _ M1), (getattr_Some _ _ _ M2). cbn [bind].
  rewrite Hbind. rewrite Ec. cbn [bind]. rewrite Ecorr. cbn [bind]. rewrite Hcb.
  unfold broadcast1 at 1. cbn [size1 real1]. rewrite Hsz, Nat.eqb_refl. cbn [bind].
  rewrite (getattr_Some _ _ _ O1), (getattr_Some _ _ _ O2). cbn [bind].
  cbn [bias_data]. rewrite Hob1. cbn [bind].
  unfold broadcast1. cbn [size1 real1]. rewrite Hs, Nat.eqb_refl. cbn [bind].
  unfold set_bias_data at 1. rewrite O1, Hob1. cbn [bind].
  unfold set_bias_data. rewrite (setattr_other _ _ _ _ Hne'). rewrite O2, Hob2, Hcb.
  do 3 eexists. split; [reflexivity|]. split; [|split; [|split; [|split; [|split]]]].
  - rewrite (setattr_other _ _ _ _ Hne). apply setattr_same.
  - apply setattr_same.
  - reflexivity.
  - reflexivity.
  - intros ch. cbn [map2_1 at1 real1]. rewrite Hcv. reflexivity.
  - intros o. cbn [map2_1 at1 real1]. rewrite Hcorr. reflexivity.
Qed.

Lemma Rsum_nil : Rsum [] = 0.
Proof. reflexivity. Qed.

Lemma Rsum_app l1 l2 : Rsum (l1 ++ l2) = Rsum l1 + Rsum l2.
Proof.
  induction l1 as [|x r IH]; [cbn [app]; rewrite Rsum_nil; lra|].
  cbn [app]. rewrite !Rsum_cons, IH. lra.
Qed.

Lemma Rsum_zero {A} (l : list A) : Rsum (map (fun _ => 0) l) = 0.
Proof. induction l as [|x r IH]; [reflexivity|]. cbn [map]. rewrite Rsum_cons, IH. lra. Qed.

Lemma Rsum_map_minus {A} (f g : A -> R) l :
  Rsum (map (fun a => f a - g a) l) = Rsum (map f l) - Rsum (map g l).
Proof.
  induction l as [|a r IH]; [cbn [map]; rewrite !Rsum_nil; lra|].
  cbn [map]. rewrite !Rsum_cons, IH. lra.
Qed.

Lemma map_kernel_entries (F : nat -> nat -> nat -> R) (i : nat) (l2 l3 : list nat) :
  map (fun '(i, h, w) => F i h w) (flat_map (fun h => map (fun w => (i, h, w)) l3) l2)
  = flat_map (fun h => map (fun w => F i h w) l3) l2.
Proof.
  induction l2 as [|h r IH]; [reflexivity|].
  cbn [flat_map]. rewrite map_app, IH. f_equal. now rewrite map_map.
Qed.

(** A sum over the entries of a kernel, channel by channel. *)
Lemma Rsum_index3 (F : nat -> nat -> nat -> R) d1 d2 d3 :
  Rsum (map (fun '(i, h, w) => F i h w) (index3 d1 d2 d3))
  = Rsum (map (fun i => kernel_sum d2 d3 (F i)) (seq 0 d1)).
Proof.
  unfold index3, kernel_sum. induction (seq 0 d1) as [|i r IH]; [reflexivity|].
  cbn [flat_map map]. rewrite map_app, Rsum_app, Rsum_cons, IH. f_equal.
  now rewrite map_kernel_entries.
Qed.

Lemma kernel_sum_scale KH KW (W : nat -> nat -> R) k :
  kernel_sum KH KW (fun h w => W h w * k) = kernel_sum KH KW W * k.
Proof.
  unfold kernel_sum. induction (seq 0 KH) as [|h r IH]; [cbn [flat_map]; rewrite Rsum_nil; lra|].
  cbn [flat_map]. rewrite !Rsum_app, IH.
  rewrite (Rsum_map_scale (fun w => W h w) k). lra.
Qed.

Lemma correction_as_sum O KH KW C W (c : nat -> R) o :
  (o < O)%nat ->
  correction O C KH KW C W c o
  = Rsum (map (fun '(i, h, w) => W o i h w * c i) (index3 C KH KW)).
Proof.
  intros Ho. rewrite (Rsum_index3 (fun i h w => W o i h w * c i)).
  unfold correction. destruct ((C =? 1)%nat && (O =? C)%nat) eqn:E.
  - apply andb_true_iff in E. destruct E as [E1 E2].
    apply Nat.eqb_eq in E1, E2. subst C. subst O.
    assert (o = 0%nat) by lia. subst o. cbn [seq map].
    rewrite Rsum_cons, Rsum_nil. rewrite kernel_sum_scale. lra.
  - f_equal. apply map_ext. intros i. now rewrite kernel_sum_scale.
Qed.

(** X19: for a pair that is absorbed, with finite parameters, when on every
    channel the batch-norm bias does not exceed three times the absolute
    value of the batch-norm weight, nothing is moved: both biases are written
    back with the values they had.  In real arithmetic. *)
Theorem absorption_without_excess_changes_nothing
    (layer1 layer2 : string * Module) (model origin_model : Model)
    (pre_layer cur_layer : LayerObj) (cur_conv opre ocur : Conv)
    (C O I KH KW : nat) (BNW BNB OB1 CB : nat -> R)
    (W : nat -> nat -> nat -> nat -> R) :
  hasattr_bias (snd layer1) = true ->
  hasattr_bias (snd layer2) = true ->
  fst layer1 <> fst layer2 ->
  model (fst layer1) = Some pre_layer ->
  model (fst layer2) = Some cur_layer ->
  bind_pre_bn pre_layer cur_layer
  = Bound (mkBatchNorm (real1 C BNW) (real1 C BNB)) cur_conv ->
  origin_model (fst layer1) = Some (Conv2dObj opre) ->
  origin_model (fst layer2) = Some (Conv2dObj ocur) ->
  weight cur_conv = real4 O I KH KW W ->
  bias cur_conv = Some (real1 O CB) ->
  bias opre = Some (real1 C OB1) ->
  bias ocur = bias cur_conv ->
  (I = 1%nat /\ O = C) \/ I = C ->
  (forall ch, BNB ch <= 3 * Rabs (BNW ch)) ->
  exists origin' nb1 nb2,
    bias_absorb_helper_ layer1 layer2 model origin_model = Ok origin'
    /\ origin' (fst layer1)
       = Some (Conv2dObj (mkConv (weight opre) (Some nb1) (fused_bn_ opre)))
    /\ origin' (fst layer2)
       = Some (Conv2dObj (mkConv (weight ocur) (Some nb2) (fused_bn_ ocur)))
    /\ (forall ch, at1 nb1 ch = Fin (OB1 ch))
    /\ (forall o, at1 nb2 o = Fin (CB o)).
Proof.
  intros H1 H2 Hne M1 M2 Hbind O1 O2 Hw Hcb Hob1 Hob2 Hshape Hsmall.
  destruct (absorb_pair_real layer1 layer2 model origin_model pre_layer cur_layer
              cur_conv opre ocur C O I KH KW BNW BNB OB1 CB W
              H1 H2 Hne M1 M2 Hbind O1 O2 Hw Hcb Hob1 Hob2 Hshape)
    as (origin' & nb1 & nb2 & E & P1 & P2 & _ & _ & N1 & N2).
  assert (Hz : forall ch, absorbed BNW BNB ch = 0).
  { intros ch. unfold absorbed. apply Rmax_left. specialize (Hsmall ch). lra. }
  exists origin', nb1, nb2. repeat split; try assumption.
  - intros ch. rewrite N1, Hz. f_equal. lra.
  - intros o. rewrite N2. f_equal.
    assert (Hc : correction O I KH KW C W (absorbed BNW BNB) o = 0).
    { unfold correction. destruct (_ && _); [rewrite Hz; lra|].
      rewrite (Rsum_map_ext _ (fun _ => 0)); [apply Rsum_zero|].
      intros i _. rewrite Hz. lra. }
    rewrite Hc. lra.
Qed.

(** X20: for a pair that is absorbed, with finite parameters, a ReLU between
    the two convolutions and a normal convolution as consumer,
    [conv2(relu(conv1(x)))] has the same value before and after the
    absorption at every output position none of whose kernel entries falls
    into the padding and at which every pre-activation of the producer that is
    read is at least the absorbed amount [c] of its channel.  In real
    arithmetic. *)
Theorem absorption_preserves_relu_function
    (layer1 layer2 : string * Module) (model origin_model : Model)
    (pre_layer cur_layer : LayerObj) (cur_conv opre ocur : Conv)
    (C O I1 KH1 KW1 KH KW : nat) (BNW BNB OB1 CB : nat -> R)
    (W1 W : nat -> nat -> nat -> nat -> R) :
  hasattr_bias (snd layer1) = true ->
  hasattr_bias (snd layer2) = true ->
  fst layer1 <> fst layer2 ->
  model (fst layer1) = Some pre_layer ->
  model (fst layer2) = Some cur_layer ->
  bind_pre_bn pre_layer cur_layer
  = Bound (mkBatchNorm (real1 C BNW) (real1 C BNB)) cur_conv ->
  origin_model (fst layer1) = Some (Conv2dObj opre) ->
  origin_model (fst layer2) = Some (Conv2dObj ocur) ->
  weight opre = real4 C I1 KH1 KW1 W1 ->
  weight cur_conv = real4 O C KH KW W ->
  weight ocur = weight cur_conv ->
  bias cur_conv = Some (real1 O CB) ->
  bias opre = Some (real1 C OB1) ->
  bias ocur = bias cur_conv ->
  exists origin' nb1 nb2,
    bias_absorb_helper_ layer1 layer2 model origin_model = Ok origin'
    /\ origin' (fst layer1)
       = Some (Conv2dObj (mkConv (weight opre) (Some nb1) (fused_bn_ opre)))
    /\ origin' (fst layer2)
       = Some (Conv2dObj (mkConv (weight ocur) (Some nb2) (fused_bn_ ocur)))
    /\ forall (X : nat -> nat -> nat -> nat -> nat -> R) (site : nat -> nat -> option nat)
              (o : nat),
         (o < O)%nat ->
         (forall h w, (h < KH)%nat -> (w < KW)%nat ->
            exists q, site h w = Some q
                      /\ forall ch, (ch < C)%nat ->
                           absorbed BNW BNB ch
                           <= Rsum (map (fun '(i, h, w) => W1 ch i h w * X q ch i h w)
                                        (index3 I1 KH1 KW1)) + OB1 ch) ->
         two_layer Act_ReLU (weight opre) nb1 (weight ocur) nb2
           (fun q c i h w => Fin (X q c i h w)) site o
         = two_layer Act_ReLU (weight opre) (real1 C OB1) (weight ocur) (real1 O CB)
             (fun q c i h w => Fin (X q c i h w)) site o.
Proof.
  intros H1 H2 Hne M1 M2 Hbind O1 O2 Hw1 Hw Hwo Hcb Hob1 Hob2.
  destruct (absorb_pair_real layer1 layer2 model origin_model pre_layer cur_layer
              cur_conv opre ocur C O C KH KW BNW BNB OB1 CB W
              H1 H2 Hne M1 M2 Hbind O1 O2 Hw Hcb Hob1 Hob2 (or_intror eq_refl))
    as (origin' & nb1 & nb2 & E & P1 & P2 & _ & _ & N1 & N2).
  exists origin', nb1, nb2. repeat (split; [assumption|]).
  intros X site o Ho Hsite. rewrite Hwo, Hw, Hw1. unfold two_layer.
  set (cc := absorbed BNW BNB) in *.
  set (V := fun q ch => Rsum (map (fun '(i, h, w) => W1 ch i h w * X q ch i h w)
                                  (index3 I1 KH1 KW1))) in *.
  set (T := fun ch h w => match site h w with
                          | None => 0
                          | Some q => Rmax 0 (V q ch + OB1 ch)
                          end).
  set (T' := fun ch h w => match site h w with
                           | None => 0
                           | Some q => Rmax 0 (V q ch + (OB1 ch - cc ch))
                           end).
  rewrite (conv2d_at_taps _ nb2 _ (fun ch h w => Fin (T' ch h w)) o).
  2:{ intros ch h w. unfold T'. destruct (site h w) as [q|]; [|reflexivity].
      rewrite (conv2d_at_Fin (real4 C I1 KH1 KW1 W1) nb1 (W1 ch) (X q ch)
                 (OB1 ch - cc ch) ch); [|reflexivity|apply N1].
      reflexivity. }
  rewrite (conv2d_at_taps _ (real1 O CB) _ (fun ch h w => Fin (T ch h w)) o).
  2:{ intros ch h w. unfold T. destruct (site h w) as [q|]; [|reflexivity].
      rewrite (conv2d_at_Fin (real4 C I1 KH1 KW1 W1) (real1 C OB1) (W1 ch) (X q ch)
                 (OB1 ch) ch); [|reflexivity|reflexivity].
      reflexivity. }
  rewrite (conv2d_at_Fin (real4 O C KH KW W) nb2 (W o) T'
             (CB o + correction O C KH KW C W cc o) o); [|reflexivity|apply N2].
  rewrite (conv2d_at_Fin (real4 O C KH KW W) (real1 O CB) (W o) T (CB o) o);
    [|reflexivity|reflexivity].
  f_equal. cbn [real4 dim1 dim2 dim3].
  rewrite (correction_as_sum O KH KW C W cc o Ho).
  rewrite (Rsum_map_ext (fun '(i, h, w) => W o i h w * T' i h w)
             (fun x => (fun '(i, h, w) => W o i h w * T i h w) x
                       - (fun '(i, h, w) => W o i h w * cc i) x) (index3 C KH KW)).
  - rewrite Rsum_map_minus. lra.
  - intros [[ch h] w] Hin. apply index3_in in Hin. destruct Hin as (Hch & Hh & Hk).
    destruct (Hsite h w Hh Hk) as (q & Eq & Hq). specialize (Hq ch Hch).
    unfold T, T'. rewrite Eq. fold (V q ch) in Hq.
    pose proof (absorbed_nonneg BNW BNB ch) as Hc0. fold cc in Hc0.
    rewrite !Rmax_right by lra. ring.
Qed.

Lemma correction_depthwise KH KW C W (c : nat -> R) o :
  correction C 1 KH KW C W c o
  = Rsum (map (fun '(i, h, w) => W o i h w * c o) (index3 1 KH KW)).
Proof.
  rewrite (Rsum_index3 (fun i h w => W o i h w * c o)).
  unfold correction. rewrite !Nat.eqb_refl. cbn [andb seq map].
  rewrite Rsum_cons, Rsum_nil. rewrite kernel_sum_scale. lra.
Qed.

(** X21: the same for a depthwise convolution as consumer, whose output
    channel [o] reads channel [o] of the producer only: at every output
    position none of whose kernel entries falls into the padding and at which
    every pre-activation of channel [o] that is read is at least [c[o]],
    [conv2(relu(conv1(x)))] has the same value before and after the
    absorption.  In real arithmetic. *)
Theorem absorption_preserves_relu_function_depthwise
    (layer1 layer2 : string * Module) (model origin_model : Model)
    (pre_layer cur_layer : LayerObj) (cur_conv opre ocur : Conv)
    (C I1 KH1 KW1 KH KW : nat) (BNW BNB OB1 CB : nat -> R)
    (W1 W : nat -> nat -> nat -> nat -> R) :
  hasattr_bias (snd layer1) = true ->
  hasattr_bias (snd layer2) = true ->
  fst layer1 <> fst layer2 ->
  model (fst layer1) = Some pre_layer ->
  model (fst layer2) = Some cur_layer ->
  bind_pre_bn pre_layer cur_layer
  = Bound (mkBatchNorm (real1 C BNW) (real1 C BNB)) cur_conv ->
  origin_model (fst layer1) = Some (Conv2dObj opre) ->
  origin_model (fst layer2) = Some (Conv2dObj ocur) ->
  weight opre = real4 C I1 KH1 KW1 W1 ->
  weight cur_conv = real4 C 1 KH KW W ->
  weight ocur = weight cur_conv ->
  bias cur_conv = Some (real1 C CB) ->
  bias opre = Some (real1 C OB1) ->
  bias ocur = bias cur_conv ->
  exists origin' nb1 nb2,
    bias_absorb_helper_ layer1 layer2 model origin_model = Ok origin'
    /\ origin' (fst layer1)
       = Some (Conv2dObj (mkConv (weight opre) (Some nb1) (fused_bn_ opre)))
    /\ origin' (fst layer2)
       = Some (Conv2dObj (mkConv (weight ocur) (Some nb2) (fused_bn_ ocur)))
    /\ forall (X : nat -> nat -> nat -> nat -> nat -> R) (site : nat -> nat -> option nat)
              (o : nat),
         (forall h w, (h < KH)%nat -> (w < KW)%nat ->
            exists q, site h w = Some q
                      /\ absorbed BNW BNB o
                         <= Rsum (map (fun '(i, h, w) => W1 o i h w * X q o i h w)
                                      (index3 I1 KH1 KW1)) + OB1 o) ->
         two_layer_depthwise Act_ReLU (weight opre) nb1 (weight ocur) nb2
           (fun q c i h w => Fin (X q c i h w)) site o
         = two_layer_depthwise Act_ReLU (weight opre) (real1 C OB1) (weight ocur) (real1 C CB)
             (fun q c i h w => Fin (X q c i h w)) site o.
Proof.
  intros H1 H2 Hne M1 M2 Hbind O1 O2 Hw1 Hw Hwo Hcb Hob1 Hob2.
  destruct (absorb_pair_real layer1 layer2 model origin_model pre_layer cur_layer
              cur_conv opre ocur C C 1 KH KW BNW BNB OB1 CB W
              H1 H2 Hne M1 M2 Hbind O1 O2 Hw Hcb Hob1 Hob2
              (or_introl (conj eq_refl eq_refl)))
    as (origin' & nb1 & nb2 & E & P1 & P2 & _ & _ & N1 & N2).
  exists origin', nb1, nb2. repeat (split; [assumption|]).
  intros X site o Hsite. rewrite Hwo, Hw, Hw1. unfold two_layer_depthwise.
  set (cc := absorbed BNW BNB) in *.
  set (V := fun q ch => Rsum (map (fun '(i, h, w) => W1 ch i h w * X q ch i h w)
                                  (index3 I1 KH1 KW1))) in *.
  set (T := fun (_ h w : nat) => match site h w with
                                 | None => 0
                                 | Some q => Rmax 0 (V q o + OB1 o)
                                 end).
  set (T' := fun (_ h w : nat) => match site h w with
                                  | None => 0
                                  | Some q => Rmax 0 (V q o + (OB1 o - cc o))
                                  end).
  rewrite (conv2d_at_taps _ nb2 _ (fun i h w => Fin (T' i h w)) o).
  2:{ intros i h w. unfold T'. destruct (site h w) as [q|]; [|reflexivity].
      rewrite (conv2d_at_Fin (real4 C I1 KH1 KW1 W1) nb1 (W1 o) (X q o)
                 (OB1 o - cc o) o); [|reflexivity|apply N1].
      reflexivity. }
  rewrite (conv2d_at_taps _ (real1 C CB) _ (fun i h w => Fin (T i h w)) o).
  2:{ intros i h w. unfold T. destruct (site h w) as [q|]; [|reflexivity].
      rewrite (conv2d_at_Fin (real4 C I1 KH1 KW1 W1) (real1 C OB1) (W1 o) (X q o)
                 (OB1 o) o); [|reflexivity|reflexivity].
      reflexivity. }
  rewrite (conv2d_at_Fin (real4 C 1 KH KW W) nb2 (W o) T'
             (CB o + correction C 1 KH KW C W cc o) o); [|reflexivity|apply N2].
  rewrite (conv2d_at_Fin (real4 C 1 KH KW W) (real1 C CB) (W o) T (CB o) o);
    [|reflexivity|reflexivity].
  f_equal. cbn [real4 dim1 dim2 dim3].
  rewrite (correction_depthwise KH KW C W cc o).
  rewrite (Rsum_map_ext (fun '(i, h, w) => W o i h w * T' i h w)
             (fun x => (fun '(i, h, w) => W o i h w * T i h w) x
                       - (fun '(i, h, w) => W o i h w * cc o) x) (index3 1 KH KW)).
  - rewrite Rsum_map_minus. lra.
  - intros [[i h] w] Hin. apply index3_in in Hin. destruct Hin as (Hi & Hh & Hk).
    destruct (Hsite h w Hh Hk) as (q & Eq & Hq).
    unfold T, T'. rewrite Eq. fold (V q o) in Hq.
    pose proof (absorbed_nonneg BNW BNB o) as Hc0. fold cc in Hc0.
    rewrite !Rmax_right by lra. ring.
Qed.

(** ** Instances of the further properties *)

Lemma discovered_groups_are_supported_witness :
  is_group_supported [ex_conv2; ex_conv3] = true
  /\ forall threshold model,
       _weight_equal_helper [ex_conv2; ex_conv3] threshold model <> Err AssertionError.
Proof.
  apply (discovered_groups_are_supported three_conv_graph [ex_conv2; ex_conv3]).
  right. left. reflexivity.
Defined.

Lemma no_group_is_recorded_twice_witness :
  group_eqb [ex_conv2; ex_conv3] [ex_conv1; ex_conv2] = false.
Proof.
  apply (no_group_is_recorded_twice three_conv_graph 0 1).
  - lia.
  - reflexivity.
  - reflexivity.
Defined.

Lemma groups_hold_convolutions_of_the_graph_witness :
  isinstance (snd ex_conv3) cls_support_type = true
  /\ exists node, In node (graph_nodes three_conv_graph)
                  /\ unique_name node = fst ex_conv3 /\ module node = snd ex_conv3.
Proof.
  apply (groups_hold_convolutions_of_the_graph three_conv_graph [ex_conv2; ex_conv3]).
  - right. left. reflexivity.
  - right. left. reflexivity.
Defined.

Lemma adjacent_layers_of_a_group_are_linked_witness :
  linked three_conv_graph ex_conv1 ex_conv2.
Proof.
  apply (adjacent_layers_of_a_group_are_linked three_conv_graph [ex_conv1; ex_conv2]).
  - left. reflexivity.
  - left. reflexivity.
Defined.

Lemma last_node_of_a_sequential_graph_closes_no_group_witness :
  get_cls_set open_graph = []
  /\ forall g, In g (get_cls_set open_graph) -> ~ In (fst ex_conv2) (names g).
Proof.
  apply (last_node_of_a_sequential_graph_closes_no_group ex_conv1 [ex_relu1] [] ex_conv2).
  - cbn. repeat constructor; cbn; intuition discriminate.
  - reflexivity.
  - repeat constructor.
  - exact I.
Defined.

Lemma equalize_balances_ranges_witness :
  exists w1' b1' w2' s,
    equalize (real4 1 1 1 1 wide_w) (Some (real1 1 balanced_b)) (real4 1 1 1 1 balanced_w)
    = Ok (w1', b1', w2', s)
    /\ at1 (abs_amax_123 w1') 0
       = Fin (sqrt (range_123 1 1 1 (wide_w 0%nat)
                    * range_123 1 1 1 (fun o h k => balanced_w o 0%nat h k)))
    /\ at1 (abs_amax_123 (permute_1023 w2')) 0
       = Fin (sqrt (range_123 1 1 1 (wide_w 0%nat)
                    * range_123 1 1 1 (fun o h k => balanced_w o 0%nat h k))).
Proof.
  destruct (equalize_balances_ranges 1 1 1 1 1 1 1 wide_w balanced_b balanced_w)
    as (w1' & b1' & w2' & s & E & H); try lia.
  { intros c Hc. unfold wide_w, balanced_w.
    split; exists 0%nat, 0%nat, 0%nat; repeat split; try lia; lra. }
  exists w1', b1', w2', s. split; [exact E|].
  destruct (H 0%nat) as (_ & _ & _ & _ & A & B); [lia|]. split; assumption.
Defined.

Lemma equalize_second_pass_changes_nothing_witness :
  exists w1' b1' w2' s w1'' b1'' w2'' s',
    equalize (real4 1 1 1 1 wide_w) (Some (real1 1 balanced_b)) (real4 1 1 1 1 balanced_w)
    = Ok (w1', b1', w2', s)
    /\ equalize w1' (Some b1') w2' = Ok (w1'', b1'', w2'', s')
    /\ at1 s' 0 = Fin 1.
Proof.
  destruct (equalize_second_pass_changes_nothing 1 1 1 1 1 1 1
              wide_w balanced_b balanced_w)
    as (w1' & b1' & w2' & s & w1'' & b1'' & w2'' & s' & E & E' & H); try lia.
  { intros c Hc. unfold wide_w, balanced_w.
    split; exists 0%nat, 0%nat, 0%nat; repeat split; try lia; lra. }
  exists w1', b1', w2', s, w1'', b1'', w2'', s'. split; [exact E|]. split; [exact E'|].
  destruct (H 0%nat) as [A _]; [lia|]. exact A.
Defined.

Lemma equalize_cdc_scale_cases_witness :
  exists w1' b1' w2' b2' w3' s1 s2,
    equalize_cdc (real4 1 1 1 1 wide_w) (Some (real1 1 balanced_b))
      (real4 1 1 1 1 balanced_w) (Some (real1 1 balanced_b))
      (real4 1 1 1 1 balanced_w) 1000
    = Ok (w1', b1', w2', b2', w3', (s1, s2))
    /\ exists S1 S2, at1 s1 0 = Fin S1 /\ at1 s2 0 = Fin S2 /\ 0 < S1 /\ 0 < S2.
Proof.
  destruct (equalize_cdc_scale_cases 1 1 1 1 1 1 1 1 1 1
              wide_w balanced_b balanced_w balanced_b balanced_w 1000)
    as (w1' & b1' & w2' & b2' & w3' & s1 & s2 & E & H); try lia.
  exists w1', b1', w2', b2', w3', s1, s2. split; [exact E|].
  destruct (H 0%nat) as (_ & _ & P); [lia| |exact P].
  unfold nonzero_channels3, wide_w, balanced_w.
  repeat split; exists 0%nat, 0%nat, 0%nat; repeat split; try lia; lra.
Defined.

Lemma equalize_cdc_balances_ranges_witness :
  exists w1' b1' w2' b2' w3' s1 s2,
    equalize_cdc (real4 1 1 1 1 balanced_w) (Some (real1 1 balanced_b))
      (real4 1 1 1 1 balanced_w) (Some (real1 1 balanced_b))
      (real4 1 1 1 1 balanced_w) 1000
    = Ok (w1', b1', w2', b2', w3', (s1, s2))
    /\ at1 (abs_amax_123 w1') 0 = Fin 2
    /\ at1 (abs_amax_123 w2') 0 = Fin 2
    /\ at1 (abs_amax_123 (permute_1023 w3')) 0 = Fin 2.
Proof.
  destruct (equalize_cdc_balances_ranges 1 1 1 1 1 1 1 1 1 1
              balanced_w balanced_b balanced_w balanced_b balanced_w 1000)
    as (w1' & b1' & w2' & b2' & w3' & s1 & s2 & E & H); try lia.
  exists w1', b1', w2', b2', w3', s1, s2. split; [exact E|].
  assert (Hr : range_123 1 1 1 (balanced_w 0%nat) = 2).
  { unfold balanced_w. rewrite range_123_single. apply Rabs_right. lra. }
  assert (Hr3 : range_123 1 1 1 (fun o h k => balanced_w o 0%nat h k) = 2).
  { unfold balanced_w. rewrite range_123_single. apply Rabs_right. lra. }
  assert (Hg : geometric_mean3 2 2 2 = 2).
  { unfold geometric_mean3. apply cube_root_cube. lra. }
  specialize (H 0%nat). cbv zeta in H. rewrite Hr, Hr3, Hg in H. apply H.
  - lia.
  - unfold nonzero_channels3, balanced_w.
    repeat split; exists 0%nat, 0%nat, 0%nat; repeat split; try lia; lra.
  - lra.
Defined.

Lemma equalize_cdc_preserves_three_layer_function_witness :
  exists w1' b1' w2' b2' w3' s1 s2,
    equalize_cdc (real4 1 1 1 1 wide_w) (Some (real1 1 balanced_b))
      (real4 1 1 1 1 balanced_w) (Some (real1 1 balanced_b))
      (real4 1 1 1 1 balanced_w) 1000
    = Ok (w1', b1', w2', b2', w3', (s1, s2))
    /\ three_layer Act_ReLU Act_ReLU w1' b1' w2' b2' w3' (real1 1 balanced_b)
         (fun _ _ _ _ _ => Fin 1) (fun _ _ _ => Some 0%nat) (fun _ _ => Some 0%nat) 0
       = three_layer Act_ReLU Act_ReLU (real4 1 1 1 1 wide_w) (real1 1 balanced_b)
           (real4 1 1 1 1 balanced_w) (real1 1 balanced_b)
           (real4 1 1 1 1 balanced_w) (real1 1 balanced_b)
           (fun _ _ _ _ _ => Fin 1) (fun _ _ _ => Some 0%nat) (fun _ _ => Some 0%nat) 0.
Proof.
  destruct (equalize_cdc_preserves_three_layer_function Act_ReLU Act_ReLU 1 1 1 1 1 1 1 1 1
              wide_w balanced_b balanced_w balanced_b balanced_w balanced_b 1000)
    as (w1' & b1' & w2' & b2' & w3' & s1 & s2 & E & H); try lia.
  { intros c Hc. unfold nonzero_channels3, wide_w, balanced_w.
    repeat split; exists 0%nat, 0%nat, 0%nat; repeat split; try lia; lra. }
  exists w1', b1', w2', b2', w3', s1, s2. split; [exact E|].
  exact (H (fun _ _ _ _ _ => 1) (fun _ _ _ => Some 0%nat) (fun _ _ => Some 0%nat) 0%nat).
Defined.

Lemma equalization_changes_group_layers_only_witness :
  exists layer_groups model',
    _cross_layer_equalize (fun _ => three_conv_graph) ex_model 1000
    = Ok (layer_groups, model')
    /\ layer_groups = [[ex_conv1; ex_conv2]; [ex_conv2; ex_conv3]]
    /\ model' "relu1"%string = ex_model "relu1"%string.
Proof.
  do 2 eexists. split; [reflexivity|].
  destruct (equalization_changes_group_layers_only (fun _ => three_conv_graph) ex_model 1000
              _ _ "relu1"%string eq_refl) as (A & _ & H).
  split; [exact A|]. apply H.
  intros g l [Hg|[Hg|[]]] Hl; subst g;
    repeat (destruct Hl as [Hl|Hl]; [subst l; discriminate|]); destruct Hl.
Defined.

Lemma absorption_changes_biases_only_witness :
  exists model',
    high_bias_absorb ex_model [[ex_conv1; ex_conv2]] = Ok model'
    /\ same_but_bias (ex_model "conv1"%string) (model' "conv1"%string)
    /\ model' "conv3"%string = ex_model "conv3"%string.
Proof.
  eexists. split; [reflexivity|].
  destruct (absorption_changes_biases_only ex_model [[ex_conv1; ex_conv2]] _
              "conv1"%string eq_refl) as [A _].
  destruct (absorption_changes_biases_only ex_model [[ex_conv1; ex_conv2]] _
              "conv3"%string eq_refl) as [_ B].
  split; [exact A|]. apply B.
  intros g l [Hg|[]] Hl; subst g;
    repeat (destruct Hl as [Hl|Hl]; [subst l; discriminate|]); destruct Hl.
Defined.

Lemma absorption_skips_layers_without_fused_bn_witness :
  high_bias_absorb ex_plain_model [[ex_conv1; ex_conv2]; [ex_conv2; ex_conv3]]
  = Ok ex_plain_model.
Proof.
  apply (absorption_skips_layers_without_fused_bn ex_plain_model).
  intros g l [Hg|[Hg|[]]] Hl; subst g;
    repeat (destruct Hl as [Hl|Hl]; [subst l; eexists; split; reflexivity|]); destruct Hl.
Defined.

Lemma driver_result_has_no_fused_bn_witness :
  exists model',
    cross_layer_equalize (fun m => m) (fun m => m) (fun _ => three_conv_graph)
      ex_model 1000 1 true = Ok model'
    /\ forall k obj, model' k = Some obj -> attached_bn obj = None.
Proof.
  eexists. split; [reflexivity|].
  exact (proj1 (driver_result_has_no_fused_bn (fun m => m) (fun m => m)
                  (fun _ => three_conv_graph) ex_model 1000 1 true _ eq_refl)).
Defined.

Lemma equalization_raises_without_bias_witness :
  _weight_equal_helper [ex_conv1; ex_conv2] 1000 ex_model_no_bias = Err AttributeError.
Proof.
  apply (proj1 (equalization_raises_without_bias ex_model_no_bias 1000
                  ex_conv1 ex_conv2 ex_conv3 ex_no_bias ex_cur ex_last
                  eq_refl eq_refl eq_refl)).
  - reflexivity.
  - reflexivity.
Defined.

Lemma absorption_without_excess_changes_nothing_witness :
  exists origin' nb1 nb2,
    bias_absorb_helper_ ex_conv1 ex_conv2 ex_model_small ex_model_small = Ok origin'
    /\ origin' "conv1"%string
       = Some (Conv2dObj (mkConv (weight ex_pre_small) (Some nb1) (Some ex_bn_small)))
    /\ origin' "conv2"%string
       = Some (Conv2dObj (mkConv (weight ex_cur) (Some nb2) (Some ex_bn)))
    /\ (forall ch, at1 nb1 ch = Fin 1)
    /\ (forall o, at1 nb2 o = Fin 1).
Proof.
  apply (absorption_without_excess_changes_nothing ex_conv1 ex_conv2
           ex_model_small ex_model_small
           (Conv2dObj ex_pre_small) (Conv2dObj ex_cur) ex_cur ex_pre_small ex_cur 1 1 1 1 1
           (fun _ => 1) (fun _ => 2) (fun _ => 1) (fun _ => 1) (fun _ _ _ _ => 3));
    try reflexivity.
  - discriminate.
  - left. split; reflexivity.
  - intros ch. rewrite Rabs_right; lra.
Defined.

Lemma absorption_preserves_relu_function_witness :
  exists origin' nb1 nb2,
    bias_absorb_helper_ ex_conv1 ex_conv2 ex_model ex_model = Ok origin'
    /\ origin' "conv1"%string = Some (Conv2dObj (mkConv (weight ex_pre) (Some nb1) (Some ex_bn)))
    /\ origin' "conv2"%string = Some (Conv2dObj (mkConv (weight ex_cur) (Some nb2) (Some ex_bn)))
    /\ two_layer Act_ReLU (weight ex_pre) nb1 (weight ex_cur) nb2
         (fun _ _ _ _ _ => Fin 1) (fun _ _ => Some 0%nat) 0
       = two_layer Act_ReLU (weight ex_pre) (real1 1 (fun _ => 1)) (weight ex_cur)
           (real1 1 (fun _ => 1)) (fun _ _ _ _ _ => Fin 1) (fun _ _ => Some 0%nat) 0.
Proof.
  destruct (absorption_preserves_relu_function ex_conv1 ex_conv2 ex_model ex_model
              (Conv2dObj ex_pre) (Conv2dObj ex_cur) ex_cur ex_pre ex_cur 1 1 1 1 1 1 1
              (fun _ => 1) (fun _ => 5) (fun _ => 1) (fun _ => 1)
              (fun _ _ _ _ => 2) (fun _ _ _ _ => 3))
    as (origin' & nb1 & nb2 & E & P1 & P2 & H); try reflexivity.
  { discriminate. }
  exists origin', nb1, nb2. repeat (split; [assumption|]).
  apply (H (fun _ _ _ _ _ => 1) (fun _ _ => Some 0%nat) 0%nat); [lia|].
  intros h w _ _. exists 0%nat. split; [reflexivity|]. intros ch _.
  unfold absorbed, Rsum. cbn [index3 seq flat_map map app fold_left].
  rewrite Rabs_right by lra. rewrite Rmax_right by lra. lra.
Defined.

Lemma layers_of_a_group_are_distinct_witness : NoDup (names [ex_conv1; ex_conv2]).
Proof.
  apply (layers_of_a_group_are_distinct three_conv_graph [ex_conv1; ex_conv2]).
  left. reflexivity.
Defined.

Lemma absorption_preserves_relu_function_depthwise_witness :
  exists origin' nb1 nb2,
    bias_absorb_helper_ ex_conv1 ex_conv2 ex_model ex_model = Ok origin'
    /\ origin' "conv1"%string = Some (Conv2dObj (mkConv (weight ex_pre) (Some nb1) (Some ex_bn)))
    /\ origin' "conv2"%string = Some (Conv2dObj (mkConv (weight ex_cur) (Some nb2) (Some ex_bn)))
    /\ two_layer_depthwise Act_ReLU (weight ex_pre) nb1 (weight ex_cur) nb2
         (fun _ _ _ _ _ => Fin 1) (fun _ _ => Some 0%nat) 0
       = two_layer_depthwise Act_ReLU (weight ex_pre) (real1 1 (fun _ => 1)) (weight ex_cur)
           (real1 1 (fun _ => 1)) (fun _ _ _ _ _ => Fin 1) (fun _ _ => Some 0%nat) 0.
Proof.
  destruct (absorption_preserves_relu_function_depthwise ex_conv1 ex_conv2 ex_model ex_model
              (Conv2dObj ex_pre) (Conv2dObj ex_cur) ex_cur ex_pre ex_cur 1 1 1 1 1 1
              (fun _ => 1) (fun _ => 5) (fun _ => 1) (fun _ => 1)
              (fun _ _ _ _ => 2) (fun _ _ _ _ => 3))
    as (origin' & nb1 & nb2 & E & P1 & P2 & H); try reflexivity.
  { discriminate. }
  exists origin', nb1, nb2. repeat (split; [assumption|]).
  apply (H (fun _ _ _ _ _ => 1) (fun _ _ => Some 0%nat) 0%nat).
  intros h w _ _. exists 0%nat. split; [reflexivity|].
  unfold absorbed, Rsum. cbn [index3 seq flat_map map app fold_left].
  rewrite Rabs_right by lra. rewrite Rmax_right by lra. lra.
Defined.
